(** * Verification of the query engine core: expressions, classifier,
      plan builder, index scans and the cluster configuration store

    Shallow embedding of
      - expression/logic_or.go   (Or.Apply, Or.FilterCovers)
      - expression/base.go       (ExpressionBase.Value, PropagatesMissing,
                                  PropagatesNull, EquivalentTo, DependsOn)
      - planner expression classifier (ClassifyExpr, exprClassifier)
      - plan/builder.go          (Build, builder.VisitSelect,
                                  VisitSubselect, VisitUnion, VisitUnionAll,
                                  visitGroup, collectAggregates)
      - execution/scan_index2.go (DistinctScan.processKey, RunOnce,
                                  evalSpan2)
      - clustering_cb            (cbConfigStore.Authorize, doNameState,
                                  getPoolServices, checkPoolServices,
                                  cbCluster.QueryNodeNames,
                                  QueryNodeByName, makeURL)
      - server/http              (HttpEndpoint.hasAdminAuth,
                                  doConfigStore)                          *)

From stdpp Require Import gmap strings list fin_maps.
From Stdlib Require Import ZArith Lia DecimalString Ascii.

Open Scope Z_scope.

Set Warnings "-register-all".

(* ===================================================================== *)
(** ** The value package                                                  *)
(* ===================================================================== *)

Module value.

(** value.Type: the type tag of a JSON value ([TypeOf] below is the
    method Value.Type()). *)
Inductive Type_ := MISSING | NULL | BOOLEAN | NUMBER | STRING | ARRAY | OBJECT.


(** value.Value.  Numbers are modelled as integers; an object is the list
    of its fields in a canonical order. *)
Inductive Value :=
| MISSING_VALUE
| NULL_VALUE
| Bool (b : bool)
| Number (n : Z)
| String_ (s : string)
| Array (elems : list Value)
| Object (fields : list (string * Value)).

Definition TRUE_VALUE := Bool true.
Definition FALSE_VALUE := Bool false.

Definition TypeOf (v : Value) : Type_ :=
  match v with
  | MISSING_VALUE => MISSING
  | NULL_VALUE => NULL
  | Bool _ => BOOLEAN
  | Number _ => NUMBER
  | String_ _ => STRING
  | Array _ => ARRAY
  | Object _ => OBJECT
  end.

(** Modelled from the spec: value.Value.Truth is not part of the sources at
    hand.  The spec fixes [MISSING.Truth()=false] and [NULL.Truth()=false];
    a boolean is its own truth, and the remaining kinds are true when they
    are not zero or empty. *)
Definition Truth (v : Value) : bool :=
  match v with
  | MISSING_VALUE => false
  | NULL_VALUE => false
  | Bool b => b
  | Number n => negb (n =? 0)
  | String_ s => negb (String.eqb s "")
  | Array l => match l with [] => false | _ => true end
  | Object l => match l with [] => false | _ => true end
  end.

(** Deep structural equality of two values. *)
Fixpoint value_eqb (a b : Value) {struct a} : bool :=
  match a, b with
  | MISSING_VALUE, MISSING_VALUE => true
  | NULL_VALUE, NULL_VALUE => true
  | Bool x, Bool y => Bool.eqb x y
  | Number x, Number y => x =? y
  | String_ x, String_ y => String.eqb x y
  | Array xs, Array ys =>
      (fix go (xs ys : list Value) {struct xs} : bool :=
         match xs, ys with
         | [], [] => true
         | x :: xs', y :: ys' => value_eqb x y && go xs' ys'
         | _, _ => false
         end) xs ys
  | Object xs, Object ys =>
      (fix go (xs ys : list (string * Value)) {struct xs} : bool :=
         match xs, ys with
         | [], [] => true
         | (k, x) :: xs', (k', y) :: ys' =>
             String.eqb k k' && value_eqb x y && go xs' ys'
         | _, _ => false
         end) xs ys
  | _, _ => false
  end.

(** Modelled from the spec: value.Value.Equals is not part of the sources
    at hand.  "Equality: MISSING if any MISSING; NULL if any NULL; BOOLEAN
    otherwise by deep structural equality." *)
Definition Equals (a b : Value) : Value :=
  match a, b with
  | MISSING_VALUE, _ | _, MISSING_VALUE => MISSING_VALUE
  | NULL_VALUE, _ | _, NULL_VALUE => NULL_VALUE
  | _, _ => Bool (value_eqb a b)
  end.

(** Modelled from the spec: value.Value.EquivalentTo is not part of the
    sources at hand; two constants are "constant-equal" when they are
    structurally the same value. *)
Definition EquivalentTo (a b : Value) : bool := value_eqb a b.

(** An induction principle that reaches the elements of arrays and the
    fields of objects. *)
Section value_ind.
Variable P : Value -> Prop.
Hypothesis Hmissing : P MISSING_VALUE.
Hypothesis Hnull : P NULL_VALUE.
Hypothesis Hbool : forall b, P (Bool b).
Hypothesis Hnumber : forall n, P (Number n).
Hypothesis Hstring : forall s, P (String_ s).
Hypothesis Harray : forall l, Forall P l -> P (Array l).
Hypothesis Hobject : forall l, Forall (fun kv => P (snd kv)) l -> P (Object l).

Fixpoint Value_deep_ind (v : Value) : P v :=
  match v with
  | MISSING_VALUE => Hmissing
  | NULL_VALUE => Hnull
  | Bool b => Hbool b
  | Number n => Hnumber n
  | String_ s => Hstring s
  | Array l =>
      Harray l
        ((fix go (l : list Value) : Forall P l :=
            match l with
            | [] => Stdlib.Lists.List.Forall_nil P
            | x :: l' =>
                Stdlib.Lists.List.Forall_cons P x l' (Value_deep_ind x) (go l')
            end) l)
  | Object l =>
      Hobject l
        ((fix go (l : list (string * Value)) : Forall (fun kv => P (snd kv)) l :=
            match l with
            | [] => Stdlib.Lists.List.Forall_nil _
            | kv :: l' =>
                Stdlib.Lists.List.Forall_cons (fun kv => P (snd kv)) kv l'
                  (Value_deep_ind (snd kv)) (go l')
            end) l)
  end.
End value_ind.

Lemma value_eqb_refl (v : Value) : value_eqb v v = true.
Proof.
  induction v using Value_deep_ind; simpl; auto.
  - by destruct b.
  - apply Z.eqb_refl.
  - apply String.eqb_refl.
  - induction H as [|x l Hx Hl IH]; [done|]. by rewrite Hx, IH.
  - induction H as [|[k x] l Hx Hl IH]; [done|].
    simpl in Hx. by rewrite String.eqb_refl, Hx, IH.
Qed.

Lemma value_eqb_eq (a b : Value) : value_eqb a b = true -> a = b.
Proof.
  revert b. induction a using Value_deep_ind; intros [] Hab;
    simpl in Hab; try discriminate; auto.
  - f_equal. by apply Bool.eqb_prop.
  - f_equal. by apply Z.eqb_eq.
  - f_equal. by apply String.eqb_eq.
  - f_equal. revert elems Hab.
    induction H as [|x l Hx Hl IH]; intros [|y ys] Hab; try discriminate; auto.
    apply andb_prop in Hab as [Hxy Hrest].
    f_equal; [by apply Hx | by apply IH].
  - f_equal. revert fields Hab.
    induction H as [|[k x] l Hx Hl IH]; intros [|[k' y] ys] Hab;
      try discriminate; auto.
    apply andb_prop in Hab as [Hab Hrest].
    apply andb_prop in Hab as [Hk Hxy]. simpl in Hx.
    apply String.eqb_eq in Hk. subst k'.
    f_equal; [f_equal; by apply Hx | by apply IH].
Qed.

Lemma value_eqb_sym (a b : Value) : value_eqb a b = value_eqb b a.
Proof.
  destruct (value_eqb a b) eqn:Hab.
  - apply value_eqb_eq in Hab. subst. symmetry. apply value_eqb_refl.
  - destruct (value_eqb b a) eqn:Hba; [|done].
    apply value_eqb_eq in Hba. subst. by rewrite value_eqb_refl in Hab.
Qed.

(** [Equals] is true only on structurally equal, valued operands. *)
Lemma Equals_Truth (a b : Value) :
  Truth (Equals a b) = true <->
  a = b /\ a <> MISSING_VALUE /\ a <> NULL_VALUE.
Proof.
  split.
  - intros H. destruct a, b; simpl in H; try discriminate;
      (split; [by apply value_eqb_eq | split; discriminate]).
  - intros (-> & Hm & Hn).
    destruct b; try congruence; unfold Equals, Truth;
      by rewrite value_eqb_refl.
Qed.

End value.


(* ===================================================================== *)
(** ** expression/logic_or.go                                             *)
(* ===================================================================== *)

Module logic_or.
Import value.

(** Go's [error]; [None] is the nil error. *)
Definition error := string.

(** The loop of [Or.Apply]: [missing] and [null] are the two flags, a true
    operand returns at once. *)
Fixpoint Apply_loop (missing null : bool) (args : list Value) : Value :=
  match args with
  | [] =>
      if null then NULL_VALUE
      else if missing then MISSING_VALUE
      else FALSE_VALUE
  | arg :: rest =>
      match TypeOf arg with
      | NULL => Apply_loop missing true rest
      | MISSING => Apply_loop true null rest
      | _ => if Truth arg then TRUE_VALUE else Apply_loop missing null rest
      end
  end.

(** [func (this *Or) Apply(context Context, args ...value.Value)]. *)
Definition Apply (args : list Value) : Value * option error :=
  (Apply_loop false false args, None).

Definition is_null (v : Value) : bool :=
  match v with NULL_VALUE => true | _ => false end.

Definition is_missing (v : Value) : bool :=
  match v with MISSING_VALUE => true | _ => false end.

(** The cover map of [FilterCovers]: expression text to value. *)
Abbreviation Covers := (gmap string Value).

(** The expressions [Or.FilterCovers] can meet.  [Base] is any kind that
    inherits [ExpressionBase.FilterCovers]; [Other fc] is a kind whose own
    [FilterCovers] is outside these sources, given by what it does to the
    map it receives. *)
Inductive Expression :=
| Base
| Other (fc : Covers -> Covers)
| Or (operands : list Expression).

(** The test of the inner loop: the entry [s, v] of [c] is deleted unless
    [ci] binds [s] to a value that [v] equals. *)
Definition agrees (ci : Covers) (sv : string * Value) : bool :=
  match ci !! sv.1 with
  | Some vi => Truth (Equals sv.2 vi)
  | None => false
  end.

(** [FilterCovers]: [ExpressionBase.FilterCovers] returns the map as it is;
    [Or.FilterCovers] intersects the covers of its operands, each computed
    on a fresh map of the pool, and copies what is left into [covers].
    [None] is the panic of [this.operands[0]] on an OR without operands. *)
Fixpoint FilterCovers (e : Expression) (covers : Covers) : option Covers :=
  match e with
  | Base => Some covers
  | Other fc => Some (fc covers)
  | Or operands =>
      match operands with
      | [] => None
      | op0 :: rest =>
          c ← FilterCovers op0 ∅;
          if decide (size c = 0%nat) then Some covers
          else
            (fix loop (ops : list Expression) (c : Covers) {struct ops}
               : option Covers :=
               match ops with
               | [] => Some (c ∪ covers)
               | opi :: ops' =>
                   ci ← FilterCovers opi ∅;
                   if decide (size ci = 0%nat) then Some covers
                   else loop ops' (filter (fun sv => agrees ci sv = true) c)
               end) rest c
      end
  end.

(** The loop over [operands[1:]], named. *)
Fixpoint FilterCovers_loop (ops : list Expression) (c covers : Covers)
  : option Covers :=
  match ops with
  | [] => Some (c ∪ covers)
  | opi :: ops' =>
      ci ← FilterCovers opi ∅;
      if decide (size ci = 0%nat) then Some covers
      else FilterCovers_loop ops' (filter (fun sv => agrees ci sv = true) c) covers
  end.

(** Modelled from the spec: [Eq.FilterCovers] is not part of the sources
    at hand; the predicate [x = 1] covers the expression text [x] with the
    value 1. *)
Definition Eq_const (text : string) (v : Value) : Expression :=
  Other (fun covers => <[text := v]> covers).

(** What the operands produce, each on a fresh map. *)
Definition operand_covers (operands : list Expression) (cs : list Covers) : Prop :=
  Forall2 (fun op c => FilterCovers op ∅ = Some c) operands cs.

(** Every operand binds [s] to a value that compares Equals-true to [v]. *)
Definition all_agree (cs : list Covers) (s : string) (v : Value) : Prop :=
  forall c, c ∈ cs -> exists vi, c !! s = Some vi /\ Truth (Equals vi v) = true.

(** The OR adds exactly the intersection of its operands' covers to
    [covers]. *)
Definition adds_intersection (operands : list Expression) (covers : Covers) : Prop :=
  forall cs, operand_covers operands cs ->
    exists added : Covers,
      FilterCovers (Or operands) covers = Some (added ∪ covers) /\
      forall s v, added !! s = Some v <-> all_agree cs s v.

(* --------------------------------------------------------------------- *)

Lemma Apply_loop_spec (missing null : bool) (args : list Value) :
  Apply_loop missing null args =
    if existsb Truth args then TRUE_VALUE
    else if null || existsb is_null args then NULL_VALUE
    else if missing || existsb is_missing args then MISSING_VALUE
    else FALSE_VALUE.
Proof.
  revert missing null.
  induction args as [|arg rest IH]; intros missing null; simpl.
  - by rewrite !orb_false_r.
  - destruct arg; simpl; rewrite ?IH; simpl; rewrite ?orb_true_r; try done.
    + by destruct b.
    + by destruct (negb (n =? 0)).
    + by destruct (negb (s =? "")%string).
    + by destruct elems.
    + by destruct fields.
Qed.

(** C1. For every list of operand values, [Or.Apply] returns TRUE if some
    operand's Truth() is true; otherwise NULL if some operand is NULL;
    otherwise MISSING if some operand is MISSING; otherwise FALSE; the
    error is always nil. *)
Theorem Or_Apply_priority (args : list Value) :
  Apply args =
    (if existsb Truth args then TRUE_VALUE
     else if existsb is_null args then NULL_VALUE
     else if existsb is_missing args then MISSING_VALUE
     else FALSE_VALUE, None).
Proof. unfold Apply. by rewrite Apply_loop_spec. Qed.

Lemma FilterCovers_Or_cons (op0 : Expression) (rest : list Expression)
    (covers : Covers) :
  FilterCovers (Or (op0 :: rest)) covers =
    c ← FilterCovers op0 ∅;
    if decide (size c = 0%nat) then Some covers
    else FilterCovers_loop rest c covers.
Proof.
  simpl. destruct (FilterCovers op0 ∅) as [c|]; simpl; [|done].
  destruct (decide (size c = 0%nat)); [done|].
  clear n. revert c. induction rest as [|opi ops IH]; intros c; simpl; [done|].
  destruct (FilterCovers opi ∅) as [ci|]; simpl; [|done].
  destruct (decide (size ci = 0%nat)); [done|]. apply IH.
Qed.

Lemma agrees_empty (sv : string * Value) : agrees ∅ sv = false.
Proof. unfold agrees. by rewrite lookup_empty. Qed.

(** What the loop leaves of [c]: the entries every later operand agrees
    with. *)
Lemma FilterCovers_loop_spec (ops : list Expression) (cs : list Covers)
    (c covers : Covers) :
  operand_covers ops cs ->
  exists added : Covers,
    FilterCovers_loop ops c covers = Some (added ∪ covers) /\
    forall s v, added !! s = Some v <->
      c !! s = Some v /\ forall ci, ci ∈ cs -> agrees ci (s, v) = true.
Proof.
  intros Hcs. revert c.
  induction Hcs as [|opi ci ops cs Hci Hcs IH]; intros c; simpl.
  - exists c. split; [done|]. intros s v. split; [|tauto].
    intros Hs. split; [done|]. intros ci Hin. by apply elem_of_nil in Hin.
  - rewrite Hci. simpl. destruct (decide (size ci = 0%nat)) as [Hsz|Hsz].
    + exists ∅. split; [by rewrite (left_id_L ∅ (∪))|].
      apply map_size_empty_iff in Hsz. subst ci.
      intros s v. rewrite lookup_empty. split; [done|].
      intros [_ Hall]. specialize (Hall ∅ ltac:(left)).
      by rewrite agrees_empty in Hall.
    + destruct (IH (filter (fun sv => agrees ci sv = true) c))
        as (added & Hres & Hadded).
      exists added. split; [done|]. intros s v.
      rewrite Hadded, map_lookup_filter_Some. split.
      * intros [[Hc Hag] Hall]. split; [done|].
        intros cj [->|Hin]%elem_of_cons; auto.
      * intros [Hc Hall]. split; [split; [done|]|].
        -- apply Hall. left.
        -- intros cj Hin. apply Hall. by right.
Qed.

Lemma agrees_Some (ci : Covers) (s : string) (v : Value) :
  agrees ci (s, v) = true <->
  ci !! s = Some v /\ v <> MISSING_VALUE /\ v <> NULL_VALUE.
Proof.
  unfold agrees. simpl. destruct (ci !! s) as [vi|].
  - rewrite Equals_Truth. split.
    + by intros (-> & ? & ?).
    + intros (Heq & ? & ?). by inversion Heq.
  - split; [done|]. by intros [? _].
Qed.

Lemma all_agree_Some (c : Covers) (cs : list Covers) (s : string) (v : Value) :
  all_agree (c :: cs) s v <->
  v <> MISSING_VALUE /\ v <> NULL_VALUE /\ forall ci, ci ∈ c :: cs -> ci !! s = Some v.
Proof.
  unfold all_agree. split.
  - intros Hall. destruct (Hall c ltac:(left)) as (v0 & _ & H0).
    apply Equals_Truth in H0 as (-> & Hm & Hn).
    repeat split; try done. intros ci Hin.
    destruct (Hall ci Hin) as (vi & Hvi & Hi).
    apply Equals_Truth in Hi as (-> & _ & _). done.
  - intros (Hm & Hn & Hall) ci Hin. exists v. split; [by apply Hall|].
    by apply Equals_Truth.
Qed.

Lemma adds_intersection_two (op0 op1 : Expression) (rest : list Expression)
    (covers : Covers) :
  adds_intersection (op0 :: op1 :: rest) covers.
Proof.
  intros cs Hcs. inversion Hcs as [|? c0 ? cs' H0 Hrest]; subst.
  rewrite FilterCovers_Or_cons, H0. simpl.
  destruct (decide (size c0 = 0%nat)) as [Hsz|Hsz].
  - exists ∅. split; [by rewrite (left_id_L ∅ (∪))|].
    apply map_size_empty_iff in Hsz. subst c0. intros s v.
    rewrite lookup_empty, all_agree_Some. split; [done|].
    intros (_ & _ & Hall). specialize (Hall ∅ ltac:(left)).
    by rewrite lookup_empty in Hall.
  - destruct (FilterCovers_loop_spec _ _ c0 covers Hrest) as (added & Hres & Hadded).
    exists added. split; [done|]. intros s v.
    rewrite Hadded, all_agree_Some.
    inversion Hrest as [|? c1 ? cs'' H1 Hrest']; subst. split.
    + intros [Hc Hall].
      pose proof (Hall c1 ltac:(left)) as (_ & Hm & Hn)%agrees_Some.
      repeat split; try done.
      intros ci [->|Hin]%elem_of_cons; [done|].
      by apply Hall, agrees_Some in Hin as (? & _).
    + intros (Hm & Hn & Hall). split; [apply Hall; left|].
      intros ci Hin. apply agrees_Some. repeat split; try done.
      apply Hall. by right.
Qed.

Lemma FilterCovers_Or_single (op : Expression) (c covers : Covers) :
  FilterCovers op ∅ = Some c ->
  FilterCovers (Or [op]) covers = Some (c ∪ covers).
Proof.
  intros Hc. rewrite FilterCovers_Or_cons, Hc. simpl.
  destruct (decide (size c = 0%nat)) as [Hsz|Hsz]; [|done].
  apply map_size_empty_iff in Hsz. subst c. by rewrite (left_id_L ∅ (∪)).
Qed.

(** C2, as amended.  An OR of at least two operands adds to the supplied
    map exactly the intersection of its operands' covers under semantic
    equality: [s -> v] is added if and only if every operand's cover binds
    [s] to a value that compares Equals-true to [v].  An OR of one operand
    adds all the covers of that operand.  [OR(x=1, x=2)] adds no binding
    for [x], and [OR(x=1, x=1)] adds [x -> 1]. *)
Theorem Or_FilterCovers_intersection :
  (forall operands covers,
     (2 <= length operands)%nat -> adds_intersection operands covers) /\
  (forall op c covers,
     FilterCovers op ∅ = Some c ->
     FilterCovers (Or [op]) covers = Some (c ∪ covers)) /\
  (forall covers : Covers,
     exists r,
       FilterCovers (Or [Eq_const "x" (Number 1); Eq_const "x" (Number 2)]) covers
         = Some r /\
       r !! "x" = covers !! "x") /\
  (forall covers : Covers,
     exists r,
       FilterCovers (Or [Eq_const "x" (Number 1); Eq_const "x" (Number 1)]) covers
         = Some r /\
       r !! "x" = Some (Number 1)).
Proof.
  split; [|split; [|split]].
  - intros [|op0 [|op1 rest]] covers Hlen; simpl in Hlen; try lia.
    apply adds_intersection_two.
  - apply FilterCovers_Or_single.
  - intros covers.
    destruct (adds_intersection_two (Eq_const "x" (Number 1))
                (Eq_const "x" (Number 2)) [] covers
                [ {["x" := Number 1]}; {["x" := Number 2]} ])
      as (added & Hres & Hadded).
    { repeat constructor. }
    exists (added ∪ covers). split; [done|].
    rewrite lookup_union_r; [done|].
    destruct (added !! "x") as [v|] eqn:Hv; [|done].
    apply Hadded, all_agree_Some in Hv as (_ & _ & Hall).
    pose proof (Hall {["x" := Number 1]} ltac:(left)) as H1.
    pose proof (Hall {["x" := Number 2]} ltac:(right; left)) as H2.
    rewrite lookup_singleton_eq in H1, H2. congruence.
  - intros covers.
    destruct (adds_intersection_two (Eq_const "x" (Number 1))
                (Eq_const "x" (Number 1)) [] covers
                [ {["x" := Number 1]}; {["x" := Number 1]} ])
      as (added & Hres & Hadded).
    { repeat constructor. }
    exists (added ∪ covers). split; [done|].
    apply lookup_union_Some_l, Hadded, all_agree_Some.
    repeat split; try done.
    intros ci Hin. repeat apply elem_of_cons in Hin as [->|Hin];
      try apply lookup_singleton_eq. by apply elem_of_nil in Hin.
Qed.

(** The theorem at [OR(x=1, x=1)] and an empty map: the OR has two
    operands. *)
Lemma Or_FilterCovers_intersection_witness :
  (2 <= length [Eq_const "x" (Number 1); Eq_const "x" (Number 1)])%nat /\
  adds_intersection [Eq_const "x" (Number 1); Eq_const "x" (Number 1)] ∅.
Proof.
  split; [simpl; lia|].
  exact (proj1 Or_FilterCovers_intersection
           [Eq_const "x" (Number 1); Eq_const "x" (Number 1)] ∅
           ltac:(simpl; lia)).
Defined.

(** C2, as stated, fails on an OR with the single operand [x = NULL]: the
    binding [x -> NULL] is added although NULL does not compare
    Equals-true to NULL. *)
Lemma Or_FilterCovers_single_operand_counterexample :
  ~ adds_intersection [Eq_const "x" NULL_VALUE] ∅.
Proof.
  intros H.
  destruct (H [ {["x" := NULL_VALUE]} ]) as (added & Hres & Hadded).
  { repeat constructor. }
  rewrite (FilterCovers_Or_single _ {["x" := NULL_VALUE]}) in Hres by done.
  injection Hres as Hres. rewrite !(right_id_L ∅ (∪)) in Hres. subst added.
  assert (all_agree [ {["x" := NULL_VALUE]} ] "x" NULL_VALUE) as Habs.
  { apply Hadded, lookup_singleton_eq. }
  destruct (Habs {["x" := NULL_VALUE]} ltac:(left)) as (vi & Hvi & Ht).
  rewrite lookup_singleton_eq in Hvi. injection Hvi as <-. discriminate.
Qed.

(* --------------------------------------------------------------------- *)

(** The three tests of [Or.Apply] do not depend on the order of the
    operands. *)
Lemma existsb_Permutation {A : Type} (f : A -> bool) (l l' : list A) :
  l ≡ₚ l' -> existsb f l = existsb f l'.
Proof.
  induction 1 as [|x l l' _ IH|x y l|l l' l'' _ IH1 _ IH2]; simpl.
  - done.
  - by rewrite IH.
  - by rewrite !orb_assoc, (orb_comm (f y)).
  - by rewrite IH1.
Qed.

(** What [Or.Apply] returns is one of TRUE, NULL, MISSING and FALSE, and
    it stands for the operands it was computed from. *)
Lemma Apply_loop_result (ys : list Value) :
  let r := Apply_loop false false ys in
  Truth r = existsb Truth ys /\
  is_null r = negb (existsb Truth ys) && existsb is_null ys /\
  is_missing r =
    negb (existsb Truth ys) && negb (existsb is_null ys) &&
    existsb is_missing ys.
Proof.
  intros r. unfold r. rewrite Apply_loop_spec. simpl.
  destruct (existsb Truth ys); [done|].
  destruct (existsb is_null ys); [done|].
  by destruct (existsb is_missing ys).
Qed.

Lemma existsb_cons {A : Type} (f : A -> bool) (x : A) (l : list A) :
  existsb f (x :: l) = f x || existsb f l.
Proof. done. Qed.

(** X4.  [Or.Apply] does not depend on the order of its operands. *)
Theorem Or_Apply_permutation (args args' : list Value) :
  args ≡ₚ args' -> Apply args = Apply args'.
Proof.
  intros Hp. unfold Apply. rewrite !Apply_loop_spec. simpl.
  by rewrite (existsb_Permutation Truth _ _ Hp),
    (existsb_Permutation is_null _ _ Hp),
    (existsb_Permutation is_missing _ _ Hp).
Qed.

Lemma Or_Apply_permutation_witness :
  Apply [NULL_VALUE; MISSING_VALUE; TRUE_VALUE] =
  Apply [MISSING_VALUE; NULL_VALUE; TRUE_VALUE].
Proof.
  apply (Or_Apply_permutation [NULL_VALUE; MISSING_VALUE; TRUE_VALUE]
           [MISSING_VALUE; NULL_VALUE; TRUE_VALUE]).
  apply perm_swap.
Defined.

(** X5.  A nested OR can be flattened: an operand that is itself the
    result of [Or.Apply] on some operands can be replaced by these
    operands. *)
Theorem Or_Apply_flatten (xs ys zs : list Value) :
  Apply (xs ++ (Apply ys).1 :: zs) = Apply (xs ++ ys ++ zs).
Proof.
  unfold Apply. cbn [fst]. f_equal.
  destruct (Apply_loop_result ys) as (Ht & Hn & Hm). cbv zeta in *.
  generalize dependent (Apply_loop false false ys). intros r Ht Hn Hm.
  rewrite !Apply_loop_spec. cbn [orb].
  rewrite !existsb_app, !existsb_cons, Ht, Hn, Hm.
  destruct (existsb Truth xs); [done|]. simpl.
  destruct (existsb Truth ys); [done|]. simpl.
  destruct (existsb Truth zs); [done|].
  destruct (existsb is_null xs); [done|]. simpl.
  destruct (existsb is_null ys); [done|]. simpl.
  destruct (existsb is_null zs); [done|].
  destruct (existsb is_missing xs); [done|]. simpl.
  by destruct (existsb is_missing ys).
Qed.

(** The covers of permuted operands are the permuted covers. *)
Lemma operand_covers_Permutation (ops ops' : list Expression) (cs : list Covers) :
  operand_covers ops cs -> ops ≡ₚ ops' ->
  exists cs', operand_covers ops' cs' /\ cs ≡ₚ cs'.
Proof.
  intros Hcs Hp. revert cs Hcs.
  induction Hp as [|x l l' _ IH|x y l|l l' l'' _ IH1 _ IH2]; intros cs Hcs.
  - exists cs. by split.
  - inversion Hcs as [|? c ? cs0 Hc Hrest]; subst.
    destruct (IH cs0 Hrest) as (cs' & Hcs' & Hp').
    exists (c :: cs'). split; [by constructor|by constructor].
  - inversion Hcs as [|? cy ? cs0 Hy Hrest]; subst.
    inversion Hrest as [|? cx ? cs1 Hx Hrest']; subst.
    exists (cx :: cy :: cs1). split; [by repeat constructor|apply perm_swap].
  - destruct (IH1 cs Hcs) as (cs1 & Hcs1 & Hp1).
    destruct (IH2 cs1 Hcs1) as (cs2 & Hcs2 & Hp2).
    exists cs2. split; [done|by etrans].
Qed.

(** X6.  The covers of an OR do not depend on the order of its operands,
    when the [FilterCovers] of every operand returns. *)
Theorem Or_FilterCovers_operand_order (ops ops' : list Expression)
    (cs : list Covers) (covers : Covers) :
  operand_covers ops cs -> ops ≡ₚ ops' ->
  FilterCovers (Or ops) covers = FilterCovers (Or ops') covers.
Proof.
  intros Hcs Hp.
  destruct (operand_covers_Permutation ops ops' cs Hcs Hp) as (cs' & Hcs' & Hpc).
  destruct ops as [|op0 [|op1 rest]].
  - by apply Permutation_nil_l in Hp as ->.
  - by apply Permutation_singleton_l in Hp as ->.
  - destruct ops' as [|op0' [|op1' rest']];
      try (apply Permutation_length in Hp; simpl in Hp; lia).
    destruct (adds_intersection_two op0 op1 rest covers cs Hcs)
      as (added & -> & Hadded).
    destruct (adds_intersection_two op0' op1' rest' covers cs' Hcs')
      as (added' & -> & Hadded').
    do 2 f_equal. apply map_eq. intros s. apply option_eq. intros v.
    rewrite Hadded, Hadded'. unfold all_agree.
    by setoid_rewrite Hpc.
Qed.

Lemma Or_FilterCovers_operand_order_witness :
  FilterCovers (Or [Eq_const "x" (Number 1); Eq_const "y" (Number 2)]) ∅ =
  FilterCovers (Or [Eq_const "y" (Number 2); Eq_const "x" (Number 1)]) ∅.
Proof.
  apply (Or_FilterCovers_operand_order
           [Eq_const "x" (Number 1); Eq_const "y" (Number 2)]
           [Eq_const "y" (Number 2); Eq_const "x" (Number 1)]
           [ {["x" := Number 1]}; {["y" := Number 2]} ]).
  - repeat constructor.
  - apply perm_swap.
Defined.

End logic_or.


(* ===================================================================== *)
(** ** expression/base.go                                                 *)
(* ===================================================================== *)

Module expression.
Import value.

(** The dynamic type of an expression node ([reflect.TypeOf(this.expr)])
    together with the state the node keeps besides its operands: the name
    of an identifier, of a field, of a function. *)
Inductive Kind :=
| Constant
| Identifier (name : string)
| Field (name : string)
| And
| Or
| Not
| Eq
| Add
| Function (name : string).

(** [reflect.TypeOf(a) == reflect.TypeOf(b)]: the same Go type, whatever
    the state of the two nodes; every function is a type of its own. *)
Definition sameType (a b : Kind) : bool :=
  match a, b with
  | Constant, Constant => true
  | Identifier _, Identifier _ => true
  | Field _, Field _ => true
  | And, And => true
  | Or, Or => true
  | Not, Not => true
  | Eq, Eq => true
  | Add, Add => true
  | Function f, Function g => String.eqb f g
  | _, _ => false
  end.

(** The type of the field [value *value.Value] of [ExpressionBase], and
    of the result of [Value()], a [value.Value] that may be nil. *)
Abbreviation ValuePtr := (option (option value.Value)).
Abbreviation ValueOrNil := (option value.Value).

(** An expression node: [ExpressionBase] and the operands of the node.
    [value] is the field [this.value *value.Value]: [None] is the nil
    pointer (nothing computed yet), [Some None] is [&_NIL_VALUE] (computed:
    no constant value), [Some (Some v)] points to the constant [v].  A
    constant is created with its value set; a kind whose [Value()] always
    returns nil (an identifier) is a node created with [&_NIL_VALUE]. *)
Inductive Expression :=
| Expr (kind : Kind) (value : ValuePtr)
       (conditional volatile : bool) (children : list Expression).

Definition kind (e : Expression) : Kind :=
  match e with Expr k _ _ _ _ => k end.
Definition value (e : Expression) : ValuePtr :=
  match e with Expr _ v _ _ _ => v end.
Definition conditional (e : Expression) : bool :=
  match e with Expr _ _ c _ _ => c end.
Definition volatile (e : Expression) : bool :=
  match e with Expr _ _ _ v _ => v end.
Definition Children (e : Expression) : list Expression :=
  match e with Expr _ _ _ _ ch => ch end.

(** The outcome of [this.expr.Evaluate(item, context)]: a value with a nil
    error, an error, or a panic. *)
Inductive EvalResult :=
| Ok (v : value.Value)
| Err
| Panic.

(** [ExpressionBase.PropagatesMissing]. *)
Fixpoint PropagatesMissing (e : Expression) : bool :=
  match e with
  | Expr _ _ cond _ ch =>
      if cond then false
      else
        (fix all (ch : list Expression) : bool :=
           match ch with
           | [] => true
           | child :: rest =>
               if negb (PropagatesMissing child) then false else all rest
           end) ch
  end.

(** [ExpressionBase.PropagatesNull]. *)
Fixpoint PropagatesNull (e : Expression) : bool :=
  match e with
  | Expr _ _ cond _ ch =>
      if cond then false
      else
        (fix all (ch : list Expression) : bool :=
           match ch with
           | [] => true
           | child :: rest =>
               if negb (PropagatesNull child) then false else all rest
           end) ch
  end.

Definition isMISSING (v : value.Value) : bool :=
  match TypeOf v with MISSING => true | _ => false end.
Definition isNULL (v : value.Value) : bool :=
  match TypeOf v with NULL => true | _ => false end.

(** How the loop over the children of [Value()] ends: by the [return] on
    a MISSING child, or at the end of the children with [this.value] as
    the loop left it. *)
Inductive LoopExit :=
| Returned (cv : value.Value)
| Finished (value : ValuePtr).

Section Value.

(** [this.expr.Evaluate(nil, nil)], the evaluation of the node on no item
    and no context: the method of each kind, outside [ExpressionBase]. *)
Variable Evaluate : Expression -> EvalResult.

(** [ExpressionBase.Value]: the result, and the node with the caches the
    call has filled (its own and those of the children it visited). *)
Fixpoint Value (e : Expression) : ValueOrNil * Expression :=
  match e with
  | Expr k val cond vol ch =>
      match val with
      | Some v => (v, e)
      | None =>
          if vol then (None, Expr k (Some None) cond vol ch)
          else
            let propMissing := PropagatesMissing e in
            let propNull := PropagatesNull e in
            let '(exit, ch') :=
              (fix loop (ch : list Expression) (val : ValuePtr)
                 {struct ch} : LoopExit * list Expression :=
                 match ch with
                 | [] => (Finished val, [])
                 | child :: rest =>
                     let '(cv, child') := Value child in
                     match cv with
                     | None =>
                         let val' :=
                           match val with None => Some None | _ => val end in
                         let '(exit, rest') := loop rest val' in
                         (exit, child' :: rest')
                     | Some cv =>
                         if propMissing && isMISSING cv
                         then (Returned cv, child' :: rest)
                         else
                           let val' :=
                             if propNull && isNULL cv then Some (Some cv)
                             else val in
                           let '(exit, rest') := loop rest val' in
                           (exit, child' :: rest')
                     end
                 end) ch None in
            match exit with
            | Returned cv => (Some cv, Expr k (Some (Some cv)) cond vol ch')
            | Finished (Some v) => (v, Expr k (Some v) cond vol ch')
            | Finished None =>
                match Evaluate (Expr k None cond vol ch') with
                | Ok v => (Some v, Expr k (Some (Some v)) cond vol ch')
                | Err => (None, Expr k (Some None) cond vol ch')
                | Panic => (None, Expr k (Some None) cond vol ch')
                end
            end
      end
  end.

(** The loop of [Value()] over the children, named. *)
Fixpoint Value_loop (propMissing propNull : bool) (ch : list Expression)
    (val : ValuePtr) : LoopExit * list Expression :=
  match ch with
  | [] => (Finished val, [])
  | child :: rest =>
      let '(cv, child') := Value child in
      match cv with
      | None =>
          let val' := match val with None => Some None | _ => val end in
          let '(exit, rest') := Value_loop propMissing propNull rest val' in
          (exit, child' :: rest')
      | Some cv =>
          if propMissing && isMISSING cv
          then (Returned cv, child' :: rest)
          else
            let val' :=
              if propNull && isNULL cv then Some (Some cv) else val in
            let '(exit, rest') := Value_loop propMissing propNull rest val' in
            (exit, child' :: rest')
      end
  end.

(** What [e.Value()] returns. *)
Definition Value_of (e : Expression) : ValueOrNil := (Value e).1.

(** [ExpressionBase.valueEquivalentTo]. *)
Definition valueEquivalentTo (this other : Expression) : bool :=
  match Value_of this, Value_of other with
  | Some thisValue, Some otherValue => value.EquivalentTo thisValue otherValue
  | _, _ => false
  end.

(** [ExpressionBase.EquivalentTo]. *)
Fixpoint EquivalentTo (this other : Expression) {struct this} : bool :=
  if valueEquivalentTo this other then true
  else if negb (sameType (kind this) (kind other)) then false
  else
    match this with
    | Expr _ _ _ _ ours =>
        let theirs := Children other in
        if negb (length ours =? length theirs)%nat then false
        else
          (fix pairs (ours theirs : list Expression) {struct ours} : bool :=
             match ours, theirs with
             | child :: ours', their :: theirs' =>
                 if negb (EquivalentTo child their) then false
                 else pairs ours' theirs'
             | _, _ => true
             end) ours theirs
    end.

End Value.

(** An induction principle that reaches the children of a node. *)
Section Expression_ind.
Variable P : Expression -> Prop.
Hypothesis HExpr : forall k val cond vol ch,
  Forall P ch -> P (Expr k val cond vol ch).

Fixpoint Expression_deep_ind (e : Expression) : P e :=
  match e with
  | Expr k val cond vol ch =>
      HExpr k val cond vol ch
        ((fix go (l : list Expression) : Forall P l :=
            match l with
            | [] => Stdlib.Lists.List.Forall_nil P
            | x :: l' =>
                Stdlib.Lists.List.Forall_cons P x l' (Expression_deep_ind x) (go l')
            end) ch)
  end.
End Expression_ind.

(** *** Constructors of the nodes used below *)

(** [NewConstant(v)]: a constant is created with its value. *)
Definition NewConstant (v : value.Value) : Expression :=
  Expr Constant (Some (Some v)) false false [].

(** [NewIdentifier(name)]: [Identifier.Value()] returns nil. *)
Definition NewIdentifier (name : string) : Expression :=
  Expr (Identifier name) (Some None) false false [].

(** [NewField(first, NewFieldName(name))]: the field [name] of [first]. *)
Definition NewField (first : Expression) (name : string) : Expression :=
  Expr (Field name) None false false [first].

Definition NewAdd (operands : list Expression) : Expression :=
  Expr Add None false false operands.

Definition NewEq (first second : Expression) : Expression :=
  Expr Eq None false false [first; second].

(** [NewAnd] and [NewOr]: a commutative function over its operands; the
    constructor sets no flag. *)
Definition NewAnd (operands : list Expression) : Expression :=
  Expr And None false false operands.

Definition NewOr (operands : list Expression) : Expression :=
  Expr Or None false false operands.

(** *** Evaluation, from the contracts of the spec *)

(** The field [name] of a value: MISSING when the value is no object or
    has no such field. *)
Definition field_of (v : value.Value) (name : string) : value.Value :=
  match v with
  | Object fields =>
      match List.find (fun kv => String.eqb kv.1 name) fields with
      | Some kv => kv.2
      | None => MISSING_VALUE
      end
  | _ => MISSING_VALUE
  end.

(** Arithmetic on the operand values: MISSING if an operand is MISSING,
    else NULL if an operand is NULL or not a number, else the sum. *)
Fixpoint add_values (args : list value.Value) (null : bool) (sum : Z)
  : value.Value :=
  match args with
  | [] => if null then NULL_VALUE else Number sum
  | arg :: rest =>
      match arg with
      | MISSING_VALUE => MISSING_VALUE
      | Number n => add_values rest null (sum + n)
      | _ => add_values rest true sum
      end
  end.

(** AND, the dual of OR: FALSE if an operand is false, else NULL, else
    MISSING, else TRUE. *)
Fixpoint and_values (args : list value.Value) (missing null : bool)
  : value.Value :=
  match args with
  | [] =>
      if null then NULL_VALUE
      else if missing then MISSING_VALUE
      else TRUE_VALUE
  | arg :: rest =>
      match TypeOf arg with
      | NULL => and_values rest missing true
      | MISSING => and_values rest true null
      | _ => if Truth arg then and_values rest missing null else FALSE_VALUE
      end
  end.

(** Modelled from the spec: the [Evaluate] methods of the expression kinds
    are not part of the sources at hand (only [Or.Apply] is).  A constant
    evaluates to its value; an identifier and a field read the item
    (MISSING when absent); arithmetic and comparison propagate MISSING,
    then NULL; AND and OR follow the three-valued tables, OR through
    [Or.Apply].  [item] is [None] for the nil item of constant folding,
    where reading the item panics.  A function evaluates its operands in
    order and fails with the first that fails. *)
Fixpoint Evaluate (item : option value.Value) (e : Expression) : EvalResult :=
  match e with
  | Expr k val _ _ ch =>
      let operands :=
        (fix eval_all (ch : list Expression)
           : EvalResult + list value.Value :=
           match ch with
           | [] => inr []
           | child :: rest =>
               match Evaluate item child with
               | Ok v =>
                   match eval_all rest with
                   | inr vs => inr (v :: vs)
                   | inl r => inl r
                   end
               | r => inl r
               end
           end) ch in
      match k with
      | Constant =>
          match val with Some (Some v) => Ok v | _ => Err end
      | Identifier name =>
          match item with
          | Some it => Ok (field_of it name)
          | None => Panic
          end
      | Field name =>
          match operands with
          | inr [v] => Ok (field_of v name)
          | inr _ => Err
          | inl r => r
          end
      | Add =>
          match operands with
          | inr args => Ok (add_values args false 0)
          | inl r => r
          end
      | Eq =>
          match operands with
          | inr [a; b] => Ok (Equals a b)
          | inr _ => Err
          | inl r => r
          end
      | And =>
          match operands with
          | inr args => Ok (and_values args false false)
          | inl r => r
          end
      | Or =>
          match operands with
          | inr args => Ok (logic_or.Apply args).1
          | inl r => r
          end
      | Not | Function _ => Err
      end
  end.

(** *** The statements about [Value()] *)

(** The loop of [EquivalentTo] over the two lists of children. *)
Fixpoint pairwise (eq : Expression -> Expression -> bool)
    (ours theirs : list Expression) : bool :=
  match ours, theirs with
  | child :: ours', their :: theirs' =>
      if negb (eq child their) then false else pairwise eq ours' theirs'
  | _, _ => true
  end.




Section Value_facts.
Variable Ev : Expression -> EvalResult.

Lemma Value_unfold k cond vol ch :
  Value Ev (Expr k None cond vol ch) =
    if vol then (None, Expr k (Some None) cond vol ch)
    else
      let '(exit, ch') :=
        Value_loop Ev (PropagatesMissing (Expr k None cond vol ch))
          (PropagatesNull (Expr k None cond vol ch)) ch None in
      match exit with
      | Returned cv => (Some cv, Expr k (Some (Some cv)) cond vol ch')
      | Finished (Some v) => (v, Expr k (Some v) cond vol ch')
      | Finished None =>
          match Ev (Expr k None cond vol ch') with
          | Ok v => (Some v, Expr k (Some (Some v)) cond vol ch')
          | Err => (None, Expr k (Some None) cond vol ch')
          | Panic => (None, Expr k (Some None) cond vol ch')
          end
      end.
Proof.
  cbn [Value]. destruct vol; [done|].
  set (pm := PropagatesMissing _). set (pn := PropagatesNull _).
  match goal with
  | |- (let '(_, _) := ?f ch None in _) = _ =>
      assert (forall l val, f l val = Value_loop Ev pm pn l val) as Hloop
  end.
  { induction l as [|child rest IH]; intros val; [done|].
    cbn [Value_loop]. destruct (Value Ev child) as [[cv|] child'].
    - destruct (pm && isMISSING cv); [done|]. by rewrite IH.
    - by rewrite IH. }
  by rewrite Hloop.
Qed.

Lemma Value_cached (e : Expression) (v : ValueOrNil) :
  value e = Some v -> Value Ev e = (v, e).
Proof. destruct e as [k val cond vol ch]. simpl. by intros ->. Qed.

(** After the call the result is in the cache of the node. *)
Lemma Value_caches (e : Expression) :
  value (Value Ev e).2 = Some (Value_of Ev e).
Proof.
  unfold Value_of. destruct e as [k [v|] cond vol ch]; [done|].
  rewrite Value_unfold. destruct vol; [done|].
  destruct (Value_loop _ _ _ _ _) as [[cv|[v|]] ch']; cbn; try done.
  by destruct (Ev _).
Qed.



End Value_facts.

Section EquivalentTo_facts.
Variable Ev : Expression -> EvalResult.

Lemma EquivalentTo_unfold (this other : Expression) :
  EquivalentTo Ev this other =
    if valueEquivalentTo Ev this other then true
    else if negb (sameType (kind this) (kind other)) then false
    else if negb (length (Children this) =? length (Children other))%nat
         then false
         else pairwise (EquivalentTo Ev) (Children this) (Children other).
Proof.
  destruct this as [k val cond vol ours]. cbn [EquivalentTo Children kind].
  destruct (valueEquivalentTo _ _ _); [done|].
  destruct (negb (sameType _ _)); [done|].
  destruct (negb (_ =? _)%nat); [done|].
  generalize (Children other). induction ours as [|c ours IH]; intros [|t theirs];
    simpl; try done.
  destruct (negb _); [done|]. apply IH.
Qed.

Lemma sameType_refl (k : Kind) : sameType k k = true.
Proof. destruct k; simpl; try done; apply String.eqb_refl. Qed.

Lemma sameType_sym (a b : Kind) : sameType a b = sameType b a.
Proof. destruct a, b; simpl; try done. apply String.eqb_sym. Qed.

Lemma valueEquivalentTo_sym (a b : Expression) :
  valueEquivalentTo Ev a b = valueEquivalentTo Ev b a.
Proof.
  unfold valueEquivalentTo.
  destruct (Value_of Ev a), (Value_of Ev b); try done.
  apply value_eqb_sym.
Qed.

(** X1.  [EquivalentTo] is reflexive: every expression is equivalent to
    itself. *)
Lemma EquivalentTo_refl (e : Expression) : EquivalentTo Ev e e = true.
Proof.
  induction e as [k val cond vol ch IH] using Expression_deep_ind.
  rewrite EquivalentTo_unfold.
  destruct (valueEquivalentTo _ _ _); [done|].
  rewrite sameType_refl, Nat.eqb_refl. cbn [negb Children].
  induction IH as [|c ch Hc Hch IHch]; [done|].
  simpl. by rewrite Hc.
Qed.

(** X2.  [EquivalentTo] is symmetric: [e.EquivalentTo(e')] and
    [e'.EquivalentTo(e)] give the same answer. *)
Lemma EquivalentTo_sym (e e' : Expression) :
  EquivalentTo Ev e e' = EquivalentTo Ev e' e.
Proof.
  revert e'. induction e as [k val cond vol ch IH] using Expression_deep_ind.
  intros e'. rewrite (EquivalentTo_unfold (Expr _ _ _ _ _) e').
  rewrite (EquivalentTo_unfold e'). rewrite valueEquivalentTo_sym.
  destruct (valueEquivalentTo _ _ _); [done|].
  rewrite sameType_sym. destruct (negb (sameType _ _)); [done|].
  rewrite Nat.eqb_sym. destruct (negb (_ =? _)%nat); [done|].
  cbn [Children]. generalize (Children e').
  induction IH as [|c ch Hc Hch IHch]; intros [|t theirs]; simpl; try done.
  rewrite Hc. destruct (negb _); [done|]. apply IHch.
Qed.

End EquivalentTo_facts.

(** C4 at its failing input.  [x + NULL] has the constant value NULL by
    [Value()], so [EquivalentTo] holds between [x + NULL] and the constant
    NULL, in both directions; on an item without the field [x] the first
    evaluates to MISSING and the second to NULL. *)
Theorem EquivalentTo_false_positive :
  let E := NewAdd [NewIdentifier "x"; NewConstant NULL_VALUE] in
  let E' := NewConstant NULL_VALUE in
  let item := Some (Object []) in
  Value_of (Evaluate None) E = Some NULL_VALUE /\
  EquivalentTo (Evaluate None) E E' = true /\
  EquivalentTo (Evaluate None) E' E = true /\
  Evaluate item E = Ok MISSING_VALUE /\
  Evaluate item E' = Ok NULL_VALUE.
Proof. repeat split. Qed.




(* --------------------------------------------------------------------- *)

(** *** What [Value()] leaves of the tree, and [DependsOn] *)

(** [e'] is [e] with more caches filled: the same nodes, with the same
    flags; a cache that was set is as it was; and on every node [Value()]
    returns what it returned on the node of [e]. *)
Inductive fills_caches (Ev : Expression -> EvalResult)
  : Expression -> Expression -> Prop :=
| fills_caches_node k val val' cond vol ch ch' :
    Forall2 (fills_caches Ev) ch ch' ->
    (val = None \/ val' = val) ->
    Value_of Ev (Expr k val' cond vol ch') = Value_of Ev (Expr k val cond vol ch) ->
    fills_caches Ev (Expr k val cond vol ch) (Expr k val' cond vol ch').

(** Some node of the tree is conditional. *)
Fixpoint any_conditional (e : Expression) : bool :=
  match e with
  | Expr _ _ cond _ ch =>
      cond ||
      (fix any (ch : list Expression) : bool :=
         match ch with
         | [] => false
         | child :: rest => any_conditional child || any rest
         end) ch
  end.

Section DependsOn.
Variable Ev : Expression -> EvalResult.

(** [ExpressionBase.DependsOn], with [ExpressionBase.dependsOn] in its
    last line. *)
Fixpoint DependsOn (this other : Expression) {struct this} : bool :=
  match this with
  | Expr _ _ cond _ ch =>
      if cond || bool_decide (Value_of Ev other <> None) then false
      else
        if EquivalentTo Ev this other then true
        else
          (fix children (ch : list Expression) : bool :=
             match ch with
             | [] => false
             | child :: rest =>
                 if DependsOn child other then true else children rest
             end) ch
  end.

End DependsOn.

(** [d] is [e], or a node below [e], and neither [d] nor a node on the
    way from [e] to [d] is conditional. *)
Inductive reaches : Expression -> Expression -> Prop :=
| reaches_here e :
    conditional e = false -> reaches e e
| reaches_child e child d :
    conditional e = false -> child ∈ Children e -> reaches child d ->
    reaches e d.

Section DependsOn_facts.
Variable Ev : Expression -> EvalResult.

Lemma fills_caches_refl (e : Expression) : fills_caches Ev e e.
Proof.
  induction e as [k val cond vol ch IH] using Expression_deep_ind.
  constructor; [|by right|done].
  induction IH; by constructor.
Qed.

Lemma Value_of_cached (e : Expression) :
  Value_of Ev (Value Ev e).2 = Value_of Ev e.
Proof.
  unfold Value_of at 1.
  by rewrite (Value_cached Ev _ _ (Value_caches Ev e)).
Qed.

(** The children after the loop of [Value()]. *)
Lemma Value_loop_fills (pm pn : bool) (ch : list Expression) (val : ValuePtr) :
  Forall (fun child => fills_caches Ev child (Value Ev child).2) ch ->
  Forall2 (fills_caches Ev) ch (Value_loop Ev pm pn ch val).2.
Proof.
  intros Hch. revert val.
  induction Hch as [|child rest Hchild Hrest IH]; intros val; [constructor|].
  cbn [Value_loop].
  destruct (Value Ev child) as [[cv|] child'] eqn:Hv; simpl in Hchild.
  - destruct (pm && isMISSING cv).
    + constructor; [done|]. clear. induction rest; constructor;
        [apply fills_caches_refl|done].
    + specialize (IH (if pn && isNULL cv then Some (Some cv) else val)).
      destruct (Value_loop Ev pm pn rest _) as [exit rest'].
      by constructor.
  - specialize (IH (match val with None => Some None | _ => val end)).
    destruct (Value_loop Ev pm pn rest _) as [exit rest'].
    by constructor.
Qed.

(** X7.  [Value()] changes nothing but caches, and the caches it fills
    change no result: the tree after the call has the nodes of the tree
    before it, a cache that was set is left as it was, and on every node
    of the tree [Value()] returns after the call what it returned
    before. *)
Theorem Value_fills_caches (e : Expression) : fills_caches Ev e (Value Ev e).2.
Proof.
  induction e as [k val cond vol ch IH] using Expression_deep_ind.
  pose proof (Value_of_cached (Expr k val cond vol ch)) as Hsame.
  destruct val as [v|]; [apply fills_caches_refl|].
  rewrite Value_unfold in *. destruct vol.
  { constructor; [|by left|done]. clear. induction ch; constructor;
      [apply fills_caches_refl|done]. }
  pose proof (Value_loop_fills
                (PropagatesMissing (Expr k None cond false ch))
                (PropagatesNull (Expr k None cond false ch)) ch None IH) as Hch.
  destruct (Value_loop Ev _ _ ch None) as [[cv|[v|]] ch']; simpl in Hch.
  - by constructor; [|left|].
  - by constructor; [|left|].
  - destruct (Ev _); by constructor; [|left|].
Qed.

Lemma DependsOn_unfold (this other : Expression) :
  DependsOn Ev this other =
    if conditional this || bool_decide (Value_of Ev other <> None) then false
    else if EquivalentTo Ev this other then true
    else existsb (fun child => DependsOn Ev child other) (Children this).
Proof.
  destruct this as [k val cond vol ch]. cbn [DependsOn conditional Children].
  destruct (cond || _); [done|]. destruct (EquivalentTo _ _ _); [done|].
  induction ch as [|child rest IH]; [done|].
  simpl. by destruct (DependsOn Ev child other).
Qed.

(** X8.  [DependsOn] finds the expressions equivalent to a part of the
    receiver: [this.DependsOn(other)] is true exactly when [other] has no
    constant value and is equivalent to [this] or to a node below it that
    is reached through nodes that are not conditional. *)
Theorem DependsOn_reaches (this other : Expression) :
  DependsOn Ev this other = true <->
  Value_of Ev other = None /\
  exists d, reaches this d /\ EquivalentTo Ev d other = true.
Proof.
  induction this as [k val cond vol ch IH] using Expression_deep_ind.
  rewrite DependsOn_unfold. cbn [conditional Children].
  destruct cond.
  { cbn [orb]. split; [done|]. intros (_ & d & Hr & _).
    inversion Hr; simplify_eq/=. }
  cbn [orb]. destruct (Value_of Ev other) as [v|] eqn:Hv.
  { rewrite bool_decide_eq_true_2 by done. split; [done|]. by intros [? _]. }
  rewrite bool_decide_eq_false_2 by (intros H; by apply H).
  destruct (EquivalentTo Ev (Expr k val false vol ch) other) eqn:Heq.
  { split; [|done]. intros _. split; [done|].
    eexists. split; [by apply reaches_here|done]. }
  rewrite existsb_exists. split.
  - intros (child & Hin & Hdep). apply list_elem_of_In in Hin.
    rewrite Forall_forall in IH.
    apply (IH child Hin) in Hdep as (_ & d & Hr & Hd).
    split; [done|]. exists d. split; [|done].
    by eapply reaches_child.
  - intros (_ & d & Hr & Hd). inversion Hr as [|? child ? _ Hin Hr']; subst.
    { by rewrite Hd in Heq. }
    simpl in Hin. exists child. split; [by apply list_elem_of_In|].
    rewrite Forall_forall in IH. apply (IH child Hin). eauto.
Qed.

(** X9.  An expression depends on itself unless it is conditional or has
    a constant value; on a constant nothing depends. *)
Theorem DependsOn_self (e : Expression) :
  DependsOn Ev e e = negb (conditional e) && bool_decide (Value_of Ev e = None).
Proof.
  rewrite DependsOn_unfold, (EquivalentTo_refl Ev e).
  destruct (conditional e); [done|]. simpl.
  destruct (Value_of Ev e) as [v|].
  - rewrite bool_decide_eq_true_2 by done. by rewrite bool_decide_eq_false_2.
  - rewrite bool_decide_eq_false_2 by (intros H; by apply H).
    by rewrite bool_decide_eq_true_2.
Qed.

Lemma any_conditional_unfold (e : Expression) :
  any_conditional e = conditional e || existsb any_conditional (Children e).
Proof.
  destruct e as [k val cond vol ch]. cbn [any_conditional conditional Children].
  done.
Qed.

End DependsOn_facts.

Lemma PropagatesMissing_unfold (e : Expression) :
  PropagatesMissing e =
    negb (conditional e) && forallb PropagatesMissing (Children e).
Proof.
  destruct e as [k val cond vol ch]. cbn [PropagatesMissing conditional Children].
  destruct cond; [done|]. simpl.
  induction ch as [|c ch IH]; [done|]. simpl. rewrite <- IH.
  by destruct (PropagatesMissing c).
Qed.

Lemma PropagatesNull_unfold (e : Expression) :
  PropagatesNull e =
    negb (conditional e) && forallb PropagatesNull (Children e).
Proof.
  destruct e as [k val cond vol ch]. cbn [PropagatesNull conditional Children].
  destruct cond; [done|]. simpl.
  induction ch as [|c ch IH]; [done|]. simpl. rewrite <- IH.
  by destruct (PropagatesNull c).
Qed.

(** X10.  [PropagatesMissing] and [PropagatesNull] of [ExpressionBase]
    give the same answer: true exactly when no node of the tree is
    conditional. *)
Theorem Propagates_unconditional (e : Expression) :
  PropagatesMissing e = negb (any_conditional e) /\
  PropagatesNull e = negb (any_conditional e).
Proof.
  induction e as [k val cond vol ch IH] using Expression_deep_ind.
  rewrite PropagatesMissing_unfold, PropagatesNull_unfold,
    any_conditional_unfold.
  cbn [conditional Children]. destruct cond; [done|]. simpl.
  induction IH as [|c ch [Hm Hn] Hch [IHm IHn]]; [done|].
  simpl. rewrite Hm, Hn, IHm, IHn. by destruct (any_conditional c).
Qed.

End expression.


(* ===================================================================== *)
(** ** planner: the expression classifier                                 *)
(* ===================================================================== *)

Module planner.
Import value expression.

Definition error := string.

(** The outcome of a classifier method: it returns, it returns an error,
    or the recursion allowance of the model is used up. *)
Inductive Result (A : Type) :=
| Done (a : A)
| Failed (err : error)
| OutOfFuel.
Arguments Done {A} a.
Arguments Failed {A} err.
Arguments OutOfFuel {A}.

Definition bind {A B : Type} (r : Result A) (f : A -> Result B) : Result B :=
  match r with
  | Done a => f a
  | Failed err => Failed err
  | OutOfFuel => OutOfFuel
  end.

(** A loop whose body can fail: the state is threaded through the
    elements in order, and the first failure ends the loop. *)
Fixpoint foldM {S A : Type} (f : S -> A -> Result S) (s : S) (l : list A)
  : Result S :=
  match l with
  | [] => Done s
  | a :: rest => bind (f s a) (fun s' => foldM f s' rest)
  end.

(** A filter of a base keyspace, [newFilter(fltrExpr, origExpr, keyspaces,
    isOnclause, isJoin)]; [origExpr] may be nil. *)
Record Filter := newFilter {
  fltrExpr : Expression;
  origExpr : option Expression;
  fl_keyspaces : gset string;
  fl_isOnclause : bool;
  isJoin : bool
}.

(** A base keyspace: its name, whether its plan is done ([PlanDone()]),
    and the two lists of filters. *)
Record baseKeyspace := mkBaseKeyspace {
  name : string;
  plandone : bool;
  filters : list Filter;
  joinfilters : list Filter
}.

Abbreviation Table := (gmap string baseKeyspace).

(** [baseKspace.filters = append(baseKspace.filters, filter)]. *)
Definition append_filter (fl : Filter) (ks : baseKeyspace) : baseKeyspace :=
  mkBaseKeyspace (name ks) (plandone ks) (filters ks ++ [fl]) (joinfilters ks).

(** [baseKspace.joinfilters = append(baseKspace.joinfilters, filter)]. *)
Definition append_joinfilter (fl : Filter) (ks : baseKeyspace) : baseKeyspace :=
  mkBaseKeyspace (name ks) (plandone ks) (filters ks) (joinfilters ks ++ [fl]).

(** [type exprClassifier struct]. *)
Record exprClassifier := mkExprClassifier {
  baseKeyspaces : Table;
  keyspaceNames : gset string;
  recursion : bool;
  recurseExpr : option Expression;
  recursionJoin : bool;
  recurseJoinExpr : option Expression;
  isOnclause : bool
}.

Definition set_baseKeyspaces (t : Table) (c : exprClassifier) : exprClassifier :=
  mkExprClassifier t (keyspaceNames c) (recursion c) (recurseExpr c)
    (recursionJoin c) (recurseJoinExpr c) (isOnclause c).
Definition set_recursion (b : bool) (c : exprClassifier) : exprClassifier :=
  mkExprClassifier (baseKeyspaces c) (keyspaceNames c) b (recurseExpr c)
    (recursionJoin c) (recurseJoinExpr c) (isOnclause c).
Definition set_recurseExpr (e : option Expression) (c : exprClassifier)
  : exprClassifier :=
  mkExprClassifier (baseKeyspaces c) (keyspaceNames c) (recursion c) e
    (recursionJoin c) (recurseJoinExpr c) (isOnclause c).
Definition set_recursionJoin (b : bool) (c : exprClassifier) : exprClassifier :=
  mkExprClassifier (baseKeyspaces c) (keyspaceNames c) (recursion c)
    (recurseExpr c) b (recurseJoinExpr c) (isOnclause c).
Definition set_recurseJoinExpr (e : option Expression) (c : exprClassifier)
  : exprClassifier :=
  mkExprClassifier (baseKeyspaces c) (keyspaceNames c) (recursion c)
    (recurseExpr c) (recursionJoin c) e (isOnclause c).

(** [newExprClassifier]: the names are those of the keyspaces of the
    table. *)
Definition newExprClassifier (baseKeyspaces : Table) (isOnclause : bool)
  : exprClassifier :=
  mkExprClassifier baseKeyspaces
    (list_to_set ((fun kv => name kv.2) <$> map_to_list baseKeyspaces))
    false None false None isOnclause.

Definition isAnd (e : Expression) : bool :=
  match kind e with And => true | _ => false end.
Definition isOr (e : Expression) : bool :=
  match kind e with Or => true | _ => false end.

(** [baseKspace, ok := this.baseKeyspaces[kspace]; ok && baseKspace.PlanDone()]. *)
Definition planDone (t : Table) (kspace : string) : bool :=
  match t !! kspace with
  | Some baseKspace => plandone baseKspace
  | None => false
  end.

(** The keyspaces of a conjunct that are left on the ON-clause path:
    those whose plan is done are deleted. *)
Definition remaining (this : exprClassifier) (keyspaces : gset string)
  : gset string :=
  if isOnclause this
  then filter (fun kspace => planDone (baseKeyspaces this) kspace = false) keyspaces
  else keyspaces.

(** What [extractExpr] returns besides the error: [None] when the three
    results are nil, nil and false. *)
Abbreviation Extracted := (option (Expression * Expression * bool)).

(** The body of the loop of [visitDefault] over the keyspaces of the
    conjunct; [extract] is [this.extractExpr]. *)
Definition visitDefault_keyspace
    (extract : exprClassifier -> Expression -> string -> Result Extracted)
    (dnfExpr : Expression) (origExpr : option Expression)
    (keyspaces : gset string) (isJoin : bool)
    (this : exprClassifier) (kspace : string) : Result exprClassifier :=
  match baseKeyspaces this !! kspace with
  | Some baseKspace =>
      let filter := newFilter dnfExpr origExpr keyspaces (isOnclause this) isJoin in
      if decide (size keyspaces = 1%nat) then
        Done (set_baseKeyspaces
                (<[kspace := append_filter filter baseKspace]> (baseKeyspaces this))
                this)
      else
        let baseKspace1 := append_joinfilter filter baseKspace in
        let this1 :=
          set_baseKeyspaces (<[kspace := baseKspace1]> (baseKeyspaces this)) this in
        if isOr dnfExpr then
          bind (extract this1 dnfExpr (name baseKspace1))
            (fun extracted =>
               match extracted with
               | Some (newPred, newOrigPred, orIsJoin) =>
                   let newKeyspaces : gset string := {[ name baseKspace1 ]} in
                   let newFilter :=
                     newFilter newPred (Some newOrigPred) newKeyspaces
                       (isOnclause this) orIsJoin in
                   Done (set_baseKeyspaces
                           (<[kspace := append_filter newFilter baseKspace1]>
                              (baseKeyspaces this1))
                           this1)
               | None => Done this1
               end)
        else Done this1
  | None =>
      Failed ("exprClassifier.visitDefault: missing keyspace " +:+ kspace)
  end.

(** The loop of [extractExpr] over the filters of the keyspace in the
    classified copy: the filters are joined by AND, and so are their
    original expressions where they have one. *)
Fixpoint collect (fls : list Filter) (newTerm newOrigTerm : option Expression)
    (isJoin_ : bool) : option Expression * option Expression * bool :=
  match fls with
  | [] => (newTerm, newOrigTerm, isJoin_)
  | fl :: rest =>
      let newTerm' :=
        match newTerm with
        | None => fltrExpr fl
        | Some t => NewAnd [t; fltrExpr fl]
        end in
      let newOrigTerm' :=
        match origExpr fl with
        | Some o =>
            match newOrigTerm with
            | None => Some o
            | Some t => Some (NewAnd [t; o])
            end
        | None => newOrigTerm
        end in
      collect rest (Some newTerm') newOrigTerm' (isJoin_ || isJoin fl)
  end.

Section classifier.

(** [this.expr.Evaluate(nil, nil)], for [expr.Value()]. *)
Variable Ev : Expression -> EvalResult.
(** [expression.CountKeySpaces(expr, keyspaceNames)]. *)
Variable CountKeySpaces : Expression -> gset string -> error + gset string.
(** [NewDNF(expr.Copy(), true, false).Map]: the transformation of the
    expression, without DNF. *)
Variable dnfMap : Expression -> error + Expression.
(** [flattenOr(or)]: the flattened OR (or nil) and whether a term is true. *)
Variable flattenOr : Expression -> option Expression * bool.
(** [copyBaseKeyspaces(this.baseKeyspaces)]. *)
Variable copyBaseKeyspaces : Table -> Table.

(** [cpred := expr.Value(); cpred != nil && cpred.Truth()]. *)
Definition constantTrue (expr : Expression) : bool :=
  match Value_of Ev expr with
  | Some cpred => Truth cpred
  | None => false
  end.

(** The classifier.  [fuel] bounds the depth of the calls between the
    four methods. *)
Fixpoint VisitAnd (fuel : nat) (this : exprClassifier)
    (operands : list Expression) {struct fuel} : Result exprClassifier :=
  match fuel with
  | O => OutOfFuel
  | S fuel =>
      foldM (fun this op =>
               if isAnd op then VisitAnd fuel this (Children op)
               else visitDefault fuel this op)
            this operands
  end
with visitDefault (fuel : nat) (this : exprClassifier) (expr : Expression)
    {struct fuel} : Result exprClassifier :=
  match fuel with
  | O => OutOfFuel
  | S fuel =>
      if constantTrue expr then Done this
      else
        match CountKeySpaces expr (keyspaceNames this) with
        | inl err => Failed err
        | inr keyspaces =>
            if decide (size keyspaces < 1)%nat then Done this
            else
              match dnfMap expr with
              | inl err => Failed err
              | inr dnfExpr =>
                  if isAnd dnfExpr then
                    if decide (size keyspaces = 1%nat) then
                      let recursion0 := recursion this in
                      let this1 :=
                        set_recurseExpr
                          (match recurseExpr this with
                           | None => Some expr
                           | r => r
                           end)
                          (set_recursion true this) in
                      bind (VisitAnd fuel this1 (Children dnfExpr))
                        (fun this2 => Done (set_recursion recursion0 this2))
                    else
                      let recursionJoin0 := recursionJoin this in
                      let this1 :=
                        set_recurseJoinExpr
                          (match recurseJoinExpr this with
                           | None => Some expr
                           | r => r
                           end)
                          (set_recursionJoin true this) in
                      bind (VisitAnd fuel this1 (Children dnfExpr))
                        (fun this2 => Done (set_recursionJoin recursionJoin0 this2))
                  else
                    let '(origExpr, this1) :=
                      if decide (size keyspaces = 1%nat) then
                        if recursion this then
                          match recurseExpr this with
                          | Some r => (Some r, set_recurseExpr None this)
                          | None => (None, this)
                          end
                        else (Some expr, this)
                      else
                        if recursionJoin this then
                          match recurseJoinExpr this with
                          | Some r => (Some r, set_recurseJoinExpr None this)
                          | None => (None, this)
                          end
                        else (Some expr, this) in
                    let isJoin := bool_decide (1 < size keyspaces)%nat in
                    let keyspaces' := remaining this1 keyspaces in
                    foldM (visitDefault_keyspace (extractExpr fuel) dnfExpr
                             origExpr keyspaces' isJoin)
                          this1 (elements keyspaces')
              end
        end
  end
with extractExpr (fuel : nat) (this : exprClassifier) (or : Expression)
    (keyspaceName : string) {struct fuel} : Result Extracted :=
  match fuel with
  | O => OutOfFuel
  | S fuel =>
      match flattenOr or with
      | (None, _) => Done None
      | (Some orTerms, truth) =>
          if truth then Done None
          else
            (fix loop (ops : list Expression)
                 (newTerms newOrigTerms : list Expression) (isJoin_ : bool)
                 {struct ops} : Result Extracted :=
               match ops with
               | [] => Done (Some (NewOr newTerms, NewOr newOrigTerms, isJoin_))
               | op :: rest =>
                   bind (ClassifyExpr fuel op
                           (copyBaseKeyspaces (baseKeyspaces this))
                           (isOnclause this))
                     (fun baseKeyspaces' =>
                        let '(newTerm, newOrigTerm, isJoin') :=
                          match baseKeyspaces' !! keyspaceName with
                          | Some kspace =>
                              collect (filters kspace) None None isJoin_
                          | None => (None, None, isJoin_)
                          end in
                        match newTerm with
                        | Some t =>
                            loop rest (newTerms ++ [t])
                              (match newOrigTerm with
                               | Some o => newOrigTerms ++ [o]
                               | None => newOrigTerms
                               end)
                              isJoin'
                        | None => Done None
                        end)
               end) (Children orTerms) [] [] false
      end
  end
with ClassifyExpr (fuel : nat) (expr : Expression) (baseKeyspaces0 : Table)
    (isOnclause0 : bool) {struct fuel} : Result Table :=
  match fuel with
  | O => OutOfFuel
  | S fuel =>
      if decide (size baseKeyspaces0 = 0%nat) then
        Failed "ClassifyExpr: invalid argument baseKeyspaces"
      else
        let classifier := newExprClassifier baseKeyspaces0 isOnclause0 in
        bind (if isAnd expr then VisitAnd fuel classifier (Children expr)
              else visitDefault fuel classifier expr)
          (fun classifier' => Done (baseKeyspaces classifier'))
  end.

End classifier.

(** *** The absent helpers, from the spec *)

(** Modelled from the spec: [expression.CountKeySpaces] is not part of
    the sources at hand; "keyspaces(P) = set of base keyspaces mentioned
    by free identifiers". *)
Fixpoint CountKeySpaces (expr : Expression) (keyspaceNames : gset string)
  : error + gset string :=
  match expr with
  | Expr k _ _ _ ch =>
      let below :=
        (fix go (ch : list Expression) : error + gset string :=
           match ch with
           | [] => inr ∅
           | child :: rest =>
               match CountKeySpaces child keyspaceNames, go rest with
               | inr a, inr b => inr (a ∪ b)
               | inl err, _ => inl err
               | _, inl err => inl err
               end
           end) ch in
      match k with
      | Identifier ident =>
          if decide (ident ∈ keyspaceNames) then inr {[ ident ]} else inr ∅
      | _ => below
      end
  end.

(** Modelled from the spec: the transformation of [NewDNF(..).Map] is not
    part of the sources at hand; on a comparison of fields or an OR of
    such comparisons there is nothing to fold or to rewrite, and the
    expression comes back as it is. *)
Definition dnfMap_plain (expr : Expression) : error + Expression := inr expr.

(** Modelled from the spec: [flattenOr] is not part of the sources at
    hand; an OR without nested ORs and without a true term is returned as
    it is. *)
Definition flattenOr_plain (or : Expression) : option Expression * bool :=
  (Some or, false).

(** The name and the plan-done mark of a keyspace. *)
Definition shape (ks : baseKeyspace) : string * bool := (name ks, plandone ks).

(** Modelled from the spec: [copyBaseKeyspaces] is not part of the sources
    at hand; the disjuncts are classified "against copies of the
    base-keyspace table": a table of the same keyspaces, by name, with
    their plan-done marks and no filters yet. *)
Definition copyBaseKeyspaces_fresh (src : Table) : Table :=
  list_to_map
    ((fun kv : string * (string * bool) =>
        (kv.2.1, mkBaseKeyspace kv.2.1 kv.2.2 [] []))
       <$> map_to_list (shape <$> src)).

(** *** What the statements count *)

(** The sum of a measure over the keyspaces of the table. *)
Definition total (f : baseKeyspace -> nat) (t : Table) : nat :=
  map_fold (fun _ ks acc => (f ks + acc)%nat) 0%nat t.

Definition total_filters (t : Table) : nat :=
  total (fun ks => length (filters ks)) t.
Definition total_joinfilters (t : Table) : nat :=
  total (fun ks => length (joinfilters ks)) t.

(** The conjuncts of a predicate: the operands of its ANDs, nested ANDs
    flattened, as [VisitAnd] walks them. *)
Fixpoint conjuncts (expr : Expression) : list Expression :=
  match expr with
  | Expr k _ _ _ ch =>
      match k with
      | And =>
          (fix go (ch : list Expression) : list Expression :=
             match ch with
             | [] => []
             | child :: rest => conjuncts child ++ go rest
             end) ch
      | _ => [expr]
      end
  end.

(** The AND-arity of a predicate. *)
Definition and_arity (expr : Expression) : nat := length (conjuncts expr).

(** The depth of the nesting of ANDs. *)
Fixpoint and_depth (expr : Expression) : nat :=
  match expr with
  | Expr k _ _ _ ch =>
      match k with
      | And =>
          S ((fix go (ch : list Expression) : nat :=
                match ch with
                | [] => O
                | child :: rest => Nat.max (and_depth child) (go rest)
                end) ch)
      | _ => 1%nat
      end
  end.

(** The entry of a keyspace after the loop body of [visitDefault]: the
    filter [fl] goes to [filters] when the conjunct is left with a single
    keyspace, and to [joinfilters] otherwise, followed in [filters] by the
    filter of the extracted OR when there is one. *)
Definition entry_after (single : bool) (fl : Filter) (extracted : Extracted)
    (onclause : bool) (ks : baseKeyspace) : baseKeyspace :=
  if single then append_filter fl ks
  else
    match extracted with
    | Some (newPred, newOrigPred, orIsJoin) =>
        append_filter
          (newFilter newPred (Some newOrigPred) {[ name ks ]} onclause orIsJoin)
          (append_joinfilter fl ks)
    | None => append_joinfilter fl ks
    end.

(** The fragment of one classified disjunct for the keyspace
    [keyspaceName]: its filters joined by AND, the original expressions
    joined by AND, and whether one of the filters is a join filter. *)
Definition fragment (keyspaceName : string) (t : Table)
  : option (Expression * option Expression * bool) :=
  match t !! keyspaceName with
  | Some kspace =>
      match collect (filters kspace) None None false with
      | (Some term, orig, j) => Some (term, orig, j)
      | (None, _, _) => None
      end
  | None => None
  end.

(** The OR of the fragments, when every disjunct has one. *)
Definition rewrap (frags : list (option (Expression * option Expression * bool)))
  : Extracted :=
  match mapM id frags with
  | Some fs =>
      Some (NewOr (fs.*1.*1), NewOr (omap id (fs.*1.*2)),
            existsb id (fs.*2))
  | None => None
  end.

(** The number of conjuncts of a predicate that are constant true. *)
Definition count_true (Ev : Expression -> EvalResult) (expr : Expression) : nat :=
  length (List.filter (constantTrue Ev) (conjuncts expr)).

(** [expr.Accept(classifier)]: an AND goes to [VisitAnd], every other kind
    to [visitDefault]. *)
Definition Accept (Ev : Expression -> EvalResult)
    (CountKS : Expression -> gset string -> error + gset string)
    (dnf : Expression -> error + Expression)
    (flat : Expression -> option Expression * bool)
    (copy : Table -> Table)
    (fuel : nat) (this : exprClassifier) (expr : Expression)
  : Result exprClassifier :=
  if isAnd expr then VisitAnd Ev CountKS dnf flat copy fuel this (Children expr)
  else visitDefault Ev CountKS dnf flat copy fuel this expr.

(** A conjunct that is constant true, or that mentions exactly one base
    keyspace, of the table and, in an ON clause, with its plan not done,
    and whose transformation is not an AND. *)
Definition single_keyspace_conjunct (Ev : Expression -> EvalResult)
    (CountKS : Expression -> gset string -> error + gset string)
    (dnf : Expression -> error + Expression)
    (names : gset string) (t : Table) (onclause : bool) (P : Expression)
  : Prop :=
  constantTrue Ev P = true \/
  exists k d,
    CountKS P names = inr {[ k ]} /\ dnf P = inr d /\ isAnd d = false /\
    is_Some (t !! k) /\ (onclause = true -> planDone t k = false).

(** Two tables of the same keyspaces, with the same names and plan-done
    marks: they differ in the filters only. *)
Definition same_keyspaces (t t' : Table) : Prop :=
  forall k, shape <$> t' !! k = shape <$> t !! k.

(** The loop of [extractExpr] over the disjuncts, named; [classify] is
    the classification of a disjunct against a copy of the table. *)
Definition extract_loop (classify : Expression -> Result Table)
    (keyspaceName : string)
  : list Expression -> list Expression -> list Expression -> bool ->
    Result Extracted :=
  fix loop (ops : list Expression) (newTerms newOrigTerms : list Expression)
      (isJoin_ : bool) {struct ops} : Result Extracted :=
    match ops with
    | [] => Done (Some (NewOr newTerms, NewOr newOrigTerms, isJoin_))
    | op :: rest =>
        bind (classify op)
          (fun baseKeyspaces' =>
             let '(newTerm, newOrigTerm, isJoin') :=
               match baseKeyspaces' !! keyspaceName with
               | Some kspace => collect (filters kspace) None None isJoin_
               | None => (None, None, isJoin_)
               end in
             match newTerm with
             | Some t =>
                 loop rest (newTerms ++ [t])
                   (match newOrigTerm with
                    | Some o => newOrigTerms ++ [o]
                    | None => newOrigTerms
                    end)
                   isJoin'
             | None => Done None
             end)
    end.

(** The claim that the filters recorded by [ClassifyExpr], on a table
    without filters, are as many as the AND-arity of the predicate less
    its constant-true conjuncts. *)
Definition filters_total_is_arity (Ev : Expression -> EvalResult)
    (CountKS : Expression -> gset string -> error + gset string)
    (dnf : Expression -> error + Expression)
    (flat : Expression -> option Expression * bool)
    (copy : Table -> Table)
    (fuel : nat) (expr : Expression) (t : Table) (onclause : bool) : Prop :=
  exists t',
    ClassifyExpr Ev CountKS dnf flat copy fuel expr t onclause = Done t' /\
    total_filters t' = (and_arity expr - count_true Ev expr)%nat.

(** The claim that a conjunct is recorded by the number of keyspaces it
    mentions: in the [filters] of the keyspace when there is one, in the
    [joinfilters] of each when there are several. *)
Definition recorded_by_keyspaces (Ev : Expression -> EvalResult)
    (CountKS : Expression -> gset string -> error + gset string)
    (dnf : Expression -> error + Expression)
    (flat : Expression -> option Expression * bool)
    (copy : Table -> Table)
    (fuel : nat) (this : exprClassifier) (expr : Expression) : Prop :=
  forall keyspaces,
    CountKS expr (keyspaceNames this) = inr keyspaces ->
    exists this',
      visitDefault Ev CountKS dnf flat copy fuel this expr = Done this' /\
      (size keyspaces = 1%nat ->
       forall k, k ∈ keyspaces ->
         exists ks ks' fl,
           baseKeyspaces this !! k = Some ks /\
           baseKeyspaces this' !! k = Some ks' /\
           filters ks' = filters ks ++ [fl]) /\
      ((1 < size keyspaces)%nat ->
       (forall k, k ∈ keyspaces ->
          exists ks ks' fl,
            baseKeyspaces this !! k = Some ks /\
            baseKeyspaces this' !! k = Some ks' /\
            joinfilters ks' = joinfilters ks ++ [fl]) /\
       total_joinfilters (baseKeyspaces this') =
         (total_joinfilters (baseKeyspaces this) + size keyspaces)%nat).

(** The claim that an OR conjunct of several keyspaces gets, for each
    keyspace it mentions for which [extractExpr] finds a predicate, that
    predicate as a filter of the keyspace besides the join filter. *)
Definition extracted_for_each_keyspace (Ev : Expression -> EvalResult)
    (CountKS : Expression -> gset string -> error + gset string)
    (dnf : Expression -> error + Expression)
    (flat : Expression -> option Expression * bool)
    (copy : Table -> Table)
    (fuel : nat) (this : exprClassifier) (expr : Expression) : Prop :=
  forall keyspaces,
    CountKS expr (keyspaceNames this) = inr keyspaces ->
    (1 < size keyspaces)%nat ->
    exists this',
      visitDefault Ev CountKS dnf flat copy (S fuel) this expr = Done this' /\
      forall k ks newPred newOrigPred orIsJoin,
        k ∈ keyspaces ->
        baseKeyspaces this !! k = Some ks ->
        extractExpr Ev CountKS dnf flat copy fuel this expr (name ks)
          = Done (Some (newPred, newOrigPred, orIsJoin)) ->
        exists ks' jf fl,
          baseKeyspaces this' !! k = Some ks' /\
          joinfilters ks' = joinfilters ks ++ [jf] /\
          filters ks' = filters ks ++ [fl] /\
          fltrExpr fl = newPred.

(** *** The classifier on the helpers above, and example inputs *)

Definition visitDefault_plain :=
  visitDefault (Evaluate None) CountKeySpaces dnfMap_plain flattenOr_plain
    copyBaseKeyspaces_fresh.
Definition extractExpr_plain :=
  extractExpr (Evaluate None) CountKeySpaces dnfMap_plain flattenOr_plain
    copyBaseKeyspaces_fresh.
Definition ClassifyExpr_plain :=
  ClassifyExpr (Evaluate None) CountKeySpaces dnfMap_plain flattenOr_plain
    copyBaseKeyspaces_fresh.

(** The table of the keyspaces [a] and [b], without filters; [done_b]
    says whether the plan of [b] is done. *)
Definition table_ab (done_b : bool) : Table :=
  <["a" := mkBaseKeyspace "a" false [] []]>
    (<["b" := mkBaseKeyspace "b" done_b [] []]> ∅).

(** [a.x] and [b.y]. *)
Definition a_x : Expression := NewField (NewIdentifier "a") "x".
Definition b_y : Expression := NewField (NewIdentifier "b") "y".

(** [a.x = n] and [b.y = n]. *)
Definition a_x_is (n : Z) : Expression := NewEq a_x (NewConstant (Number n)).
Definition b_y_is (n : Z) : Expression := NewEq b_y (NewConstant (Number n)).

(** The join predicate [a.x = b.y]. *)
Definition join_pred : Expression := NewEq a_x b_y.

(** [(a.x = 1 AND b.y = 2) OR (a.x = 3 AND b.y = 4)]. *)
Definition or_pred : Expression :=
  NewOr [NewAnd [a_x_is 1; b_y_is 2]; NewAnd [a_x_is 3; b_y_is 4]].

(** [a.x = 1 AND TRUE AND b.y = 2]. *)
Definition and_pred : Expression :=
  NewAnd [a_x_is 1; NewConstant TRUE_VALUE; b_y_is 2].

(* --------------------------------------------------------------------- *)
(** *** Facts about the table *)

Lemma total_insert_fresh (f : baseKeyspace -> nat) (t : Table) (k : string)
    (y : baseKeyspace) :
  t !! k = None -> total f (<[k := y]> t) = (f y + total f t)%nat.
Proof.
  intros Hk. unfold total. rewrite map_fold_insert_L; [done| |done].
  intros. lia.
Qed.

(** Replacing the entry of a keyspace changes the total by the difference
    of the two entries. *)
Lemma total_insert (f : baseKeyspace -> nat) (t : Table) (k : string)
    (x y : baseKeyspace) :
  t !! k = Some x ->
  (total f (<[k := y]> t) + f x = total f t + f y)%nat.
Proof.
  intros Hk.
  rewrite <- (insert_delete_eq t k y).
  rewrite <- (insert_delete_id t k x) at 2 by done.
  rewrite !total_insert_fresh by apply lookup_delete_eq. lia.
Qed.

Lemma same_keyspaces_refl (t : Table) : same_keyspaces t t.
Proof. done. Qed.

Lemma same_keyspaces_trans (t1 t2 t3 : Table) :
  same_keyspaces t1 t2 -> same_keyspaces t2 t3 -> same_keyspaces t1 t3.
Proof. intros H12 H23 k. by rewrite H23, H12. Qed.

Lemma same_keyspaces_insert (t : Table) (k : string) (ks ks' : baseKeyspace) :
  t !! k = Some ks -> shape ks' = shape ks ->
  same_keyspaces t (<[k := ks']> t).
Proof.
  intros Hk Hshape k'. destruct (decide (k = k')) as [<-|Hne].
  - rewrite lookup_insert_eq, Hk. simpl. by rewrite Hshape.
  - by rewrite lookup_insert_ne.
Qed.

Lemma foldM_app {S A : Type} (f : S -> A -> Result S) (s : S) (l1 l2 : list A) :
  foldM f s (l1 ++ l2) = bind (foldM f s l1) (fun s' => foldM f s' l2).
Proof.
  revert s. induction l1 as [|a l1 IH]; intros s; simpl; [done|].
  destruct (f s a); simpl; auto.
Qed.

(** *** The loop of [visitDefault] over the keyspaces of a conjunct *)

Section keyspace_loop.
Variable extract : exprClassifier -> Expression -> string -> Result Extracted.
Variable dnfExpr : Expression.
Variable origExpr0 : option Expression.
Variable K : gset string.
Variable isJoin0 : bool.
Variable this0 : exprClassifier.

(** The extraction returns on every state the loop can be in: a state of
    the classifier [this0] with the same keyspaces in its table.  (It is
    only called for an OR left with several keyspaces.) *)
Hypothesis extract_returns :
  size K <> 1%nat -> isOr dnfExpr = true ->
  forall st kname,
    isOnclause st = isOnclause this0 ->
    same_keyspaces (baseKeyspaces this0) (baseKeyspaces st) ->
    exists r, extract st dnfExpr kname = Done r.

Let single : bool := bool_decide (size K = 1%nat).
Let fl (this : exprClassifier) : Filter :=
  newFilter dnfExpr origExpr0 K (isOnclause this) isJoin0.

(** What is known of the extraction behind the entry of a keyspace whose
    entry was [ks]: it ran, on a state of the same classifier in which
    the join filter had been appended, when the conjunct is an OR left
    with several keyspaces; otherwise there was none. *)
Definition extraction_of (this : exprClassifier) (k : string)
    (ks : baseKeyspace) (extracted : Extracted) : Prop :=
  if decide (size K <> 1%nat /\ isOr dnfExpr = true) then
    exists st,
      extract st dnfExpr (name ks) = Done extracted /\
      st = set_baseKeyspaces (baseKeyspaces st) this /\
      same_keyspaces (baseKeyspaces this0) (baseKeyspaces st) /\
      baseKeyspaces st !! k = Some (append_joinfilter (fl this) ks)
  else extracted = None.

Lemma shape_entry_after (b : bool) (f : Filter) (x : Extracted) (o : bool)
    (ks : baseKeyspace) :
  shape (entry_after b f x o ks) = shape ks.
Proof. unfold entry_after. destruct b; [done|]. by destruct x as [[[? ?] ?]|]. Qed.

Lemma visitDefault_keyspace_Done (this : exprClassifier) (k : string)
    (ks : baseKeyspace) :
  isOnclause this = isOnclause this0 ->
  same_keyspaces (baseKeyspaces this0) (baseKeyspaces this) ->
  baseKeyspaces this !! k = Some ks ->
  exists extracted,
    visitDefault_keyspace extract dnfExpr origExpr0 K isJoin0 this k =
      Done (set_baseKeyspaces
              (<[k := entry_after single (fl this) extracted (isOnclause this) ks]>
                 (baseKeyspaces this))
              this) /\
    extraction_of this k ks extracted.
Proof.
  intros Hon Hsame Hk.
  unfold visitDefault_keyspace, extraction_of, entry_after, single.
  rewrite Hk. destruct (decide (size K = 1%nat)) as [H1|H1].
  - exists None. rewrite bool_decide_eq_true_2 by done. split; [done|].
    rewrite decide_False; [done|tauto].
  - rewrite bool_decide_eq_false_2 by done.
    destruct (isOr dnfExpr) eqn:Hor.
    + pose (st := set_baseKeyspaces
                    (<[k := append_joinfilter (fl this) ks]> (baseKeyspaces this))
                    this).
      assert (same_keyspaces (baseKeyspaces this0) (baseKeyspaces st)) as Hst.
      { eapply same_keyspaces_trans; [exact Hsame|].
        by apply (same_keyspaces_insert _ _ ks). }
      destruct (extract_returns H1 eq_refl st (name ks) Hon Hst) as [r Hr].
      exists r. rewrite decide_True by done. split.
      * change (bind (extract st dnfExpr (name ks))
                  (fun extracted =>
                     match extracted with
                     | Some (newPred, newOrigPred, orIsJoin) =>
                         Done (set_baseKeyspaces
                                 (<[k := append_filter
                                           (newFilter newPred (Some newOrigPred)
                                              {[ name ks ]} (isOnclause this)
                                              orIsJoin)
                                           (append_joinfilter (fl this) ks)]>
                                    (baseKeyspaces st)) st)
                     | None => Done st
                     end) = Done (set_baseKeyspaces
                                    (<[k := match r with
                                            | Some (newPred, newOrigPred, orIsJoin) =>
                                                append_filter
                                                  (newFilter newPred (Some newOrigPred)
                                                     {[ name ks ]} (isOnclause this)
                                                     orIsJoin)
                                                  (append_joinfilter (fl this) ks)
                                            | None => append_joinfilter (fl this) ks
                                            end]> (baseKeyspaces this)) this)).
        rewrite Hr. simpl.
        destruct r as [[[newPred newOrigPred] orIsJoin]|]; [|done].
        by rewrite insert_insert_eq.
      * exists st. split; [done|]. split; [done|]. split; [done|].
        unfold st. simpl. apply lookup_insert_eq.
    + exists None. split; [done|]. rewrite decide_False; [done|].
      intros [_ ?]. done.
Qed.

Lemma entry_after_joinfilters (b : bool) (f : Filter) (x : Extracted)
    (o : bool) (ks : baseKeyspace) :
  length (joinfilters (entry_after b f x o ks)) =
    (length (joinfilters ks) + if b then 0 else 1)%nat.
Proof.
  unfold entry_after. destruct b; simpl; [lia|].
  destruct x as [[[? ?] ?]|]; simpl; rewrite length_app; simpl; lia.
Qed.

Lemma entry_after_filters_single (f : Filter) (x : Extracted) (o : bool)
    (ks : baseKeyspace) :
  length (filters (entry_after true f x o ks)) = S (length (filters ks)).
Proof. simpl. rewrite length_app. simpl. lia. Qed.

(** The loop over the keyspaces [l] of the conjunct returns; it changes
    the entries of the keyspaces of [l], each once, and nothing else. *)
Lemma keyspaces_loop (l : list string) (this : exprClassifier) :
  NoDup l ->
  isOnclause this = isOnclause this0 ->
  same_keyspaces (baseKeyspaces this0) (baseKeyspaces this) ->
  (forall k, k ∈ l -> is_Some (baseKeyspaces this !! k)) ->
  exists this',
    foldM (visitDefault_keyspace extract dnfExpr origExpr0 K isJoin0) this l
      = Done this' /\
    this' = set_baseKeyspaces (baseKeyspaces this') this /\
    same_keyspaces (baseKeyspaces this0) (baseKeyspaces this') /\
    (forall k, k ∉ l -> baseKeyspaces this' !! k = baseKeyspaces this !! k) /\
    (forall k, k ∈ l ->
       exists ks extracted,
         baseKeyspaces this !! k = Some ks /\
         baseKeyspaces this' !! k =
           Some (entry_after single (fl this) extracted (isOnclause this) ks) /\
         extraction_of this k ks extracted) /\
    total_joinfilters (baseKeyspaces this') =
      (total_joinfilters (baseKeyspaces this)
       + if single then 0 else length l)%nat /\
    (single = true ->
     total_filters (baseKeyspaces this') =
       (total_filters (baseKeyspaces this) + length l)%nat).
Proof.
  intros Hnd. revert this.
  induction Hnd as [|k l Hk Hnd IH]; intros this Hon Hsame0 Hin.
  - exists this. simpl. split; [done|]. split; [by destruct this|].
    split; [done|]. split; [done|].
    split; [intros k Hk; by apply elem_of_nil in Hk|].
    split; [destruct single; lia | intros _; lia].
  - destruct (Hin k ltac:(left)) as [ks Hks].
    destruct (visitDefault_keyspace_Done this k ks Hon Hsame0 Hks)
      as (x & Hstep & Hx).
    set (this1 := set_baseKeyspaces _ this) in Hstep.
    destruct (IH this1) as (this' & Hfold & Hsame & Hsame' & Hout & Hinl & Hjoin & Hfil).
    { done. }
    { unfold this1. simpl. eapply same_keyspaces_trans; [exact Hsame0|].
      apply (same_keyspaces_insert _ _ ks); [done|]. apply shape_entry_after. }
    { intros k' Hk'. unfold this1. simpl.
      rewrite lookup_insert_ne by (intros ->; done). apply Hin. by right. }
    exists this'. simpl. rewrite Hstep. simpl. split; [done|].
    split; [by rewrite Hsame|]. split; [done|]. split; [|split; [|split]].
    + intros k' Hk'. rewrite Hout by (intros ?; apply Hk'; by right).
      unfold this1. simpl. apply lookup_insert_ne. intros ->. apply Hk'. left.
    + intros k' [->|Hk']%elem_of_cons.
      * exists ks, x. split; [done|]. split; [|done].
        rewrite Hout by done. unfold this1. simpl. apply lookup_insert_eq.
      * destruct (Hinl k' Hk') as (ks' & x' & Hks' & Hres & Hx').
        assert (k <> k') as Hne by (intros ->; done).
        unfold this1 in Hks'. simpl in Hks'.
        rewrite lookup_insert_ne in Hks' by done.
        exists ks', x'. split; [done|]. split; [done|].
        unfold extraction_of in *. destruct (decide _); [|done].
        destruct Hx' as (st & Hst1 & Hst2 & Hst3 & Hst4). exists st.
        split; [done|]. split; [|done]. rewrite Hst2. by destruct this.
    + rewrite Hjoin. unfold this1. simpl.
      pose proof (total_insert (fun ks => length (joinfilters ks))
                    (baseKeyspaces this) k ks
                    (entry_after single (fl this) x (isOnclause this) ks) Hks)
        as Ht.
      cbv beta in Ht. rewrite entry_after_joinfilters in Ht.
      unfold total_joinfilters.
      destruct single; lia.
    + intros Hs. rewrite Hfil by done. unfold this1. simpl.
      pose proof (total_insert (fun ks => length (filters ks))
                    (baseKeyspaces this) k ks
                    (entry_after single (fl this) x (isOnclause this) ks) Hks)
        as Ht.
      cbv beta in Ht. rewrite Hs, entry_after_filters_single in Ht. rewrite Hs.
      unfold total_filters. lia.
Qed.

End keyspace_loop.

Section classifier_facts.
Variable Ev : Expression -> EvalResult.
Variable CountKS : Expression -> gset string -> error + gset string.
Variable dnf : Expression -> error + Expression.
Variable flat : Expression -> option Expression * bool.
Variable copy : Table -> Table.

Lemma remaining_same_table (this this1 : exprClassifier) (ks : gset string) :
  baseKeyspaces this1 = baseKeyspaces this ->
  isOnclause this1 = isOnclause this ->
  remaining this1 ks = remaining this ks.
Proof. unfold remaining. by intros -> ->. Qed.

Lemma remaining_subseteq (this : exprClassifier) (ks : gset string) :
  remaining this ks ⊆ ks.
Proof.
  unfold remaining. destruct (isOnclause this); [|done].
  intros k Hk. by apply elem_of_filter in Hk as [_ ?].
Qed.

(** The path of [visitDefault] that records a filter: the conjunct is not
    constant true and its transformation is not an AND. *)
Lemma visitDefault_records (fuel : nat) (this : exprClassifier)
    (expr dnfExpr : Expression) (keyspaces : gset string) :
  constantTrue Ev expr = false ->
  CountKS expr (keyspaceNames this) = inr keyspaces ->
  dnf expr = inr dnfExpr ->
  isAnd dnfExpr = false ->
  exists (origExpr : option Expression) (this1 : exprClassifier),
    baseKeyspaces this1 = baseKeyspaces this /\
    isOnclause this1 = isOnclause this /\
    keyspaceNames this1 = keyspaceNames this /\
    (recursion this = false -> recursionJoin this = false ->
     this1 = this /\ origExpr = Some expr) /\
    visitDefault Ev CountKS dnf flat copy (S fuel) this expr =
      if decide (size keyspaces < 1)%nat then Done this
      else
        foldM (visitDefault_keyspace (extractExpr Ev CountKS dnf flat copy fuel)
                 dnfExpr origExpr (remaining this keyspaces)
                 (bool_decide (1 < size keyspaces)%nat))
              this1 (elements (remaining this keyspaces)).
Proof.
  intros Htrue Hks Hdnf Hand. cbn [visitDefault].
  rewrite Htrue, Hks, Hdnf, Hand.
  destruct (decide (size keyspaces < 1)%nat) as [Hlt|Hlt].
  { exists (Some expr), this. by repeat split. }
  destruct (decide (size keyspaces = 1%nat)).
  - destruct (recursion this) eqn:Hrec.
    + destruct (recurseExpr this) as [r|] eqn:Hr.
      * exists (Some r), (set_recurseExpr None this).
        repeat split; try done; intros; congruence.
      * exists None, this. repeat split; try done; intros; congruence.
    + exists (Some expr), this. by repeat split.
  - destruct (recursionJoin this) eqn:Hrec.
    + destruct (recurseJoinExpr this) as [r|] eqn:Hr.
      * exists (Some r), (set_recurseJoinExpr None this).
        repeat split; try done; intros; congruence.
      * exists None, this. repeat split; try done; intros; congruence.
    + exists (Some expr), this. by repeat split.
Qed.

(** C5, as amended.  A conjunct [expr] that is not constant true and whose
    transformation [dnfExpr] is not an AND is recorded once for each
    keyspace of [K]: the keyspaces it mentions, less, on the ON-clause
    path, those whose plan is done.  If [K] has a single keyspace, a
    filter for the conjunct is appended to the [filters] of that keyspace;
    otherwise a filter is appended to the [joinfilters] of every keyspace
    of [K], which makes [size K] new joinfilters entries.  The other
    keyspaces are left as they were.  Outside an ON clause [K] is the set
    of all keyspaces the conjunct mentions. *)
Theorem visitDefault_appends_filter (fuel : nat) (this : exprClassifier)
    (expr dnfExpr : Expression) (keyspaces : gset string) :
  constantTrue Ev expr = false ->
  CountKS expr (keyspaceNames this) = inr keyspaces ->
  dnf expr = inr dnfExpr ->
  isAnd dnfExpr = false ->
  let K := remaining this keyspaces in
  (forall k, k ∈ K -> is_Some (baseKeyspaces this !! k)) ->
  (size K <> 1%nat -> isOr dnfExpr = true ->
   forall st kname,
     isOnclause st = isOnclause this ->
     same_keyspaces (baseKeyspaces this) (baseKeyspaces st) ->
     exists r, extractExpr Ev CountKS dnf flat copy fuel st dnfExpr kname = Done r) ->
  exists this',
    visitDefault Ev CountKS dnf flat copy (S fuel) this expr = Done this' /\
    (forall k, k ∉ K -> baseKeyspaces this' !! k = baseKeyspaces this !! k) /\
    (forall k, k ∈ K ->
       exists ks ks' fl,
         baseKeyspaces this !! k = Some ks /\
         baseKeyspaces this' !! k = Some ks' /\
         fltrExpr fl = dnfExpr /\ fl_keyspaces fl = K /\
         if decide (size K = 1%nat)
         then filters ks' = filters ks ++ [fl] /\ joinfilters ks' = joinfilters ks
         else joinfilters ks' = joinfilters ks ++ [fl]) /\
    total_joinfilters (baseKeyspaces this') =
      (total_joinfilters (baseKeyspaces this)
       + if decide (size K = 1%nat) then 0 else size K)%nat /\
    (isOnclause this = false -> K = keyspaces).
Proof.
  intros Htrue Hks Hdnf Hand K Hin Hext.
  destruct (visitDefault_records fuel this expr dnfExpr keyspaces
              Htrue Hks Hdnf Hand)
    as (origExpr & this1 & Htbl & Hon & _ & _ & ->).
  fold K.
  assert (isOnclause this = false -> K = keyspaces) as HK.
  { unfold K, remaining. by intros ->. }
  destruct (decide (size keyspaces < 1)%nat) as [Hlt|Hlt].
  { assert (K = ∅) as HKe.
    { pose proof (remaining_subseteq this keyspaces) as Hsub. fold K in Hsub.
      assert (keyspaces = ∅) as ->; [|set_solver].
      apply leibniz_equiv, size_empty_iff. lia. }
    exists this. split; [done|]. split; [done|]. split.
    - intros k Hk. rewrite HKe in Hk. set_solver.
    - split; [|done]. rewrite HKe, size_empty. rewrite decide_False by done. lia. }
  destruct (keyspaces_loop (extractExpr Ev CountKS dnf flat copy fuel)
              dnfExpr origExpr K (bool_decide (1 < size keyspaces)%nat) this
              Hext (elements K) this1)
    as (this' & Hfold & Hsame & _ & Hout & Hinl & Hjoin & _).
  { apply NoDup_elements. }
  { done. }
  { rewrite Htbl. apply same_keyspaces_refl. }
  { intros k Hk. rewrite Htbl. apply Hin. by apply elem_of_elements. }
  exists this'. split; [done|]. rewrite Htbl in *.
  split; [|split; [|split; [|done]]].
  - intros k Hk. apply Hout. by rewrite elem_of_elements.
  - intros k Hk. destruct (Hinl k) as (ks & x & Hks0 & Hks' & _).
    { by apply elem_of_elements. }
    exists ks. eexists.
    exists (newFilter dnfExpr origExpr K (isOnclause this1)
              (bool_decide (1 < size keyspaces)%nat)).
    split; [done|]. split; [exact Hks'|].
    split; [reflexivity|]. split; [reflexivity|].
    unfold entry_after. destruct (decide (size K = 1%nat)) as [H1|H1].
    + by rewrite bool_decide_eq_true_2.
    + rewrite bool_decide_eq_false_2 by done.
      by destruct x as [[[? ?] ?]|].
  - rewrite Hjoin. destruct (decide (size K = 1%nat)) as [H1|H1].
    + by rewrite bool_decide_eq_true_2.
    + by rewrite bool_decide_eq_false_2.
Qed.

Lemma VisitAnd_S (fuel : nat) (this : exprClassifier) (ops : list Expression) :
  VisitAnd Ev CountKS dnf flat copy (S fuel) this ops =
    foldM (Accept Ev CountKS dnf flat copy fuel) this ops.
Proof. reflexivity. Qed.

Lemma ClassifyExpr_S (fuel : nat) (expr : Expression) (t : Table) (on : bool) :
  ClassifyExpr Ev CountKS dnf flat copy (S fuel) expr t on =
    if decide (size t = 0%nat) then
      Failed "ClassifyExpr: invalid argument baseKeyspaces"
    else
      bind (Accept Ev CountKS dnf flat copy fuel (newExprClassifier t on) expr)
        (fun classifier' => Done (baseKeyspaces classifier')).
Proof. reflexivity. Qed.

Lemma conjuncts_And (val : ValuePtr) (cond vol : bool) (ch : list Expression) :
  conjuncts (Expr And val cond vol ch) = flat_map conjuncts ch.
Proof. simpl. induction ch as [|c ch IH]; [done|]. simpl. by rewrite IH. Qed.

Lemma conjuncts_other (e : Expression) : isAnd e = false -> conjuncts e = [e].
Proof. by destruct e as [[] ? ? ? ?]. Qed.

Lemma and_depth_And (val : ValuePtr) (cond vol : bool) (ch : list Expression) :
  and_depth (Expr And val cond vol ch) = S (foldr Nat.max 0%nat (and_depth <$> ch)).
Proof. simpl. f_equal. induction ch as [|c ch IH]; [done|]. simpl. by rewrite IH. Qed.

Lemma and_depth_pos (e : Expression) : (1 <= and_depth e)%nat.
Proof. destruct e as [[] ? ? ? ?]; simpl; lia. Qed.

Lemma single_keyspace_conjunct_same (names : gset string) (t t' : Table)
    (onclause : bool) (P : Expression) :
  same_keyspaces t t' ->
  single_keyspace_conjunct Ev CountKS dnf names t onclause P ->
  single_keyspace_conjunct Ev CountKS dnf names t' onclause P.
Proof.
  intros Hsame [Htrue|(k & d & Hks & Hd & Hand & Hin & Hdone)]; [by left|].
  right. exists k, d. repeat split; try done.
  - specialize (Hsame k). destruct Hin as [x Hx]. rewrite Hx in Hsame.
    destruct (t' !! k); [done|discriminate].
  - intros Hon. specialize (Hdone Hon). specialize (Hsame k).
    unfold planDone, shape in *.
    destruct (t !! k), (t' !! k); simpl in *; congruence.
Qed.

(** A conjunct of a single keyspace adds one filter, unless it is
    constant true; the keyspaces stay the same. *)
Lemma visitDefault_single (fuel : nat) (this : exprClassifier) (P : Expression) :
  single_keyspace_conjunct Ev CountKS dnf (keyspaceNames this)
    (baseKeyspaces this) (isOnclause this) P ->
  exists this',
    visitDefault Ev CountKS dnf flat copy (S fuel) this P = Done this' /\
    keyspaceNames this' = keyspaceNames this /\
    isOnclause this' = isOnclause this /\
    same_keyspaces (baseKeyspaces this) (baseKeyspaces this') /\
    total_filters (baseKeyspaces this') =
      (total_filters (baseKeyspaces this)
       + if constantTrue Ev P then 0 else 1)%nat.
Proof.
  intros [Htrue|(k & d & Hks & Hd & Hand & Hin & Hdone)].
  - exists this. cbn [visitDefault]. rewrite Htrue.
    split; [done|]. split; [done|]. split; [done|]. split; [done|]. lia.
  - destruct (constantTrue Ev P) eqn:Htrue.
    { exists this. cbn [visitDefault]. rewrite Htrue.
      split; [done|]. split; [done|]. split; [done|]. split; [done|]. lia. }
    destruct (visitDefault_records fuel this P d {[ k ]} Htrue Hks Hd Hand)
      as (origExpr & this1 & Htbl & Hon & Hnames & _ & ->).
    rewrite size_singleton. rewrite decide_False by lia.
    assert (remaining this {[ k ]} = {[ k ]}) as HK.
    { unfold remaining. destruct (isOnclause this); [|done].
      apply set_eq. intros k'. rewrite elem_of_filter. split; [tauto|].
      intros Hk'. split; [|done]. apply elem_of_singleton in Hk' as ->. auto. }
    rewrite HK.
    destruct (keyspaces_loop (extractExpr Ev CountKS dnf flat copy fuel)
                d origExpr {[ k ]} (bool_decide (1 < 1)%nat) this1
                ltac:(rewrite size_singleton; done)
                (elements ({[ k ]} : gset string)) this1)
      as (this' & Hfold & Hsame & Hshape & Hout & Hinl & _ & Hfil).
    { apply NoDup_elements. }
    { done. }
    { apply same_keyspaces_refl. }
    { intros k' Hk'. rewrite Htbl.
      apply elem_of_elements, elem_of_singleton in Hk' as ->. done. }
    assert (keyspaceNames this' = keyspaceNames this1) as Hn'
      by (by rewrite Hsame).
    assert (isOnclause this' = isOnclause this1) as Ho'
      by (by rewrite Hsame).
    exists this'. split; [done|]. rewrite Htbl in *.
    split; [congruence|]. split; [congruence|]. split; [done|].
    + rewrite Hfil.
      * rewrite elements_singleton. simpl. lia.
      * rewrite size_singleton. by apply bool_decide_eq_true_2.
Qed.

(** The walk over a predicate all of whose conjuncts are of a single
    keyspace: one filter for each conjunct that is not constant true. *)
Lemma Accept_single (expr : Expression) :
  forall (fuel : nat) (this : exprClassifier),
    (and_depth expr <= fuel)%nat ->
    Forall (single_keyspace_conjunct Ev CountKS dnf (keyspaceNames this)
              (baseKeyspaces this) (isOnclause this))
           (conjuncts expr) ->
    exists this',
      Accept Ev CountKS dnf flat copy fuel this expr = Done this' /\
      keyspaceNames this' = keyspaceNames this /\
      isOnclause this' = isOnclause this /\
      same_keyspaces (baseKeyspaces this) (baseKeyspaces this') /\
      total_filters (baseKeyspaces this') =
        (total_filters (baseKeyspaces this)
         + length (List.filter (fun P => negb (constantTrue Ev P))
                     (conjuncts expr)))%nat.
Proof.
  induction expr as [k val cond vol ch IH] using Expression_deep_ind.
  intros fuel this Hfuel Hall. unfold Accept.
  destruct (isAnd (Expr k val cond vol ch)) eqn:Hk.
  - destruct k; try discriminate. clear Hk.
    rewrite and_depth_And in Hfuel. rewrite conjuncts_And in *.
    destruct fuel as [|fuel]; [lia|]. apply le_S_n in Hfuel.
    rewrite VisitAnd_S. cbn [Children].
    revert this Hall Hfuel.
    induction IH as [|c ch Hc Hch IHch]; intros this Hall Hfuel.
    + exists this. simpl.
      split; [done|]. split; [done|]. split; [done|]. split; [done|]. lia.
    + cbn [flat_map] in Hall. rewrite fmap_cons in Hfuel. cbn [foldr] in Hfuel.
      apply Forall_app in Hall as [Hall1 Hall2].
      destruct (Hc fuel this ltac:(lia) Hall1)
        as (this1 & Hacc & Hn1 & Ho1 & Hs1 & Ht1).
      destruct (IHch this1) as (this' & Hrest & Hn' & Ho' & Hs' & Ht').
      { rewrite Hn1, Ho1. eapply Forall_impl; [exact Hall2|].
        intros P HP. by eapply single_keyspace_conjunct_same. }
      { lia. }
      exists this'. cbn [foldM].
      rewrite Hacc. simpl. split; [exact Hrest|].
      split; [congruence|]. split; [congruence|].
      split; [by eapply same_keyspaces_trans|].
      rewrite Ht', Ht1. rewrite List.filter_app, length_app. lia.
  - rewrite (conjuncts_other _ Hk) in *.
    assert (and_depth (Expr k val cond vol ch) = 1%nat) as Hd
      by (by destruct k).
    rewrite Hd in Hfuel. destruct fuel as [|fuel]; [lia|].
    apply Forall_cons in Hall as [HP _].
    destruct (visitDefault_single fuel this _ HP)
      as (this' & Hv & Hn & Ho & Hs & Ht).
    exists this'.
    split; [done|]. split; [done|]. split; [done|]. split; [done|].
    rewrite Ht. simpl. destruct (constantTrue Ev _); simpl; lia.
Qed.

Lemma length_filter_negb {A : Type} (f : A -> bool) (l : list A) :
  length (List.filter (fun x => negb (f x)) l) =
    (length l - length (List.filter f l))%nat.
Proof.
  induction l as [|a l IH]; [done|]. simpl.
  pose proof (List.filter_length_le f l).
  destruct (f a); simpl; rewrite IH; lia.
Qed.

(** C6, as amended.  On a table that is not empty, and with enough fuel
    for the nesting of the ANDs, [ClassifyExpr] returns when every
    conjunct of the predicate is constant true or mentions exactly one
    base keyspace (of the table; in an ON clause, one whose plan is not
    done) and has a transformation that is not an AND.  The constant-true
    conjuncts are dropped, and the filters of all keyspaces grow by the
    AND-arity of the predicate less the number of its constant-true
    conjuncts. *)
Theorem ClassifyExpr_filters_total (fuel : nat) (expr : Expression)
    (t : Table) (onclause : bool) :
  size t <> 0%nat ->
  (and_depth expr < fuel)%nat ->
  Forall (single_keyspace_conjunct Ev CountKS dnf
            (keyspaceNames (newExprClassifier t onclause)) t onclause)
         (conjuncts expr) ->
  exists t',
    ClassifyExpr Ev CountKS dnf flat copy fuel expr t onclause = Done t' /\
    same_keyspaces t t' /\
    total_filters t' =
      (total_filters t + (and_arity expr - count_true Ev expr))%nat.
Proof.
  intros Hsize Hfuel Hall. destruct fuel as [|fuel]; [lia|].
  rewrite ClassifyExpr_S. rewrite decide_False by done.
  destruct (Accept_single expr fuel (newExprClassifier t onclause)
              ltac:(lia) Hall)
    as (this' & Hacc & _ & _ & Hsame & Htotal).
  exists (baseKeyspaces this'). rewrite Hacc. split; [done|].
  split; [done|]. rewrite Htotal. simpl.
  by rewrite length_filter_negb.
Qed.

Lemma extractExpr_S (fuel : nat) (this : exprClassifier) (or : Expression)
    (keyspaceName : string) :
  extractExpr Ev CountKS dnf flat copy (S fuel) this or keyspaceName =
    match flat or with
    | (None, _) => Done None
    | (Some orTerms, truth) =>
        if truth then Done None
        else
          extract_loop
            (fun op => ClassifyExpr Ev CountKS dnf flat copy fuel op
                         (copy (baseKeyspaces this)) (isOnclause this))
            keyspaceName (Children orTerms) [] [] false
    end.
Proof. reflexivity. Qed.

Lemma collect_isJoin (fls : list Filter) (nt no : option Expression) (j : bool) :
  collect fls nt no j =
    ((collect fls nt no false).1.1, (collect fls nt no false).1.2,
     j || (collect fls nt no false).2).
Proof.
  revert nt no j. induction fls as [|fl fls IH]; intros nt no j; simpl.
  - by rewrite orb_false_r.
  - rewrite (IH _ _ (j || isJoin fl)), (IH _ _ (isJoin fl)). simpl.
    by rewrite orb_assoc.
Qed.

(** The loop of [extractExpr] returns the OR of the fragments of the
    disjuncts, or nothing when a disjunct has no fragment. *)
Lemma extract_loop_spec (classify : Expression -> Result Table)
    (keyspaceName : string) (ops : list Expression) (tables : list Table) :
  Forall2 (fun op t => classify op = Done t) ops tables ->
  forall (newTerms newOrigTerms : list Expression) (j : bool),
    extract_loop classify keyspaceName ops newTerms newOrigTerms j =
      Done (match mapM id (fragment keyspaceName <$> tables) with
            | Some fs =>
                Some (NewOr (newTerms ++ fs.*1.*1),
                      NewOr (newOrigTerms ++ omap id (fs.*1.*2)),
                      j || existsb id (fs.*2))
            | None => None
            end).
Proof.
  induction 1 as [|op t ops tables Hop Hrest IH]; intros nts nos j.
  - simpl. by rewrite !app_nil_r, orb_false_r.
  - cbn [extract_loop]. rewrite Hop. cbn [bind]. unfold fragment at 1.
    cbn [fmap list_fmap mapM]. fold (fragment keyspaceName).
    destruct (t !! keyspaceName) as [kspace|]; [|done].
    rewrite collect_isJoin.
    destruct (collect (filters kspace) None None false) as [[nt no] jf].
    cbn [fst snd]. destruct nt as [term|]; [|done].
    fold (extract_loop classify keyspaceName). rewrite IH.
    cbn [id mbind option_bind].
    destruct (mapM id (fragment keyspaceName <$> tables)) as [fs|]; [|done].
    cbn [mret option_ret mbind option_bind fmap list_fmap omap list_omap fst snd
           existsb id].
    destruct no as [o|]; cbn; by rewrite <- ?app_assoc, ?orb_assoc.
Qed.

(** C7, as amended.  Take a conjunct that is not constant true, whose
    transformation [dnfExpr] is an OR, and that is left with a set [K] of
    keyspaces (those it mentions, less, on the ON-clause path, those whose
    plan is done) that is not a single keyspace.  For each keyspace [k] of
    [K] the classifier appends the join filter and then calls
    [extractExpr]; when that returns a predicate, a filter for it, on the
    keyspace [k] alone, is appended to the [filters] of [k], after the
    join filter went to its [joinfilters]; when it returns none, the
    [filters] of [k] stay as they were.  [extractExpr] itself, on an OR
    that flattens without a true term, classifies each disjunct against a
    copy of the table, joins that disjunct's filters for [k] by AND, and
    returns the OR of these fragments when every disjunct has one, and
    nothing otherwise. *)
Theorem visitDefault_extracts_or (fuel : nat) (this : exprClassifier)
    (expr dnfExpr : Expression) (keyspaces : gset string) :
  constantTrue Ev expr = false ->
  CountKS expr (keyspaceNames this) = inr keyspaces ->
  dnf expr = inr dnfExpr ->
  isOr dnfExpr = true ->
  let K := remaining this keyspaces in
  size K <> 1%nat ->
  (forall k, k ∈ K -> is_Some (baseKeyspaces this !! k)) ->
  (forall st kname,
     isOnclause st = isOnclause this ->
     same_keyspaces (baseKeyspaces this) (baseKeyspaces st) ->
     exists r, extractExpr Ev CountKS dnf flat copy fuel st dnfExpr kname = Done r) ->
  (exists this',
     visitDefault Ev CountKS dnf flat copy (S fuel) this expr = Done this' /\
     forall k, k ∈ K ->
       exists ks jf st extracted,
         baseKeyspaces this !! k = Some ks /\
         fltrExpr jf = dnfExpr /\ fl_keyspaces jf = K /\
         baseKeyspaces st !! k = Some (append_joinfilter jf ks) /\
         isOnclause st = isOnclause this /\
         same_keyspaces (baseKeyspaces this) (baseKeyspaces st) /\
         extractExpr Ev CountKS dnf flat copy fuel st dnfExpr (name ks)
           = Done extracted /\
         baseKeyspaces this' !! k =
           Some (match extracted with
                 | Some (newPred, newOrigPred, orIsJoin) =>
                     append_filter
                       (newFilter newPred (Some newOrigPred) {[ name ks ]}
                          (isOnclause this) orIsJoin)
                       (append_joinfilter jf ks)
                 | None => append_joinfilter jf ks
                 end)) /\
  (forall fuel' st or kname orTerms tables,
     flat or = (Some orTerms, false) ->
     Forall2 (fun op t =>
                ClassifyExpr Ev CountKS dnf flat copy fuel' op
                  (copy (baseKeyspaces st)) (isOnclause st) = Done t)
             (Children orTerms) tables ->
     extractExpr Ev CountKS dnf flat copy (S fuel') st or kname =
       Done (rewrap (fragment kname <$> tables))).
Proof.
  intros Htrue Hks Hdnf Hor K HK Hin Hext. split.
  - assert (isAnd dnfExpr = false) as Hand.
    { unfold isOr, isAnd in *. by destruct (kind dnfExpr). }
    destruct (visitDefault_records fuel this expr dnfExpr keyspaces
                Htrue Hks Hdnf Hand)
      as (origExpr & this1 & Htbl & Hon & _ & _ & ->).
    fold K.
    destruct (decide (size keyspaces < 1)%nat) as [Hlt|Hlt].
    { exists this. split; [done|]. intros k Hk.
      pose proof (remaining_subseteq this keyspaces) as Hsub. fold K in Hsub.
      assert (keyspaces ≡ ∅) as He by (apply size_empty_iff; lia).
      apply Hsub, He in Hk. by apply elem_of_empty in Hk. }
    destruct (keyspaces_loop (extractExpr Ev CountKS dnf flat copy fuel)
                dnfExpr origExpr K (bool_decide (1 < size keyspaces)%nat) this
                ltac:(intros _ _; exact Hext) (elements K) this1)
      as (this' & Hfold & Hsame & _ & Hout & Hinl & _ & _).
    { apply NoDup_elements. }
    { done. }
    { rewrite Htbl. apply same_keyspaces_refl. }
    { intros k Hk. rewrite Htbl. apply Hin. by apply elem_of_elements. }
    exists this'. split; [done|]. intros k Hk.
    destruct (Hinl k) as (ks & x & Hks0 & Hks' & Hx).
    { by apply elem_of_elements. }
    unfold extraction_of in Hx. rewrite decide_True in Hx by done.
    destruct Hx as (st & Hst1 & Hst2 & Hst3 & Hst4).
    exists ks,
      (newFilter dnfExpr origExpr K (isOnclause this1)
         (bool_decide (1 < size keyspaces)%nat)), st, x.
    rewrite Htbl in Hks0. split; [done|]. split; [done|]. split; [done|].
    split; [done|]. split; [by rewrite Hst2|]. split; [done|]. split; [done|].
    rewrite Hks'. unfold entry_after.
    rewrite bool_decide_eq_false_2 by done. by rewrite Hon.
  - intros fuel' st or kname orTerms tables Hflat Hall.
    rewrite extractExpr_S, Hflat.
    rewrite (extract_loop_spec _ kname _ tables Hall). unfold rewrap.
    by destruct (mapM id (fragment kname <$> tables)).
Qed.

(** [extractExpr] returns whenever the disjuncts can be classified, and
    it reads nothing of the state but the copy of its table and the
    ON-clause mark. *)
Lemma extractExpr_returns (fuel : nat) (this : exprClassifier)
    (or orTerms : Expression) (tables : list Table) :
  flat or = (Some orTerms, false) ->
  Forall2 (fun op t =>
             ClassifyExpr Ev CountKS dnf flat copy fuel op
               (copy (baseKeyspaces this)) (isOnclause this) = Done t)
          (Children orTerms) tables ->
  forall st kname,
    isOnclause st = isOnclause this ->
    copy (baseKeyspaces st) = copy (baseKeyspaces this) ->
    extractExpr Ev CountKS dnf flat copy (S fuel) st or kname =
      Done (rewrap (fragment kname <$> tables)).
Proof.
  intros Hflat Hall st kname Hon Hcopy.
  rewrite extractExpr_S, Hflat, Hon, Hcopy.
  rewrite (extract_loop_spec _ kname _ tables Hall). unfold rewrap.
  by destruct (mapM id (fragment kname <$> tables)).
Qed.

End classifier_facts.

Lemma copyBaseKeyspaces_fresh_same (t t' : Table) :
  same_keyspaces t t' -> copyBaseKeyspaces_fresh t' = copyBaseKeyspaces_fresh t.
Proof.
  intros Hsame. unfold copyBaseKeyspaces_fresh.
  assert (shape <$> t' = shape <$> t) as ->; [|done].
  apply map_eq. intros k. rewrite !lookup_fmap. apply Hsame.
Qed.

(** *** The theorems at example inputs *)

(** The theorem of C5 at the join predicate [a.x = b.y] of a WHERE
    clause over the keyspaces [a] and [b]: two joinfilters entries. *)
Lemma visitDefault_appends_filter_witness :
  exists this',
    visitDefault_plain 1 (newExprClassifier (table_ab false) false) join_pred
      = Done this' /\
    total_joinfilters (baseKeyspaces this') = 2%nat.
Proof.
  destruct (visitDefault_appends_filter (Evaluate None) CountKeySpaces
              dnfMap_plain flattenOr_plain copyBaseKeyspaces_fresh 0
              (newExprClassifier (table_ab false) false) join_pred join_pred
              {[ "a"; "b" ]})
    as (this' & Hv & _ & _ & Htot & _).
  - reflexivity.
  - vm_compute. reflexivity.
  - reflexivity.
  - reflexivity.
  - intros k Hk.
    change (k ∈ ({[ "a"; "b" ]} : gset string)) in Hk.
    assert (k = "a" \/ k = "b") as [-> | ->] by set_solver.
    all: vm_compute; eauto.
  - intros _ Hor. discriminate.
  - exists this'. split; [exact Hv|]. rewrite Htot. vm_compute. reflexivity.
Defined.

(** C5, as stated, fails in an ON clause when the plan of [b] is done:
    [a.x = b.y] mentions two keyspaces and gets no joinfilters entry (the
    filter goes to the [filters] of [a]). *)
Lemma visitDefault_on_clause_counterexample :
  ~ recorded_by_keyspaces (Evaluate None) CountKeySpaces dnfMap_plain
      flattenOr_plain copyBaseKeyspaces_fresh 1
      (newExprClassifier (table_ab true) true) join_pred.
Proof.
  intros H.
  destruct (H {[ "a"; "b" ]}) as (this' & Hv & _ & Hmulti).
  { vm_compute. reflexivity. }
  destruct Hmulti as [_ Htot].
  { vm_compute. lia. }
  vm_compute in Hv. injection Hv as <-.
  vm_compute in Htot. discriminate.
Qed.

(** The theorem of C6 at [a.x = 1 AND TRUE AND b.y = 2]: two filters. *)
Lemma ClassifyExpr_filters_total_witness :
  exists t',
    ClassifyExpr_plain 3 and_pred (table_ab false) false = Done t' /\
    total_filters t' = 2%nat.
Proof.
  destruct (ClassifyExpr_filters_total (Evaluate None) CountKeySpaces
              dnfMap_plain flattenOr_plain copyBaseKeyspaces_fresh 3
              and_pred (table_ab false) false)
    as (t' & Hc & _ & Ht).
  - vm_compute. discriminate.
  - vm_compute. lia.
  - change (conjuncts and_pred)
      with [a_x_is 1; NewConstant TRUE_VALUE; b_y_is 2].
    apply Forall_cons_2;
      [|apply Forall_cons_2; [|apply Forall_cons_2; [|apply Forall_nil_2]]].
    + right. exists "a", (a_x_is 1).
      split; [vm_compute; reflexivity|]. split; [reflexivity|].
      split; [reflexivity|]. split; [vm_compute; eauto|]. discriminate.
    + left. reflexivity.
    + right. exists "b", (b_y_is 2).
      split; [vm_compute; reflexivity|]. split; [reflexivity|].
      split; [reflexivity|]. split; [vm_compute; eauto|]. discriminate.
  - exists t'. split; [exact Hc|]. rewrite Ht. vm_compute. reflexivity.
Defined.

(** C6, as stated, fails on the join predicate [a.x = b.y]: its
    AND-arity is 1, no conjunct is constant true, and no keyspace gets a
    filter (both get a join filter). *)
Lemma ClassifyExpr_join_counterexample :
  ~ filters_total_is_arity (Evaluate None) CountKeySpaces dnfMap_plain
      flattenOr_plain copyBaseKeyspaces_fresh 3 join_pred (table_ab false) false.
Proof.
  intros (t' & Hc & Ht). vm_compute in Hc. injection Hc as <-.
  vm_compute in Ht. discriminate.
Qed.

(** The theorem of C7 at [(a.x = 1 AND b.y = 2) OR (a.x = 3 AND b.y = 4)]
    in a WHERE clause: the keyspace [a] gets the filter
    [a.x = 1 OR a.x = 3]. *)
Lemma visitDefault_extracts_or_witness :
  exists this',
    visitDefault_plain 5 (newExprClassifier (table_ab false) false) or_pred
      = Done this' /\
    (fun ks => fltrExpr <$> filters ks) <$> baseKeyspaces this' !! "a"
      = Some [NewOr [a_x_is 1; a_x_is 3]].
Proof.
  destruct (visitDefault_extracts_or (Evaluate None) CountKeySpaces
              dnfMap_plain flattenOr_plain copyBaseKeyspaces_fresh 4
              (newExprClassifier (table_ab false) false) or_pred or_pred
              {[ "a"; "b" ]})
    as [(this' & Hv & _) _].
  - reflexivity.
  - vm_compute. reflexivity.
  - reflexivity.
  - reflexivity.
  - vm_compute. discriminate.
  - intros k Hk.
    change (k ∈ ({[ "a"; "b" ]} : gset string)) in Hk.
    assert (k = "a" \/ k = "b") as [-> | ->] by set_solver.
    all: vm_compute; eauto.
  - intros st kname Hon Hsame.
    assert (exists t1 t2,
              ClassifyExpr_plain 3 (NewAnd [a_x_is 1; b_y_is 2])
                (copyBaseKeyspaces_fresh (table_ab false)) false = Done t1 /\
              ClassifyExpr_plain 3 (NewAnd [a_x_is 3; b_y_is 4])
                (copyBaseKeyspaces_fresh (table_ab false)) false = Done t2)
      as (t1 & t2 & H1 & H2).
    { do 2 eexists. split; vm_compute; reflexivity. }
    eexists.
    apply (extractExpr_returns (Evaluate None) CountKeySpaces dnfMap_plain
             flattenOr_plain copyBaseKeyspaces_fresh 3
             (newExprClassifier (table_ab false) false) or_pred or_pred
             [t1; t2]).
    + reflexivity.
    + repeat constructor; assumption.
    + exact Hon.
    + by apply copyBaseKeyspaces_fresh_same.
  - exists this'. split; [exact Hv|].
    unfold visitDefault_plain in Hv. vm_compute in Hv. injection Hv as <-.
    vm_compute. reflexivity.
Defined.

(** C7, as stated, fails in an ON clause when the plan of [b] is done:
    the OR mentions [a] and [b], [extractExpr] would find
    [a.x = 1 OR a.x = 3] for [a], but the conjunct is left with the single
    keyspace [a]: it goes to the [filters] of [a], no join filter is
    recorded and nothing is extracted. *)
Lemma visitDefault_no_extraction_counterexample :
  ~ extracted_for_each_keyspace (Evaluate None) CountKeySpaces dnfMap_plain
      flattenOr_plain copyBaseKeyspaces_fresh 4
      (newExprClassifier (table_ab true) true) or_pred.
Proof.
  intros H.
  destruct (H {[ "a"; "b" ]}) as (this' & Hv & Hall).
  { vm_compute. reflexivity. }
  { vm_compute. lia. }
  edestruct (Hall "a") as (ks' & jf & fl & Hks' & Hjf & _).
  { set_solver. }
  { vm_compute. reflexivity. }
  { vm_compute. reflexivity. }
  vm_compute in Hv. injection Hv as <-.
  vm_compute in Hks'. injection Hks' as <-.
  simpl in Hjf. discriminate.
Qed.

(* --------------------------------------------------------------------- *)

(** *** What classification keeps, and how it composes *)

(** The entry of a keyspace after filters were appended to it: the same
    name and plan-done mark, and the two lists of filters with the old
    ones in front. *)
Definition appended (ks ks' : baseKeyspace) : Prop :=
  name ks' = name ks /\ plandone ks' = plandone ks /\
  filters ks `prefix_of` filters ks' /\
  joinfilters ks `prefix_of` joinfilters ks'.

(** A table after classification: the same keys, each with an entry that
    was only appended to. *)
Definition only_appends (t t' : Table) : Prop :=
  forall k, option_Forall2 appended (t !! k) (t' !! k).

(** A result with more allowance: the same, unless the first ran out. *)
Definition settles_as {A : Type} (r r' : Result A) : Prop :=
  r = OutOfFuel \/ r = r'.

Lemma appended_refl (ks : baseKeyspace) : appended ks ks.
Proof. by repeat split. Qed.

Lemma appended_trans (a b c : baseKeyspace) :
  appended a b -> appended b c -> appended a c.
Proof.
  intros (? & ? & ? & ?) (? & ? & ? & ?).
  repeat split; try congruence; by etrans.
Qed.

Lemma only_appends_refl (t : Table) : only_appends t t.
Proof.
  intros k. destruct (t !! k); constructor. apply appended_refl.
Qed.

Lemma only_appends_trans (t1 t2 t3 : Table) :
  only_appends t1 t2 -> only_appends t2 t3 -> only_appends t1 t3.
Proof.
  intros H12 H23 k. specialize (H12 k). specialize (H23 k).
  destruct H12 as [a b Hab|]; inversion H23; subst; constructor.
  by eapply appended_trans.
Qed.

Lemma only_appends_insert (t : Table) (k : string) (ks ks' : baseKeyspace) :
  t !! k = Some ks -> appended ks ks' -> only_appends t (<[k := ks']> t).
Proof.
  intros Hk Hks k'. destruct (decide (k = k')) as [<-|Hne].
  - rewrite lookup_insert_eq, Hk. by constructor.
  - rewrite lookup_insert_ne by done. apply only_appends_refl.
Qed.

Lemma appended_filter (fl : Filter) (ks : baseKeyspace) :
  appended ks (append_filter fl ks).
Proof. repeat split; try done. simpl. by apply prefix_app_r. Qed.

Lemma appended_joinfilter (fl : Filter) (ks : baseKeyspace) :
  appended ks (append_joinfilter fl ks).
Proof. repeat split; try done. simpl. by apply prefix_app_r. Qed.

(** What a classifier method keeps of the classifier. *)
Definition keeps (this this' : exprClassifier) : Prop :=
  only_appends (baseKeyspaces this) (baseKeyspaces this') /\
  keyspaceNames this' = keyspaceNames this /\
  isOnclause this' = isOnclause this.

Lemma keeps_refl (this : exprClassifier) : keeps this this.
Proof. split; [apply only_appends_refl|done]. Qed.

Lemma keeps_trans (a b c : exprClassifier) : keeps a b -> keeps b c -> keeps a c.
Proof.
  intros (? & ? & ?) (? & ? & ?).
  split; [by eapply only_appends_trans|split; congruence].
Qed.

Lemma foldM_keeps {A : Type} (f : exprClassifier -> A -> Result exprClassifier)
    (l : list A) :
  (forall s a s', a ∈ l -> f s a = Done s' -> keeps s s') ->
  forall s s', foldM f s l = Done s' -> keeps s s'.
Proof.
  induction l as [|a l IH]; intros Hf s s'; simpl.
  - intros [= <-]. apply keeps_refl.
  - destruct (f s a) as [s1| |] eqn:Hfa; simpl; try done.
    intros Hrest. apply (keeps_trans _ s1).
    + eapply Hf; [left|done].
    + apply IH; [|done]. intros ? ? ? Hin. apply Hf. by right.
Qed.

Lemma visitDefault_keyspace_keeps
    (extract : exprClassifier -> Expression -> string -> Result Extracted)
    (dnfExpr : Expression) (origExpr : option Expression)
    (keyspaces : gset string) (isJoin : bool)
    (this this' : exprClassifier) (kspace : string) :
  visitDefault_keyspace extract dnfExpr origExpr keyspaces isJoin this kspace
    = Done this' ->
  keeps this this'.
Proof.
  unfold visitDefault_keyspace.
  destruct (baseKeyspaces this !! kspace) as [ks|] eqn:Hk; [|done].
  destruct (decide (size keyspaces = 1%nat)).
  { intros [= <-]. split; [|done]. simpl.
    eapply only_appends_insert; [done|apply appended_filter]. }
  set (fl := newFilter dnfExpr origExpr keyspaces (isOnclause this) isJoin).
  assert (keeps this
            (set_baseKeyspaces
               (<[kspace := append_joinfilter fl ks]> (baseKeyspaces this)) this))
    as Hjoin.
  { split; [|done]. simpl.
    eapply only_appends_insert; [done|apply appended_joinfilter]. }
  destruct (isOr dnfExpr); [|by intros [= <-]].
  destruct (extract _ _ _) as [[[[newPred newOrigPred] orIsJoin]|]| |];
    simpl; try done; [|by intros [= <-]].
  intros [= <-]. eapply keeps_trans; [exact Hjoin|].
  split; [|done]. simpl.
  eapply only_appends_insert; [apply lookup_insert_eq|apply appended_filter].
Qed.

Section classification.
Variable Ev : Expression -> EvalResult.
Variable CountKS : Expression -> gset string -> error + gset string.
Variable dnf : Expression -> error + Expression.
Variable flat : Expression -> option Expression * bool.
Variable copy : Table -> Table.

Lemma visitDefault_S (fuel : nat) (this : exprClassifier) (expr : Expression) :
  visitDefault Ev CountKS dnf flat copy (S fuel) this expr =
    if constantTrue Ev expr then Done this
    else
      match CountKS expr (keyspaceNames this) with
      | inl err => Failed err
      | inr keyspaces =>
          if decide (size keyspaces < 1)%nat then Done this
          else
            match dnf expr with
            | inl err => Failed err
            | inr dnfExpr =>
                if isAnd dnfExpr then
                  if decide (size keyspaces = 1%nat) then
                    bind (VisitAnd Ev CountKS dnf flat copy fuel
                            (set_recurseExpr
                               (match recurseExpr this with
                                | None => Some expr
                                | r => r
                                end)
                               (set_recursion true this))
                            (Children dnfExpr))
                      (fun this2 => Done (set_recursion (recursion this) this2))
                  else
                    bind (VisitAnd Ev CountKS dnf flat copy fuel
                            (set_recurseJoinExpr
                               (match recurseJoinExpr this with
                                | None => Some expr
                                | r => r
                                end)
                               (set_recursionJoin true this))
                            (Children dnfExpr))
                      (fun this2 =>
                         Done (set_recursionJoin (recursionJoin this) this2))
                else
                  let '(origExpr, this1) :=
                    if decide (size keyspaces = 1%nat) then
                      if recursion this then
                        match recurseExpr this with
                        | Some r => (Some r, set_recurseExpr None this)
                        | None => (None, this)
                        end
                      else (Some expr, this)
                    else
                      if recursionJoin this then
                        match recurseJoinExpr this with
                        | Some r => (Some r, set_recurseJoinExpr None this)
                        | None => (None, this)
                        end
                      else (Some expr, this) in
                  foldM (visitDefault_keyspace
                           (extractExpr Ev CountKS dnf flat copy fuel) dnfExpr
                           origExpr (remaining this1 keyspaces)
                           (bool_decide (1 < size keyspaces)%nat))
                        this1 (elements (remaining this1 keyspaces))
            end
      end.
Proof. reflexivity. Qed.

(** The two visitors keep the keyspaces and append to their filters. *)
Lemma visitors_keep (fuel : nat) :
  (forall this ops this',
     VisitAnd Ev CountKS dnf flat copy fuel this ops = Done this' ->
     keeps this this') /\
  (forall this expr this',
     visitDefault Ev CountKS dnf flat copy fuel this expr = Done this' ->
     keeps this this').
Proof.
  induction fuel as [|fuel [IHand IHdef]]; [by split|]. split.
  - intros this ops this'. rewrite VisitAnd_S. apply foldM_keeps.
    intros s op s' _. unfold Accept. destruct (isAnd op); eauto.
  - intros this expr this'. rewrite visitDefault_S.
    destruct (constantTrue Ev expr); [intros [= <-]; apply keeps_refl|].
    destruct (CountKS expr (keyspaceNames this)) as [err|keyspaces]; [done|].
    destruct (decide (size keyspaces < 1)%nat);
      [intros [= <-]; apply keeps_refl|].
    destruct (dnf expr) as [err|dnfExpr]; [done|].
    destruct (isAnd dnfExpr).
    + destruct (decide (size keyspaces = 1%nat)).
      * destruct (VisitAnd _ _ _ _ _ _ _ _) as [this2| |] eqn:Hand;
          simpl; try done.
        intros [= <-]. apply IHand in Hand as (Ht & Hn & Ho).
        by split.
      * destruct (VisitAnd _ _ _ _ _ _ _ _) as [this2| |] eqn:Hand;
          simpl; try done.
        intros [= <-]. apply IHand in Hand as (Ht & Hn & Ho).
        by split.
    + match goal with
      | |- (let '(_, _) := ?p in _) = _ -> _ =>
          assert (keeps this p.2) as Hthis1;
            [|destruct p as [origExpr this1]]
      end.
      { destruct (decide (size keyspaces = 1%nat)).
        - destruct (recursion this); [|apply keeps_refl].
          destruct (recurseExpr this); [|apply keeps_refl].
          split; [apply only_appends_refl|done].
        - destruct (recursionJoin this); [|apply keeps_refl].
          destruct (recurseJoinExpr this); [|apply keeps_refl].
          split; [apply only_appends_refl|done]. }
      simpl in Hthis1. intros Hfold.
      eapply keeps_trans; [exact Hthis1|].
      eapply foldM_keeps; [|exact Hfold].
      intros s k s' _. apply visitDefault_keyspace_keeps.
Qed.

(** X11.  Classification only appends: when [ClassifyExpr] returns, the
    table has the keys it had, every keyspace has the name and the
    plan-done mark it had, and its [filters] and [joinfilters] begin with
    the filters that were there before, in their order. *)
Theorem ClassifyExpr_only_appends (fuel : nat) (expr : Expression)
    (t t' : Table) (onclause : bool) :
  ClassifyExpr Ev CountKS dnf flat copy fuel expr t onclause = Done t' ->
  only_appends t t'.
Proof.
  destruct fuel as [|fuel]; [done|]. rewrite ClassifyExpr_S.
  destruct (decide (size t = 0%nat)); [done|].
  destruct (Accept _ _ _ _ _ _ _ _) as [this'| |] eqn:Hacc; simpl; try done.
  intros [= <-]. unfold Accept in Hacc.
  destruct (visitors_keep fuel) as [Hand Hdef].
  destruct (isAnd expr); [apply Hand in Hacc|apply Hdef in Hacc];
    by destruct Hacc as [? _].
Qed.

(** *** More allowance changes no result *)

Lemma bind_Done {A : Type} (r : Result A) : bind r Done = r.
Proof. by destruct r. Qed.

Lemma settles_as_refl {A : Type} (r : Result A) : settles_as r r.
Proof. by right. Qed.

Lemma settles_as_bind {A B : Type} (r r' : Result A) (f f' : A -> Result B) :
  settles_as r r' -> (forall a, settles_as (f a) (f' a)) ->
  settles_as (bind r f) (bind r' f').
Proof.
  intros [->| ->] Hf; [by left|]. destruct r'; simpl; [apply Hf|by right..].
Qed.

Lemma settles_as_foldM {S A : Type} (f f' : S -> A -> Result S) (l : list A) :
  (forall s a, settles_as (f s a) (f' s a)) ->
  forall s, settles_as (foldM f s l) (foldM f' s l).
Proof.
  intros Hf. induction l as [|a l IH]; intros s; simpl; [by right|].
  apply settles_as_bind; [apply Hf|apply IH].
Qed.

Lemma settles_as_trans {A : Type} (r1 r2 r3 : Result A) :
  settles_as r1 r2 -> settles_as r2 r3 -> settles_as r1 r3.
Proof. intros [->| ->]; [by left|done]. Qed.

Lemma settles_as_visitDefault_keyspace
    (extract extract' : exprClassifier -> Expression -> string -> Result Extracted)
    (dnfExpr : Expression) (origExpr : option Expression)
    (keyspaces : gset string) (isJoin : bool)
    (this : exprClassifier) (kspace : string) :
  (forall st e n, settles_as (extract st e n) (extract' st e n)) ->
  settles_as
    (visitDefault_keyspace extract dnfExpr origExpr keyspaces isJoin this kspace)
    (visitDefault_keyspace extract' dnfExpr origExpr keyspaces isJoin this kspace).
Proof.
  intros Hex. unfold visitDefault_keyspace.
  destruct (baseKeyspaces this !! kspace); [|by right].
  destruct (decide _); [by right|].
  destruct (isOr dnfExpr); [|by right].
  apply settles_as_bind; [apply Hex|]. intros a. by right.
Qed.

Lemma settles_as_extract_loop (classify classify' : Expression -> Result Table)
    (keyspaceName : string) (ops nt no : list Expression) (j : bool) :
  (forall op, settles_as (classify op) (classify' op)) ->
  settles_as (extract_loop classify keyspaceName ops nt no j)
    (extract_loop classify' keyspaceName ops nt no j).
Proof.
  intros Hc. revert nt no j.
  induction ops as [|op rest IH]; intros nt no j; simpl; [by right|].
  apply settles_as_bind; [apply Hc|]. intros t.
  destruct (match t !! keyspaceName with
            | Some kspace => collect (filters kspace) None None j
            | None => (None, None, j)
            end) as [[[newTerm|] newOrigTerm] j']; [apply IH|by right].
Qed.

(** One more unit of allowance changes no result that was reached. *)
Lemma allowance_S (fuel : nat) :
  (forall this ops,
     settles_as (VisitAnd Ev CountKS dnf flat copy fuel this ops)
       (VisitAnd Ev CountKS dnf flat copy (S fuel) this ops)) /\
  (forall this expr,
     settles_as (visitDefault Ev CountKS dnf flat copy fuel this expr)
       (visitDefault Ev CountKS dnf flat copy (S fuel) this expr)) /\
  (forall this or kname,
     settles_as (extractExpr Ev CountKS dnf flat copy fuel this or kname)
       (extractExpr Ev CountKS dnf flat copy (S fuel) this or kname)) /\
  (forall expr t on,
     settles_as (ClassifyExpr Ev CountKS dnf flat copy fuel expr t on)
       (ClassifyExpr Ev CountKS dnf flat copy (S fuel) expr t on)).
Proof.
  induction fuel as [|fuel (IHand & IHdef & IHex & IHcl)].
  { repeat split; intros; by left. }
  assert (forall this expr,
            settles_as (Accept Ev CountKS dnf flat copy fuel this expr)
              (Accept Ev CountKS dnf flat copy (S fuel) this expr)) as IHacc.
  { intros this expr. unfold Accept. destruct (isAnd expr); auto. }
  split; [|split; [|split]].
  - intros this ops. rewrite !VisitAnd_S. by apply settles_as_foldM.
  - intros this expr. rewrite !visitDefault_S.
    destruct (constantTrue Ev expr); [by right|].
    destruct (CountKS expr (keyspaceNames this)) as [err|keyspaces]; [by right|].
    destruct (decide (size keyspaces < 1)%nat); [by right|].
    destruct (dnf expr) as [err|dnfExpr]; [by right|].
    destruct (isAnd dnfExpr).
    + destruct (decide (size keyspaces = 1%nat));
        (apply settles_as_bind; [apply IHand|intros; by right]).
    + destruct (if decide (size keyspaces = 1%nat) then _ else _)
        as [origExpr this1].
      apply settles_as_foldM. intros s k.
      by apply settles_as_visitDefault_keyspace.
  - intros this or kname. rewrite !extractExpr_S.
    destruct (flat or) as [[orTerms|] truth]; [|by right].
    destruct truth; [by right|].
    apply settles_as_extract_loop. intros op. apply IHcl.
  - intros expr t on. rewrite !ClassifyExpr_S.
    destruct (decide (size t = 0%nat)); [by right|].
    apply settles_as_bind; [apply IHacc|intros; by right].
Qed.

Lemma visitDefault_allowance (n m : nat) (this : exprClassifier)
    (expr : Expression) :
  (n <= m)%nat ->
  settles_as (visitDefault Ev CountKS dnf flat copy n this expr)
    (visitDefault Ev CountKS dnf flat copy m this expr).
Proof.
  induction 1 as [|m _ IH]; [by right|].
  eapply settles_as_trans; [exact IH|]. apply allowance_S.
Qed.

Lemma Accept_allowance (n m : nat) (this : exprClassifier) (expr : Expression) :
  (n <= m)%nat ->
  settles_as (Accept Ev CountKS dnf flat copy n this expr)
    (Accept Ev CountKS dnf flat copy m this expr).
Proof.
  induction 1 as [|m _ IH]; [by right|].
  eapply settles_as_trans; [exact IH|].
  unfold Accept. destruct (isAnd expr); apply allowance_S.
Qed.

Lemma Accept_And (fuel : nat) (this : exprClassifier) (val : ValuePtr)
    (cond vol : bool) (ch : list Expression) :
  Accept Ev CountKS dnf flat copy (S fuel) this (Expr And val cond vol ch) =
    foldM (Accept Ev CountKS dnf flat copy fuel) this ch.
Proof. reflexivity. Qed.

Lemma Accept_other (fuel : nat) (this : exprClassifier) (expr : Expression) :
  isAnd expr = false ->
  Accept Ev CountKS dnf flat copy fuel this expr =
    visitDefault Ev CountKS dnf flat copy fuel this expr.
Proof. unfold Accept. by intros ->. Qed.

(** The classification of a predicate, against that of its conjuncts one
    after the other. *)
Lemma Accept_conjuncts_settle (fuel : nat) (expr : Expression) :
  forall this,
    settles_as (Accept Ev CountKS dnf flat copy fuel this expr)
      (foldM (visitDefault Ev CountKS dnf flat copy fuel) this (conjuncts expr)).
Proof.
  revert fuel.
  induction expr as [k val cond vol ch IH] using Expression_deep_ind.
  intros fuel this.
  destruct (isAnd (Expr k val cond vol ch)) eqn:Hand.
  - destruct k; try done. rewrite conjuncts_And.
    destruct fuel as [|fuel]; [by left|]. rewrite Accept_And.
    clear Hand. revert this.
    induction IH as [|c ch Hc Hch IHch]; intros this; [by right|].
    cbn [foldM flat_map]. rewrite foldM_app.
    apply settles_as_bind.
    + eapply settles_as_trans; [apply Hc|].
      apply settles_as_foldM. intros s a.
      apply visitDefault_allowance. lia.
    + intros s. apply IHch.
  - rewrite conjuncts_other by done. rewrite Accept_other by done.
    cbn [foldM]. rewrite bind_Done. by right.
Qed.

Lemma conjuncts_settle (fuel : nat) (expr : Expression) :
  forall this,
    settles_as
      (foldM (visitDefault Ev CountKS dnf flat copy fuel) this (conjuncts expr))
      (Accept Ev CountKS dnf flat copy (fuel + and_depth expr) this expr).
Proof.
  induction expr as [k val cond vol ch IH] using Expression_deep_ind.
  intros this.
  destruct (isAnd (Expr k val cond vol ch)) eqn:Hand.
  - destruct k; try done. rewrite conjuncts_And, and_depth_And.
    rewrite Nat.add_succ_r, Accept_And.
    clear Hand.
    assert (forall n, (foldr Nat.max 0 (and_depth <$> ch) <= n)%nat ->
              forall this,
                settles_as
                  (foldM (visitDefault Ev CountKS dnf flat copy fuel) this
                     (flat_map conjuncts ch))
                  (foldM (Accept Ev CountKS dnf flat copy (fuel + n)) this ch))
      as Hall; [|by apply Hall].
    intros n Hn. induction IH as [|c ch Hc Hch IHch]; intros this0; [by right|].
    rewrite fmap_cons in Hn. cbn [foldr] in Hn.
    cbn [foldM flat_map]. rewrite foldM_app.
    apply settles_as_bind.
    + eapply settles_as_trans; [apply Hc|]. apply Accept_allowance. lia.
    + intros s. apply IHch. lia.
  - rewrite conjuncts_other by done.
    cbn [foldM]. rewrite bind_Done. rewrite Accept_other by done.
    apply visitDefault_allowance. lia.
Qed.

(** X12.  Classifying a predicate is classifying its conjuncts, the
    operands of its ANDs with nested ANDs flattened, one after the other
    from left to right: the two give the same classifier, or the same
    error.  (The second needs no more allowance than the first, and the
    first the depth of the ANDs more than the second.) *)
Theorem Accept_conjuncts (fuel : nat) (this : exprClassifier)
    (expr : Expression) :
  settles_as (Accept Ev CountKS dnf flat copy fuel this expr)
    (foldM (visitDefault Ev CountKS dnf flat copy fuel) this (conjuncts expr)) /\
  settles_as
    (foldM (visitDefault Ev CountKS dnf flat copy fuel) this (conjuncts expr))
    (Accept Ev CountKS dnf flat copy (fuel + and_depth expr) this expr).
Proof. split; [apply Accept_conjuncts_settle|apply conjuncts_settle]. Qed.

End classification.

(** The theorem X11 at [a.x = 1 AND TRUE AND b.y = 2] and the table of [a]
    and [b]. *)
Lemma ClassifyExpr_only_appends_witness :
  exists t',
    ClassifyExpr_plain 3 and_pred (table_ab false) false = Done t' /\
    only_appends (table_ab false) t'.
Proof.
  destruct (ClassifyExpr_plain 3 and_pred (table_ab false) false)
    as [t'| |] eqn:Hc.
  - exists t'. split; [reflexivity|].
    exact (ClassifyExpr_only_appends (Evaluate None) CountKeySpaces
             dnfMap_plain flattenOr_plain copyBaseKeyspaces_fresh 3 and_pred
             (table_ab false) t' false Hc).
  - vm_compute in Hc. discriminate.
  - vm_compute in Hc. discriminate.
Defined.

End planner.


(* ===================================================================== *)
(** ** plan/builder.go                                                    *)
(* ===================================================================== *)

Module plan.

Definition error := string.

(** *** The algebra nodes the builder reads *)

(** An expression as [collectAggregates] sees it: an aggregate
    ([expr.(algebra.Aggregate)] succeeds) or any other node, over its
    children. *)
Inductive Expr :=
| Aggregate (name : string) (operands : list Expr)
| Plain (name : string) (operands : list Expr).

Record KeyspaceTerm := mkKeyspaceTerm {
  Namespace : string;
  Keyspace : string;
  Keys : option Expr
}.

(** The FROM clause. *)
Inductive FromTerm :=
| FromKeyspace (term : KeyspaceTerm)
| FromParent
| FromJoin (left_ : FromTerm) (right_ : KeyspaceTerm)
| FromNest (left_ : FromTerm) (right_ : KeyspaceTerm)
| FromUnnest (left_ : FromTerm) (expr : Expr).

Record Group := mkGroup {
  By : list Expr;
  Letting : option (list (string * Expr));
  Having : option Expr
}.

Record Projection := mkProjection {
  Distinct_ : bool;
  Terms : list Expr
}.

Record Subselect := mkSubselect {
  From : option FromTerm;
  Let_ : option (list (string * Expr));
  Where : option Expr;
  Group_ : option Group;
  Projection_ : Projection
}.

(** *** The catalog *)

Record KeyspaceInfo := mkKeyspaceInfo {
  ks_name : string;
  IndexByPrimary : error + string
}.

(** [site.NamespaceByName(ns)] and then [namespace.KeyspaceByName(ks)]. *)
Definition Site := string -> error + (string -> error + KeyspaceInfo).

(** *** Slices *)

(** A Go slice: the backing array it points into, its length and its
    capacity.  Two slices can share one backing array. *)
Record Slice := mkSlice {
  arr : nat;
  len : nat;
  cap : nat
}.

(** The plan operators the builder makes for a subselect.  A [Sequence]
    keeps the slice it was given ([NewSequence(children...)] receives the
    slice itself). *)
Inductive Operator :=
| DummyScan
| KeyScan (keys : Expr)
| PrimaryScan (index : string)
| Fetch (keyspace : KeyspaceInfo) (term : KeyspaceTerm)
| Join (keyspace : KeyspaceInfo) (right_ : KeyspaceTerm)
| Nest (keyspace : KeyspaceInfo) (right_ : KeyspaceTerm)
| Unnest (expr : Expr)
| Let (bindings : list (string * Expr))
| Filter (cond : Expr)
| InitialGroup (keys aggs : list Expr)
| IntermediateGroup (keys aggs : list Expr)
| FinalGroup (keys aggs : list Expr)
| InitialProject (projection : Projection)
| FinalProject
| Distinct
| Parallel (child : Operator)
| Sequence (children : Slice).

(** The memory of the backing arrays: each array holds the elements
    written so far. *)
Abbreviation Heap := (list (list Operator)).

(** [make([]Operator, 0, n)]: a new backing array. *)
Definition make (h : Heap) (n : nat) : Heap * Slice :=
  (h ++ [[]], mkSlice (length h) 0 n).

(** Writing the element of index [i] of an array. *)
Definition write (i : nat) (x : Operator) (a : list Operator) : list Operator :=
  if (i <? length a)%nat then <[i := x]> a else a ++ [x].

(** [append(s, x)]: within the capacity the element is written into the
    backing array, after the elements of the slice, and the array stays
    shared; beyond it the elements are copied to a new, larger array. *)
Definition append (h : Heap) (s : Slice) (x : Operator) : Heap * Slice :=
  if (len s <? cap s)%nat then
    (alter (write (len s) x) (arr s) h, mkSlice (arr s) (S (len s)) (cap s))
  else
    (h ++ [take (len s) (default [] (h !! arr s)) ++ [x]],
     mkSlice (length h) (S (len s)) (2 * S (len s))).

(** The elements of a slice. *)
Definition view (h : Heap) (s : Slice) : list Operator :=
  take (len s) (default [] (h !! arr s)).

(** *** The builder *)

(** [type builder struct], with the memory its slices point into. *)
Record builder := mkBuilder {
  site : Site;
  projectInitial : bool;
  children : Slice;
  subChildren : Slice;
  heap : Heap
}.

(** [this.children = append(this.children, op)]. *)
Definition append_children (this : builder) (op : Operator) : builder :=
  let '(h, s) := append (heap this) (children this) op in
  mkBuilder (site this) (projectInitial this) s (subChildren this) h.

(** [this.subChildren = append(this.subChildren, op)]. *)
Definition append_subChildren (this : builder) (op : Operator) : builder :=
  let '(h, s) := append (heap this) (subChildren this) op in
  mkBuilder (site this) (projectInitial this) (children this) s h.

(** [this.children = make([]Operator, 0, n)]. *)
Definition make_children (this : builder) (n : nat) : builder :=
  let '(h, s) := make (heap this) n in
  mkBuilder (site this) (projectInitial this) s (subChildren this) h.

(** [this.subChildren = make([]Operator, 0, n)]. *)
Definition make_subChildren (this : builder) (n : nat) : builder :=
  let '(h, s) := make (heap this) n in
  mkBuilder (site this) (projectInitial this) (children this) s h.

(** The two look-ups of a keyspace term. *)
Definition lookup_keyspace (this : builder) (ns ks : string)
  : error + KeyspaceInfo :=
  match site this ns with
  | inl err => inl err
  | inr namespace => namespace ks
  end.

(** [builder.VisitKeyspaceTerm]. *)
Definition VisitKeyspaceTerm (this : builder) (node : KeyspaceTerm)
  : error + builder :=
  match lookup_keyspace this (Namespace node) (Keyspace node) with
  | inl err => inl err
  | inr keyspace =>
      let scanned :=
        match Keys node with
        | Some keys => inr (append_children this (KeyScan keys))
        | None =>
            match IndexByPrimary keyspace with
            | inl err => inl err
            | inr index => inr (append_children this (PrimaryScan index))
            end
        end in
      match scanned with
      | inl err => inl err
      | inr this1 => inr (append_subChildren this1 (Fetch keyspace node))
      end
  end.

(** [node.From().Accept(this)]: [VisitKeyspaceTerm], [VisitParentTerm],
    [VisitJoin], [VisitNest] and [VisitUnnest]. *)
Fixpoint VisitFrom (this : builder) (node : FromTerm) : error + builder :=
  match node with
  | FromKeyspace term => VisitKeyspaceTerm this term
  | FromParent => inr this
  | FromJoin left_ right_ =>
      match VisitFrom this left_ with
      | inl err => inl err
      | inr this1 =>
          match lookup_keyspace this1 (Namespace right_) (Keyspace right_) with
          | inl err => inl err
          | inr keyspace => inr (append_subChildren this1 (Join keyspace right_))
          end
      end
  | FromNest left_ right_ =>
      match VisitFrom this left_ with
      | inl err => inl err
      | inr this1 =>
          match lookup_keyspace this1 (Namespace right_) (Keyspace right_) with
          | inl err => inl err
          | inr keyspace => inr (append_subChildren this1 (Nest keyspace right_))
          end
      end
  | FromUnnest left_ expr =>
      match VisitFrom this left_ with
      | inl err => inl err
      | inr this1 => inr (append_subChildren this1 (Unnest expr))
      end
  end.

(** [collectAggregates(aggs, expr)], and over a list of expressions. *)
Fixpoint collectAggregates (aggs : list Expr) (expr : Expr) : list Expr :=
  let over :=
    fix over (aggs : list Expr) (exprs : list Expr) : list Expr :=
      match exprs with
      | [] => aggs
      | e :: rest => over (collectAggregates aggs e) rest
      end in
  match expr with
  | Aggregate _ operands => over (aggs ++ [expr]) operands
  | Plain _ operands => over aggs operands
  end.

Definition collectAggregates_list (aggs : list Expr) (exprs : list Expr)
  : list Expr :=
  fold_left collectAggregates exprs aggs.

(** [builder.visitGroup]. *)
Definition visitGroup (this : builder) (group : Group) (aggs : list Expr)
  : builder :=
  let aggs :=
    match Letting group with
    | Some letting => collectAggregates_list aggs (snd <$> letting)
    | None => aggs
    end in
  let aggs :=
    match Having group with
    | Some having => collectAggregates aggs having
    | None => aggs
    end in
  let this := append_subChildren this (InitialGroup (By group) aggs) in
  let this := append_subChildren this (IntermediateGroup (By group) aggs) in
  let this := append_children this (Parallel (Sequence (subChildren this))) in
  let this := append_children this (IntermediateGroup (By group) aggs) in
  let this := append_children this (FinalGroup (By group) aggs) in
  let this := make_subChildren this 4 in
  let this :=
    match Letting group with
    | Some letting => append_subChildren this (Let letting)
    | None => this
    end in
  match Having group with
  | Some having => append_subChildren this (Filter having)
  | None => this
  end.

(** [builder.VisitSubselect]: the operator it returns and the builder
    after the call. *)
Definition VisitSubselect (this : builder) (node : Subselect)
  : error + (Operator * builder) :=
  let this := make_children this 8 in
  let this := make_subChildren this 16 in
  let from :=
    match From node with
    | Some from => VisitFrom this from
    | None => inr (append_children this DummyScan)
    end in
  match from with
  | inl err => inl err
  | inr this =>
      let this :=
        match Let_ node with
        | Some bindings => append_subChildren this (Let bindings)
        | None => this
        end in
      let this :=
        match Where node with
        | Some cond => append_subChildren this (Filter cond)
        | None => this
        end in
      let projection := Projection_ node in
      let aggs := collectAggregates_list [] (Terms projection) in
      let group :=
        match Group_ node with
        | Some group => Some group
        | None =>
            if (0 <? length aggs)%nat then Some (mkGroup [] None None)
            else None
        end in
      let this :=
        match group with
        | Some group => visitGroup this group aggs
        | None => this
        end in
      let this := append_subChildren this (InitialProject projection) in
      let this :=
        if Distinct_ projection then append_subChildren this FinalProject
        else this in
      let this := append_children this (Parallel (Sequence (subChildren this))) in
      let this :=
        if Distinct_ projection then append_subChildren this Distinct
        else this in
      inr (Sequence (children this), this)
  end.

(** The plan as a tree: the sequences read through the memory. *)
Inductive Plan :=
| Leaf (op : Operator)
| ParallelOf (child : Plan)
| SequenceOf (children : list Plan).

(** Reading an operator through the memory; [fuel] bounds the nesting of
    the sequences. *)
Fixpoint resolve (fuel : nat) (h : Heap) (op : Operator) : option Plan :=
  match fuel with
  | O => None
  | S fuel =>
      match op with
      | Parallel child => ParallelOf <$> resolve fuel h child
      | Sequence s => SequenceOf <$> mapM (resolve fuel h) (view h s)
      | _ => Some (Leaf op)
      end
  end.

(** A slice that points into the memory: its array exists and holds at
    least the elements of the slice. *)
Definition wf (h : Heap) (s : Slice) : Prop :=
  (arr s < length h)%nat /\ (len s <= length (default [] (h !! arr s)))%nat.

(** The two slices of the builder point into the memory, at different
    arrays, and neither holds a [Distinct]. *)
Definition Clean (this : builder) : Prop :=
  wf (heap this) (children this) /\
  wf (heap this) (subChildren this) /\
  arr (children this) <> arr (subChildren this) /\
  Forall (fun op => op <> Distinct) (view (heap this) (children this)) /\
  Forall (fun op => op <> Distinct) (view (heap this) (subChildren this)).

(** The builder and the catalog of the failing input of C8:
    [SELECT DISTINCT a FROM k]. *)
Definition site_k : Site :=
  fun ns => inr (fun ks => inr (mkKeyspaceInfo ks (inr "#primary"))).
Definition term_k : KeyspaceTerm := mkKeyspaceTerm "default" "k" None.
Definition select_distinct_a : Subselect :=
  mkSubselect (Some (FromKeyspace term_k)) None None None
    (mkProjection true [Plain "a" []]).
Definition newBuilder (site : Site) : builder :=
  mkBuilder site false (mkSlice 0 0 0) (mkSlice 0 0 0) [].

(* --------------------------------------------------------------------- *)

Lemma length_write (i : nat) (x : Operator) (a : list Operator) :
  (length a <= length (write i x a))%nat.
Proof.
  unfold write. destruct (i <? length a)%nat.
  - by rewrite length_insert.
  - rewrite length_app. lia.
Qed.

Lemma take_write (n i : nat) (x : Operator) (a : list Operator) :
  (n <= i)%nat -> (i <= length a)%nat -> take n (write i x a) = take n a.
Proof.
  intros Hn Hi. unfold write. destruct (i <? length a)%nat eqn:Hlt.
  - by apply take_insert_ge.
  - apply Nat.ltb_ge in Hlt. by rewrite take_app_le by lia.
Qed.

Lemma take_S_write (i : nat) (x : Operator) (a : list Operator) :
  (i <= length a)%nat -> take (S i) (write i x a) = take i a ++ [x].
Proof.
  intros Hi. unfold write. destruct (i <? length a)%nat eqn:Hlt.
  - apply Nat.ltb_lt in Hlt.
    rewrite (take_S_r _ _ x) by (by apply list_lookup_insert_eq).
    by rewrite take_insert_ge.
  - apply Nat.ltb_ge in Hlt. assert (i = length a) as -> by lia.
    rewrite (take_ge a) by lia.
    rewrite take_ge; [done|]. rewrite length_app. simpl. lia.
Qed.

(** [append] adds the element at the end of the slice and leaves alone
    every slice of another array, and every slice of the same array that
    is not longer than the one appended to. *)
Lemma append_spec (h : Heap) (s : Slice) (x : Operator) :
  wf h s ->
  wf (append h s x).1 (append h s x).2 /\
  view (append h s x).1 (append h s x).2 = view h s ++ [x] /\
  (arr (append h s x).2 = arr s \/ arr (append h s x).2 = length h) /\
  forall s2, wf h s2 ->
    arr s2 <> arr s \/ (len s2 <= len s)%nat ->
    wf (append h s x).1 s2 /\ view (append h s x).1 s2 = view h s2.
Proof.
  intros [Harr Hlen]. unfold append, view, wf.
  destruct (lookup_lt_is_Some_2 h (arr s) Harr) as [a Ha].
  rewrite Ha in Hlen. simpl in Hlen.
  destruct (len s <? cap s)%nat; simpl.
  - rewrite length_alter, list_lookup_alter_eq, Ha. simpl.
    split; [split; [done|]|].
    { pose proof (length_write (len s) x a). unfold write in *.
      destruct (len s <? length a)%nat eqn:Hlt.
      - apply Nat.ltb_lt in Hlt. rewrite length_insert. lia.
      - rewrite length_app. simpl. lia. }
    split; [by apply take_S_write|]. split; [by left|].
    intros s2 [Harr2 Hlen2] Hcase. split; [split; [done|]|].
    + destruct (decide (arr s2 = arr s)) as [Heq|Hne].
      * rewrite Heq, list_lookup_alter_eq, Ha in *. simpl in *.
        pose proof (length_write (len s) x a). lia.
      * by rewrite list_lookup_alter_ne.
    + destruct (decide (arr s2 = arr s)) as [Heq|Hne].
      * rewrite Heq, list_lookup_alter_eq, Ha in *. simpl in *.
        apply take_write; [|done]. destruct Hcase; [done|lia].
      * by rewrite list_lookup_alter_ne.
  - rewrite length_app. simpl.
    rewrite lookup_app_r by lia. rewrite Nat.sub_diag, Ha. simpl.
    split; [split; [lia|]|].
    { rewrite length_app, length_take. simpl. lia. }
    split.
    { rewrite take_ge; [done|]. rewrite length_app, length_take. simpl. lia. }
    split; [by right|].
    intros s2 [Harr2 Hlen2] _.
    rewrite lookup_app_l by done. split; [split; [lia|done]|done].
Qed.

(** [make] gives an empty slice of a new array and leaves the others. *)
Lemma make_spec (h : Heap) (n : nat) :
  wf (make h n).1 (make h n).2 /\
  view (make h n).1 (make h n).2 = [] /\
  arr (make h n).2 = length h /\
  forall s2, wf h s2 -> wf (make h n).1 s2 /\ view (make h n).1 s2 = view h s2.
Proof.
  unfold make, wf, view. simpl. rewrite length_app. simpl.
  split; [split; lia|]. split; [done|]. split; [done|].
  intros s2 [Harr2 Hlen2]. rewrite lookup_app_l by done.
  split; [split; [lia|done]|done].
Qed.

Lemma Clean_append_children (this : builder) (op : Operator) :
  op <> Distinct -> Clean this -> Clean (append_children this op).
Proof.
  intros Hop (Hc & Hs & Hne & Fc & Fs). unfold Clean, append_children.
  destruct (append_spec (heap this) (children this) op Hc)
    as (Hwf & Hview & Harr & Hother).
  destruct (Hother (subChildren this) Hs ltac:(left; congruence)) as [Hs' Hvs'].
  destruct (append (heap this) (children this) op) as [h s]. simpl in *.
  split; [done|]. split; [done|]. split.
  { destruct Hs as [Hlt _]. destruct Harr as [->| ->]; [done|lia]. }
  rewrite Hview, Hvs'. split; [|done].
  apply Forall_app. split; [done|]. by apply Forall_singleton.
Qed.

Lemma Clean_append_subChildren (this : builder) (op : Operator) :
  op <> Distinct -> Clean this -> Clean (append_subChildren this op).
Proof.
  intros Hop (Hc & Hs & Hne & Fc & Fs). unfold Clean, append_subChildren.
  destruct (append_spec (heap this) (subChildren this) op Hs)
    as (Hwf & Hview & Harr & Hother).
  destruct (Hother (children this) Hc ltac:(left; congruence)) as [Hc' Hvc'].
  destruct (append (heap this) (subChildren this) op) as [h s]. simpl in *.
  split; [done|]. split; [done|]. split.
  { destruct Hc as [Hlt _]. destruct Harr as [->| ->]; [done|lia]. }
  rewrite Hview, Hvc'. split; [done|].
  apply Forall_app. split; [done|]. by apply Forall_singleton.
Qed.

Lemma Clean_make_subChildren (this : builder) (n : nat) :
  Clean this -> Clean (make_subChildren this n).
Proof.
  intros (Hc & Hs & Hne & Fc & Fs). unfold Clean, make_subChildren.
  destruct (make_spec (heap this) n) as (Hwf & Hview & Harr & Hother).
  destruct (Hother (children this) Hc) as [Hc' Hvc'].
  destruct (make (heap this) n) as [h s]. simpl in *.
  split; [done|]. split; [done|]. split.
  { destruct Hc as [Hlt _]. lia. }
  rewrite Hview, Hvc'. split; [done|]. constructor.
Qed.

(** Whatever the builder was, after the two [make] of [VisitSubselect]
    its slices are new, empty and apart. *)
Lemma Clean_make_both (this : builder) (n m : nat) :
  Clean (make_subChildren (make_children this n) m).
Proof.
  unfold Clean, make_subChildren, make_children, make, wf, view. simpl.
  rewrite !length_app. simpl.
  rewrite lookup_app_l by (rewrite length_app; simpl; lia).
  rewrite lookup_app_r by lia. rewrite Nat.sub_diag. simpl.
  rewrite lookup_app_r by (rewrite length_app; simpl; lia).
  rewrite length_app. simpl.
  replace (length (heap this) + 1 - (length (heap this) + 1))%nat
    with 0%nat by lia. simpl.
  repeat split; try lia; constructor.
Qed.

Lemma Clean_VisitKeyspaceTerm (this this' : builder) (node : KeyspaceTerm) :
  Clean this -> VisitKeyspaceTerm this node = inr this' -> Clean this'.
Proof.
  intros HC. unfold VisitKeyspaceTerm.
  destruct (lookup_keyspace _ _ _) as [err|keyspace]; [done|].
  destruct (Keys node) as [keys|].
  - intros [= <-]. by repeat first
      [apply Clean_append_subChildren | apply Clean_append_children].
  - destruct (IndexByPrimary keyspace) as [err|index]; [done|].
    intros [= <-]. by repeat first
      [apply Clean_append_subChildren | apply Clean_append_children].
Qed.

Lemma Clean_VisitFrom (node : FromTerm) (this this' : builder) :
  Clean this -> VisitFrom this node = inr this' -> Clean this'.
Proof.
  revert this this'.
  induction node as [term| |l IH r|l IH r|l IH e]; intros this this' HC; simpl.
  - by apply Clean_VisitKeyspaceTerm.
  - by intros [= <-].
  - destruct (VisitFrom this l) as [err|this1] eqn:Hl; [done|].
    destruct (lookup_keyspace _ _ _) as [err|keyspace]; [done|].
    intros [= <-]. apply Clean_append_subChildren; [done|]. by eapply IH.
  - destruct (VisitFrom this l) as [err|this1] eqn:Hl; [done|].
    destruct (lookup_keyspace _ _ _) as [err|keyspace]; [done|].
    intros [= <-]. apply Clean_append_subChildren; [done|]. by eapply IH.
  - destruct (VisitFrom this l) as [err|this1] eqn:Hl; [done|].
    intros [= <-]. apply Clean_append_subChildren; [done|]. by eapply IH.
Qed.

Lemma Clean_visitGroup (this : builder) (group : Group) (aggs : list Expr) :
  Clean this -> Clean (visitGroup this group aggs).
Proof.
  intros HC. unfold visitGroup.
  destruct (Having group), (Letting group);
    by repeat first
      [ apply Clean_append_subChildren
      | apply Clean_make_subChildren
      | apply Clean_append_children ].
Qed.

(** The builder before the last two statements of [VisitSubselect]. *)
Lemma VisitSubselect_steps (this : builder) (node : Subselect)
    (op : Operator) (this' : builder) :
  VisitSubselect this node = inr (op, this') ->
  exists this3,
    Clean this3 /\
    let this4 :=
      append_children this3 (Parallel (Sequence (subChildren this3))) in
    this' = (if Distinct_ (Projection_ node)
             then append_subChildren this4 Distinct else this4) /\
    op = Sequence (children this').
Proof.
  unfold VisitSubselect.
  pose proof (Clean_make_both this 8 16) as HC.
  set (this1 := make_subChildren (make_children this 8) 16) in *.
  assert (forall t, (match From node with
                     | Some from => VisitFrom this1 from
                     | None => inr (append_children this1 DummyScan)
                     end) = inr t -> Clean t) as Hfrom.
  { intros t. destruct (From node) as [from|].
    - by apply Clean_VisitFrom.
    - intros [= <-]. by apply Clean_append_children. }
  destruct (match From node with Some _ => _ | None => _ end)
    as [err|this2]; [done|].
  specialize (Hfrom this2 eq_refl). clear HC.
  intros [= <- <-]. eexists. split; [|split; reflexivity].
  assert (forall t, Clean t ->
            Clean (if Distinct_ (Projection_ node)
                   then append_subChildren t FinalProject else t)) as Hfp.
  { intros t Ht. destruct (Distinct_ _); [|done].
    by apply Clean_append_subChildren. }
  apply Hfp. apply Clean_append_subChildren; [done|].
  assert (forall t g, Clean t ->
            Clean (match g with
                   | Some group =>
                       visitGroup t group
                         (collectAggregates_list [] (Terms (Projection_ node)))
                   | None => t
                   end)) as Hg.
  { intros t [g|] Ht; [|done]. by apply Clean_visitGroup. }
  apply Hg.
  destruct (Where node); [apply Clean_append_subChildren; [done|]|];
    (destruct (Let_ node); [by apply Clean_append_subChildren|done]).
Qed.

(** X3.  The plan of a DISTINCT subselect holds no final [Distinct]: the
    sequence the builder returns ends with the [Parallel] wrapper, no
    operator of it is a [Distinct], and neither is an operator of the
    sequence inside the wrapper.  The [Distinct] went to
    [this.subChildren], after the elements of the slice the inner
    sequence holds. *)
Lemma VisitSubselect_distinct_lost (this : builder) (node : Subselect)
    (op : Operator) (this' : builder) :
  Distinct_ (Projection_ node) = true ->
  VisitSubselect this node = inr (op, this') ->
  exists s sub pre,
    op = Sequence s /\
    view (heap this') s = pre ++ [Parallel (Sequence sub)] /\
    Forall (fun o => o <> Distinct) (view (heap this') s) /\
    Forall (fun o => o <> Distinct) (view (heap this') sub) /\
    view (heap this') (subChildren this') = view (heap this') sub ++ [Distinct].
Proof.
  intros Hd Hv.
  destruct (VisitSubselect_steps this node op this' Hv)
    as (this3 & HC & Hthis' & ->).
  rewrite Hd in Hthis'. cbv zeta in Hthis'.
  set (sub := subChildren this3) in *.
  set (this4 := append_children this3 (Parallel (Sequence sub))) in *.
  assert (Clean this4) as HC4 by (by apply Clean_append_children).
  destruct HC as (Hc & Hs & Hne & Fc & Fs).
  assert (arr sub <> arr (children this3)) as Hne' by (intros E; by apply Hne).
  (* the append of the wrapper to [children] *)
  destruct (append_spec (heap this3) (children this3) (Parallel (Sequence sub)) Hc)
    as (Hwf4 & Hview4 & _ & Hother4).
  destruct (Hother4 sub Hs ltac:(by left)) as [Hs4 Hvs4].
  assert (heap this4 = (append (heap this3) (children this3)
                          (Parallel (Sequence sub))).1 /\
          children this4 = (append (heap this3) (children this3)
                              (Parallel (Sequence sub))).2 /\
          subChildren this4 = sub) as (Hh4 & Hc4 & Hsub4).
  { unfold this4, append_children. by destruct (append _ _ _). }
  rewrite <- Hh4, <- Hc4 in *.
  (* the append of [Distinct] to [subChildren] *)
  destruct HC4 as (Hc4' & Hs4' & Hne4 & _ & _).
  destruct (append_spec (heap this4) (subChildren this4) Distinct Hs4')
    as (Hwf5 & Hview5 & _ & Hother5).
  destruct (Hother5 (children this4) Hc4' ltac:(by left)) as [_ Hvc5].
  destruct (Hother5 sub ltac:(by rewrite <- Hsub4) ltac:(right; by rewrite Hsub4))
    as [_ Hvs5].
  assert (heap this' = (append (heap this4) (subChildren this4) Distinct).1 /\
          children this' = children this4 /\
          subChildren this' = (append (heap this4) (subChildren this4) Distinct).2)
    as (Hh5 & Hc5 & Hsub5).
  { rewrite Hthis'. unfold append_subChildren.
    destruct (append (heap this4) (subChildren this4) Distinct) as [h5 s5].
    by simpl. }
  rewrite Hh5, Hc5, Hsub5.
  exists (children this4), sub, (view (heap this3) (children this3)).
  split; [done|]. rewrite Hvc5, Hvs5, Hview5, Hview4, Hsub4, Hvs4.
  split; [done|]. split; [|done].
  apply Forall_app. split; [done|]. by apply Forall_singleton.
Qed.

(** The lemma above at [SELECT DISTINCT a FROM k]. *)
Lemma VisitSubselect_distinct_lost_witness :
  exists op this' s sub pre,
    VisitSubselect (newBuilder site_k) select_distinct_a = inr (op, this') /\
    op = Sequence s /\
    view (heap this') s = pre ++ [Parallel (Sequence sub)] /\
    Forall (fun o => o <> Distinct) (view (heap this') s).
Proof.
  destruct (VisitSubselect_distinct_lost (newBuilder site_k) select_distinct_a
              _ _ eq_refl eq_refl)
    as (s & sub & pre & H1 & H2 & H3 & _).
  do 2 eexists. exists s, sub, pre. split; [reflexivity|]. by split.
Defined.

(** C8 at its failing input, [SELECT DISTINCT a FROM k].  The plan the
    builder returns is [Sequence(PrimaryScan, Parallel(Sequence(Fetch,
    InitialProject, FinalProject)))]: the [FinalProject] is inside the
    parallelized pipeline, and no [Distinct] follows the [Parallel]
    wrapper.  The [Distinct] is the fourth element of the backing array
    of [this.subChildren], which the inner sequence reads up to its
    length of three. *)
Theorem VisitSubselect_distinct_failing_input :
  exists op this',
    VisitSubselect (newBuilder site_k) select_distinct_a = inr (op, this') /\
    resolve 4 (heap this') op =
      Some (SequenceOf
              [Leaf (PrimaryScan "#primary");
               ParallelOf
                 (SequenceOf
                    [Leaf (Fetch (mkKeyspaceInfo "k" (inr "#primary")) term_k);
                     Leaf (InitialProject (mkProjection true [Plain "a" []]));
                     Leaf FinalProject])]) /\
    view (heap this') (subChildren this') =
      [Fetch (mkKeyspaceInfo "k" (inr "#primary")) term_k;
       InitialProject (mkProjection true [Plain "a" []]);
       FinalProject;
       Distinct].
Proof. do 2 eexists. split; [reflexivity|]. split; reflexivity. Qed.

(* --------------------------------------------------------------------- *)

(** *** The plan of a subselect as a tree *)

(** The nodes of an expression, each before its operands. *)
Fixpoint subterms (expr : Expr) : list Expr :=
  let over :=
    fix over (exprs : list Expr) : list Expr :=
      match exprs with
      | [] => []
      | e :: rest => subterms e ++ over rest
      end in
  match expr with
  | Aggregate _ operands => expr :: over operands
  | Plain _ operands => expr :: over operands
  end.

Definition is_aggregate (expr : Expr) : bool :=
  match expr with Aggregate _ _ => true | Plain _ _ => false end.

(** The two look-ups of a keyspace in the catalog. *)
Definition lookup (site : Site) (ns ks : string) : error + KeyspaceInfo :=
  match site ns with
  | inl err => inl err
  | inr namespace => namespace ks
  end.

(** What a FROM clause adds to the plan: the scan, and the operators of
    its terms from left to right. *)
Fixpoint from_plan (site : Site) (node : FromTerm)
  : error + (list Operator * list Operator) :=
  match node with
  | FromKeyspace term =>
      match lookup site (Namespace term) (Keyspace term) with
      | inl err => inl err
      | inr keyspace =>
          match Keys term with
          | Some keys => inr ([KeyScan keys], [Fetch keyspace term])
          | None =>
              match IndexByPrimary keyspace with
              | inl err => inl err
              | inr index => inr ([PrimaryScan index], [Fetch keyspace term])
              end
          end
      end
  | FromParent => inr ([], [])
  | FromJoin left_ right_ =>
      match from_plan site left_ with
      | inl err => inl err
      | inr (scans, ops) =>
          match lookup site (Namespace right_) (Keyspace right_) with
          | inl err => inl err
          | inr keyspace => inr (scans, ops ++ [Join keyspace right_])
          end
      end
  | FromNest left_ right_ =>
      match from_plan site left_ with
      | inl err => inl err
      | inr (scans, ops) =>
          match lookup site (Namespace right_) (Keyspace right_) with
          | inl err => inl err
          | inr keyspace => inr (scans, ops ++ [Nest keyspace right_])
          end
      end
  | FromUnnest left_ expr =>
      match from_plan site left_ with
      | inl err => inl err
      | inr (scans, ops) => inr (scans, ops ++ [Unnest expr])
      end
  end.

(** The group of a subselect: its GROUP BY, or an empty group when the
    projection has aggregates. *)
Definition group_of (node : Subselect) : option Group :=
  match Group_ node with
  | Some group => Some group
  | None =>
      if (0 <? length (collectAggregates_list [] (Terms (Projection_ node))))%nat
      then Some (mkGroup [] None None)
      else None
  end.

(** The aggregates of the projection, of LETTING and of HAVING. *)
Definition group_aggregates (node : Subselect) (group : Group) : list Expr :=
  let aggs := collectAggregates_list [] (Terms (Projection_ node)) in
  let aggs :=
    match Letting group with
    | Some letting => collectAggregates_list aggs (snd <$> letting)
    | None => aggs
    end in
  match Having group with
  | Some having => collectAggregates aggs having
  | None => aggs
  end.

(** The operators of the FROM clause, of LET and of WHERE. *)
Definition source_of (site : Site) (node : Subselect)
  : error + (list Operator * list Operator) :=
  match
    match From node with
    | Some from => from_plan site from
    | None => inr ([DummyScan], [])
    end
  with
  | inl err => inl err
  | inr (scans, ops) =>
      inr (scans,
           ops ++ option_list (Let <$> Let_ node)
               ++ option_list (Filter <$> Where node))
  end.

(** The projection at the end of the pipeline. *)
Definition project_of (node : Subselect) : list Operator :=
  InitialProject (Projection_ node) ::
  (if Distinct_ (Projection_ node) then [FinalProject] else []).

(** A sequence of operators that have no operands, run in parallel. *)
Definition parallel_pipeline (ops : list Operator) : Plan :=
  ParallelOf (SequenceOf (Leaf <$> ops)).

(** The plan of a subselect: the scan; with a group, the pipeline up to
    the intermediate grouping, and the two later stages of the grouping;
    and the pipeline that ends with the projection. *)
Definition subselect_plan (site : Site) (node : Subselect) : error + Plan :=
  match source_of site node with
  | inl err => inl err
  | inr (scans, ops) =>
      match group_of node with
      | None =>
          inr (SequenceOf
                 ((Leaf <$> scans) ++
                  [parallel_pipeline (ops ++ project_of node)]))
      | Some group =>
          let aggs := group_aggregates node group in
          inr (SequenceOf
                 ((Leaf <$> scans) ++
                  [parallel_pipeline
                     (ops ++ [InitialGroup (By group) aggs;
                              IntermediateGroup (By group) aggs]);
                   Leaf (IntermediateGroup (By group) aggs);
                   Leaf (FinalGroup (By group) aggs);
                   parallel_pipeline
                     (option_list (Let <$> Letting group) ++
                      option_list (Filter <$> Having group) ++
                      project_of node)]))
      end
  end.

(** An operator without operands. *)
Definition is_leaf (op : Operator) : bool :=
  match op with
  | Parallel _ | Sequence _ => false
  | _ => true
  end.

(** The state of the builder between two statements of [VisitSubselect]:
    the catalog [σ] and the flag [p]; the elements [c] and [s] of its two
    slices, which point into different arrays, none of them among the
    first [n] of the memory, which are [h0]; and the slices [held] by the
    sequences made so far, with their elements, out of reach of an
    append to either slice of the builder. *)
Definition Repr (σ : Site) (p : bool) (h0 : Heap)
    (held : list (Slice * list Operator))
    (this : builder) (c s : list Operator) : Prop :=
  site this = σ /\ projectInitial this = p /\
  wf (heap this) (children this) /\ wf (heap this) (subChildren this) /\
  arr (children this) <> arr (subChildren this) /\
  view (heap this) (children this) = c /\
  view (heap this) (subChildren this) = s /\
  (length h0 <= arr (children this))%nat /\
  (length h0 <= arr (subChildren this))%nat /\
  take (length h0) (heap this) = h0 /\
  Forall (fun sl : Slice * list Operator =>
            wf (heap this) sl.1 /\ view (heap this) sl.1 = sl.2 /\
            arr sl.1 <> arr (children this) /\
            (arr sl.1 <> arr (subChildren this) \/
             (len sl.1 <= len (subChildren this))%nat))
         held.

(* --------------------------------------------------------------------- *)

Lemma collectAggregates_over (aggs : list Expr) (exprs : list Expr) :
  Forall (fun e => forall aggs,
            collectAggregates aggs e = aggs ++ filter is_aggregate (subterms e))
         exprs ->
  fold_left collectAggregates exprs aggs =
    aggs ++ filter is_aggregate (flat_map subterms exprs).
Proof.
  intros Hall. revert aggs.
  induction Hall as [|e rest He Hrest IH]; intros aggs; simpl.
  - by rewrite app_nil_r.
  - by rewrite IH, He, filter_app, app_assoc.
Qed.

Lemma collectAggregates_unfold (aggs : list Expr) (expr : Expr) :
  collectAggregates aggs expr =
    match expr with
    | Aggregate _ operands => fold_left collectAggregates operands (aggs ++ [expr])
    | Plain _ operands => fold_left collectAggregates operands aggs
    end.
Proof.
  destruct expr as [name operands|name operands]; cbn [collectAggregates].
  - generalize (aggs ++ [Aggregate name operands]).
    induction operands as [|e rest IH]; intros l; [done|]. simpl. apply IH.
  - revert aggs. induction operands as [|e rest IH]; intros l; [done|].
    simpl. apply IH.
Qed.

Lemma subterms_unfold (expr : Expr) :
  subterms expr =
    expr :: flat_map subterms
              match expr with Aggregate _ ops | Plain _ ops => ops end.
Proof.
  destruct expr as [name operands|name operands]; cbn [subterms]; f_equal;
    induction operands as [|e rest IH]; simpl; by rewrite ?IH.
Qed.

Section Expr_ind.
Variable P : Expr -> Prop.
Hypothesis HAggregate : forall name ops, Forall P ops -> P (Aggregate name ops).
Hypothesis HPlain : forall name ops, Forall P ops -> P (Plain name ops).

Fixpoint Expr_deep_ind (e : Expr) : P e :=
  let go :=
    fix go (l : list Expr) : Forall P l :=
      match l with
      | [] => Stdlib.Lists.List.Forall_nil P
      | x :: l' => Stdlib.Lists.List.Forall_cons P x l' (Expr_deep_ind x) (go l')
      end in
  match e with
  | Aggregate name ops => HAggregate name ops (go ops)
  | Plain name ops => HPlain name ops (go ops)
  end.
End Expr_ind.

(** X13.  [collectAggregates] adds to the aggregates it is given those of
    the expression: every node of the expression that is an aggregate,
    also one inside an aggregate, each before those of its operands; the
    aggregates given stay in front. *)
Theorem collectAggregates_subterms (aggs : list Expr) (expr : Expr) :
  collectAggregates aggs expr = aggs ++ filter is_aggregate (subterms expr).
Proof.
  revert aggs. induction expr as [name ops IH|name ops IH] using Expr_deep_ind;
    intros aggs; rewrite collectAggregates_unfold, subterms_unfold.
  - rewrite collectAggregates_over by done.
    rewrite filter_cons. simpl. by rewrite <- app_assoc.
  - rewrite collectAggregates_over by done.
    by rewrite filter_cons.
Qed.

(* --------------------------------------------------------------------- *)

Lemma append_result (h : Heap) (s : Slice) (x : Operator) :
  len (append h s x).2 = S (len s) /\
  (arr (append h s x).2 = arr s \/ arr (append h s x).2 = length h).
Proof. unfold append. destruct (len s <? cap s)%nat; simpl; auto. Qed.

Lemma append_take (n : nat) (h : Heap) (s : Slice) (x : Operator) :
  (n <= arr s)%nat -> (n <= length h)%nat ->
  take n (append h s x).1 = take n h.
Proof.
  intros Hs Hh. unfold append. destruct (len s <? cap s)%nat; simpl.
  - by apply take_alter_ge.
  - by apply take_app_le.
Qed.

Section Repr_facts.
Variable σ : Site.
Variable p : bool.
Variable h0 : Heap.

Lemma Repr_append_children (held : list (Slice * list Operator))
    (this : builder) (c s : list Operator) (op : Operator) :
  Repr σ p h0 held this c s ->
  Repr σ p h0 held (append_children this op) (c ++ [op]) s.
Proof.
  intros (Hσ & Hp & Hc & Hs & Hne & Vc & Vs & Nc & Ns & Ht & Hheld).
  unfold Repr, append_children.
  destruct (append_spec (heap this) (children this) op Hc)
    as (Hwf & Hview & Harr & Hother).
  destruct (append_result (heap this) (children this) op) as [_ Harr'].
  pose proof (append_take (length h0) (heap this) (children this) op Nc) as Htake.
  destruct (Hother (subChildren this) Hs ltac:(left; congruence)) as [Hs' Hvs'].
  destruct (append (heap this) (children this) op) as [h sl]. simpl in *.
  assert (length h0 <= length (heap this))%nat as Hlen.
  { destruct Hc as [Hlt _]. lia. }
  split; [done|]. split; [done|]. split; [done|]. split; [done|]. split.
  { destruct Hs as [Hlt _]. destruct Harr as [->| ->]; [done|lia]. }
  split; [by rewrite Hview, Vc|]. split; [by rewrite Hvs'|].
  split; [destruct Harr as [->| ->]; lia|]. split; [done|].
  split; [by rewrite Htake|].
  eapply Forall_impl; [exact Hheld|].
  intros [sl0 l0] (Hw & Hv & Hn1 & Hn2). simpl in *.
  destruct (Hother sl0 Hw ltac:(by left)) as [Hw' Hv'].
  split; [done|]. split; [by rewrite Hv'|]. split; [|done].
  destruct Hw as [Hlt _]. destruct Harr as [->| ->]; [done|lia].
Qed.

Lemma Repr_append_subChildren (held : list (Slice * list Operator))
    (this : builder) (c s : list Operator) (op : Operator) :
  Repr σ p h0 held this c s ->
  Repr σ p h0 held (append_subChildren this op) c (s ++ [op]).
Proof.
  intros (Hσ & Hp & Hc & Hs & Hne & Vc & Vs & Nc & Ns & Ht & Hheld).
  unfold Repr, append_subChildren.
  destruct (append_spec (heap this) (subChildren this) op Hs)
    as (Hwf & Hview & Harr & Hother).
  destruct (append_result (heap this) (subChildren this) op) as [Hlen' _].
  pose proof (append_take (length h0) (heap this) (subChildren this) op Ns)
    as Htake.
  destruct (Hother (children this) Hc ltac:(left; congruence)) as [Hc' Hvc'].
  destruct (append (heap this) (subChildren this) op) as [h sl]. simpl in *.
  assert (length h0 <= length (heap this))%nat as Hlen.
  { destruct Hc as [Hlt _]. lia. }
  split; [done|]. split; [done|]. split; [done|]. split; [done|]. split.
  { destruct Hc as [Hlt _]. destruct Harr as [->| ->]; [done|lia]. }
  split; [by rewrite Hvc'|]. split; [by rewrite Hview, Vs|].
  split; [done|]. split; [destruct Harr as [->| ->]; lia|].
  split; [by rewrite Htake|].
  eapply Forall_impl; [exact Hheld|].
  intros [sl0 l0] (Hw & Hv & Hn1 & Hn2). simpl in *.
  destruct (Hother sl0 Hw Hn2) as [Hw' Hv'].
  split; [done|]. split; [by rewrite Hv'|]. split; [done|].
  destruct Hw as [Hlt _].
  destruct Harr as [->| ->]; [|left; lia].
  destruct Hn2 as [Hn2|Hn2]; [by left|right; lia].
Qed.

Lemma Repr_make_subChildren (held : list (Slice * list Operator))
    (this : builder) (c s : list Operator) (n : nat) :
  Repr σ p h0 held this c s ->
  Repr σ p h0 held (make_subChildren this n) c [].
Proof.
  intros (Hσ & Hp & Hc & Hs & Hne & Vc & Vs & Nc & Ns & Ht & Hheld).
  unfold Repr, make_subChildren.
  destruct (make_spec (heap this) n) as (Hwf & Hview & Harr & Hother).
  destruct (Hother (children this) Hc) as [Hc' Hvc'].
  assert (take (length h0) (make (heap this) n).1 = take (length h0) (heap this))
    as Htake.
  { unfold make. simpl. apply take_app_le. destruct Hc as [Hlt _]. lia. }
  destruct (make (heap this) n) as [h sl]. simpl in *.
  split; [done|]. split; [done|]. split; [done|]. split; [done|]. split.
  { destruct Hc as [Hlt _]. lia. }
  split; [by rewrite Hvc'|]. split; [done|]. split; [done|].
  split; [destruct Hc as [Hlt _]; lia|]. split; [by rewrite Htake|].
  eapply Forall_impl; [exact Hheld|].
  intros [sl0 l0] (Hw & Hv & Hn1 & Hn2). simpl in *.
  destruct (Hother sl0 Hw) as [Hw' Hv'].
  split; [done|]. split; [by rewrite Hv'|]. split; [done|].
  left. destruct Hw as [Hlt _]. lia.
Qed.

(** A sequence made of [this.subChildren] holds the slice as it is. *)
Lemma Repr_hold (held : list (Slice * list Operator))
    (this : builder) (c s : list Operator) :
  Repr σ p h0 held this c s ->
  Repr σ p h0 ((subChildren this, s) :: held) this c s.
Proof.
  intros (Hσ & Hp & Hc & Hs & Hne & Vc & Vs & Nc & Ns & Ht & Hheld).
  repeat (split; [done|]). constructor; [|done]. simpl.
  split; [done|]. split; [done|]. split; [congruence|]. by right.
Qed.

End Repr_facts.

(** Whatever the builder was, after the two [make] of [VisitSubselect]
    its slices are new and empty, and the memory is as before. *)
Lemma Repr_start (this : builder) (n m : nat) :
  Repr (site this) (projectInitial this) (heap this) []
    (make_subChildren (make_children this n) m) [] [].
Proof.
  unfold Repr, make_subChildren, make_children, make, wf, view. simpl.
  rewrite !length_app. simpl.
  rewrite lookup_app_l by (rewrite length_app; simpl; lia).
  rewrite lookup_app_r by lia. rewrite Nat.sub_diag. simpl.
  rewrite lookup_app_r by (rewrite length_app; simpl; lia).
  rewrite length_app. simpl.
  replace (length (heap this) + 1 - (length (heap this) + 1))%nat
    with 0%nat by lia. simpl.
  rewrite <- app_assoc, take_app_length.
  repeat split; try lia; constructor.
Qed.

Lemma lookup_keyspace_site (this : builder) (ns ks : string) :
  lookup_keyspace this ns ks = lookup (site this) ns ks.
Proof. done. Qed.

Lemma Repr_site σ p h0 held this c s : Repr σ p h0 held this c s -> site this = σ.
Proof. by intros [? _]. Qed.

(** [VisitFrom] against [from_plan]. *)
Lemma Repr_VisitFrom (σ : Site) (p : bool) (h0 : Heap)
    (held : list (Slice * list Operator)) (node : FromTerm) :
  forall this c s,
    Repr σ p h0 held this c s ->
    match VisitFrom this node with
    | inl err => from_plan σ node = inl err
    | inr this' =>
        exists scans ops,
          from_plan σ node = inr (scans, ops) /\
          Repr σ p h0 held this' (c ++ scans) (s ++ ops)
    end.
Proof.
  induction node as [term| |l IH r|l IH r|l IH e]; intros this c s HR;
    cbn [VisitFrom from_plan].
  - unfold VisitKeyspaceTerm. rewrite lookup_keyspace_site, (Repr_site _ _ _ _ _ _ _ HR).
    destruct (lookup σ _ _) as [err|keyspace]; [done|].
    destruct (Keys term) as [keys|].
    + do 2 eexists. split; [done|].
      by apply Repr_append_subChildren, Repr_append_children.
    + destruct (IndexByPrimary keyspace) as [err|index]; [done|].
      do 2 eexists. split; [done|].
      by apply Repr_append_subChildren, Repr_append_children.
  - exists [], []. split; [done|]. by rewrite !app_nil_r.
  - specialize (IH this c s HR).
    destruct (VisitFrom this l) as [err|this1]; [by rewrite IH|].
    destruct IH as (scans & ops & -> & HR1).
    rewrite lookup_keyspace_site, (Repr_site _ _ _ _ _ _ _ HR1).
    destruct (lookup σ _ _) as [err|keyspace]; [done|].
    do 2 eexists. split; [done|]. rewrite app_assoc.
    by apply Repr_append_subChildren.
  - specialize (IH this c s HR).
    destruct (VisitFrom this l) as [err|this1]; [by rewrite IH|].
    destruct IH as (scans & ops & -> & HR1).
    rewrite lookup_keyspace_site, (Repr_site _ _ _ _ _ _ _ HR1).
    destruct (lookup σ _ _) as [err|keyspace]; [done|].
    do 2 eexists. split; [done|]. rewrite app_assoc.
    by apply Repr_append_subChildren.
  - specialize (IH this c s HR).
    destruct (VisitFrom this l) as [err|this1]; [by rewrite IH|].
    destruct IH as (scans & ops & -> & HR1).
    do 2 eexists. split; [done|]. rewrite app_assoc.
    by apply Repr_append_subChildren.
Qed.

Lemma Repr_option_subChildren σ p h0 held this c s (o : option Operator) :
  Repr σ p h0 held this c s ->
  Repr σ p h0 held
    (match o with Some op => append_subChildren this op | None => this end)
    c (s ++ option_list o).
Proof.
  intros HR. destruct o as [op|]; simpl.
  - by apply Repr_append_subChildren.
  - by rewrite app_nil_r.
Qed.

Lemma Repr_visitGroup σ p h0 held this c s (node : Subselect) (group : Group) :
  Repr σ p h0 held this c s ->
  let aggs := group_aggregates node group in
  exists sl,
    Repr σ p h0
      ((sl, s ++ [InitialGroup (By group) aggs; IntermediateGroup (By group) aggs])
         :: held)
      (visitGroup this group (collectAggregates_list [] (Terms (Projection_ node))))
      (c ++ [Parallel (Sequence sl); IntermediateGroup (By group) aggs;
             FinalGroup (By group) aggs])
      (option_list (Let <$> Letting group) ++
       option_list (Filter <$> Having group)).
Proof.
  intros HR aggs. unfold visitGroup. fold (group_aggregates node group). fold aggs.
  apply (Repr_append_subChildren _ _ _ _ _ _ _ (InitialGroup (By group) aggs)) in HR.
  apply (Repr_append_subChildren _ _ _ _ _ _ _ (IntermediateGroup (By group) aggs))
    in HR.
  apply Repr_hold in HR.
  set (this2 := append_subChildren (append_subChildren this _) _) in *.
  exists (subChildren this2).
  apply (Repr_append_children _ _ _ _ _ _ _ (Parallel (Sequence (subChildren this2))))
    in HR.
  apply (Repr_append_children _ _ _ _ _ _ _ (IntermediateGroup (By group) aggs))
    in HR.
  apply (Repr_append_children _ _ _ _ _ _ _ (FinalGroup (By group) aggs)) in HR.
  apply (Repr_make_subChildren _ _ _ _ _ _ _ 4) in HR.
  apply (Repr_option_subChildren _ _ _ _ _ _ _ (Let <$> Letting group)) in HR.
  apply (Repr_option_subChildren _ _ _ _ _ _ _ (Filter <$> Having group)) in HR.
  rewrite <- !app_assoc in HR. simpl in HR.
  destruct (Letting group), (Having group); exact HR.
Qed.

(** The builder at the end of [VisitSubselect]. *)
Lemma VisitSubselect_Repr (this : builder) (node : Subselect) :
  match VisitSubselect this node with
  | inl err => source_of (site this) node = inl err
  | inr (op, this') =>
      exists scans ops sl rest,
        source_of (site this) node = inr (scans, ops) /\
        op = Sequence (children this') /\
        match group_of node with
        | None =>
            Repr (site this) (projectInitial this) (heap this)
              [(sl, ops ++ project_of node)] this'
              (scans ++ [Parallel (Sequence sl)]) rest
        | Some group =>
            let aggs := group_aggregates node group in
            exists sl0,
              Repr (site this) (projectInitial this) (heap this)
                [(sl, option_list (Let <$> Letting group) ++
                      option_list (Filter <$> Having group) ++ project_of node);
                 (sl0, ops ++ [InitialGroup (By group) aggs;
                               IntermediateGroup (By group) aggs])]
                this'
                (scans ++ [Parallel (Sequence sl0);
                           IntermediateGroup (By group) aggs;
                           FinalGroup (By group) aggs;
                           Parallel (Sequence sl)]) rest
        end
  end.
Proof.
  unfold VisitSubselect, source_of.
  pose proof (Repr_start this 8 16) as HR.
  set (this1 := make_subChildren (make_children this 8) 16) in *.
  set (σ := site this) in *. set (p := projectInitial this) in *.
  set (h0 := heap this) in *.
  assert (match
            match From node with
            | Some from => VisitFrom this1 from
            | None => inr (append_children this1 DummyScan)
            end
          with
          | inl err =>
              match From node with
              | Some from => from_plan σ from
              | None => inr ([DummyScan], [])
              end = inl err
          | inr this2 =>
              exists scans ops,
                match From node with
                | Some from => from_plan σ from
                | None => inr ([DummyScan], [])
                end = inr (scans, ops) /\
                Repr σ p h0 [] this2 scans ops
          end) as Hfrom.
  { destruct (From node) as [from|].
    - by apply (Repr_VisitFrom σ p h0 [] from this1 [] []).
    - exists [DummyScan], []. split; [done|].
      by apply (Repr_append_children σ p h0 [] this1 [] []). }
  destruct (match From node with
            | Some from => VisitFrom this1 from
            | None => inr (append_children this1 DummyScan)
            end) as [err|this2]; [by rewrite Hfrom|].
  destruct Hfrom as (scans & ops & -> & HR2). clear HR.
  apply (Repr_option_subChildren _ _ _ _ _ _ _ (Let <$> Let_ node)) in HR2.
  apply (Repr_option_subChildren _ _ _ _ _ _ _ (Filter <$> Where node)) in HR2.
  rewrite <- app_assoc in HR2.
  set (ops1 := ops ++ option_list (Let <$> Let_ node) ++
                 option_list (Filter <$> Where node)) in *.
  assert (match Where node with
          | Some cond =>
              append_subChildren
                match Let_ node with
                | Some bindings => append_subChildren this2 (Let bindings)
                | None => this2
                end (Filter cond)
          | None =>
              match Let_ node with
              | Some bindings => append_subChildren this2 (Let bindings)
              | None => this2
              end
          end =
          match Filter <$> Where node with
          | Some op =>
              append_subChildren
                match Let <$> Let_ node with
                | Some op0 => append_subChildren this2 op0
                | None => this2
                end op
          | None =>
              match Let <$> Let_ node with
              | Some op0 => append_subChildren this2 op0
              | None => this2
              end
          end) as -> by (by destruct (Where node), (Let_ node)).
  set (this3 := match Filter <$> Where node with
                | Some _ => _ | None => _ end) in *.
  fold (group_of node).
  assert (forall held this5 c s,
            Repr σ p h0 held this5 c s ->
            let this6 := append_subChildren this5 (InitialProject (Projection_ node)) in
            let this7 := if Distinct_ (Projection_ node)
                         then append_subChildren this6 FinalProject else this6 in
            let this8 := append_children this7 (Parallel (Sequence (subChildren this7))) in
            let this9 := if Distinct_ (Projection_ node)
                         then append_subChildren this8 Distinct else this8 in
            exists rest,
              Repr σ p h0 ((subChildren this7, s ++ project_of node) :: held)
                this9 (c ++ [Parallel (Sequence (subChildren this7))]) rest)
    as Hend.
  { intros held this5 c s H5 this6 this7 this8 this9.
    apply (Repr_append_subChildren _ _ _ _ _ _ _ (InitialProject (Projection_ node)))
      in H5. fold this6 in H5.
    assert (Repr σ p h0 held this7 c (s ++ project_of node)) as H7.
    { unfold this7, project_of. destruct (Distinct_ (Projection_ node)).
      - apply (Repr_append_subChildren _ _ _ _ _ _ _ FinalProject) in H5.
        by rewrite <- app_assoc in H5.
      - done. }
    apply Repr_hold in H7.
    apply (Repr_append_children _ _ _ _ _ _ _
             (Parallel (Sequence (subChildren this7)))) in H7.
    fold this8 in H7. unfold this9. clearbody this8.
    destruct (Distinct_ (Projection_ node)).
    - eexists. by apply Repr_append_subChildren.
    - by eexists. }
  destruct (group_of node) as [group|].
  - destruct (Repr_visitGroup σ p h0 [] this3 scans ops1 node group HR2)
      as (sl0 & HRg).
    cbv zeta in HRg.
    destruct (Hend _ _ _ _ HRg) as (rest & HRend). cbv zeta in HRend.
    rewrite <- !app_assoc in HRend. simpl in HRend.
    do 4 eexists. split; [done|]. split; [done|]. eexists. exact HRend.
  - destruct (Hend _ _ _ _ HR2) as (rest & HRend). cbv zeta in HRend.
    do 4 eexists. split; [done|]. split; [done|]. exact HRend.
Qed.

Lemma resolve_leaf (n : nat) (h : Heap) (op : Operator) :
  is_leaf op = true -> resolve (S n) h op = Some (Leaf op).
Proof. by destruct op. Qed.

Lemma resolve_leaves (n : nat) (h : Heap) (ops : list Operator) :
  Forall (fun op => is_leaf op = true) ops ->
  Forall2 (fun op plan => resolve (S n) h op = Some plan) ops (Leaf <$> ops).
Proof.
  induction 1 as [|op ops Hop Hops IH]; constructor; [|done].
  by apply resolve_leaf.
Qed.

Lemma resolve_pipeline (n : nat) (h : Heap) (sl : Slice) (ops : list Operator) :
  view h sl = ops -> Forall (fun op => is_leaf op = true) ops ->
  resolve (S (S (S n))) h (Parallel (Sequence sl)) = Some (parallel_pipeline ops).
Proof.
  intros Hv Hops.
  change (ParallelOf <$> (SequenceOf <$> mapM (resolve (S n) h) (view h sl))
          = Some (parallel_pipeline ops)).
  rewrite Hv. by rewrite (mapM_Some_2 _ _ _ (resolve_leaves n h ops Hops)).
Qed.

Lemma from_plan_leaves (site : Site) (node : FromTerm)
    (scans ops : list Operator) :
  from_plan site node = inr (scans, ops) ->
  Forall (fun op => is_leaf op = true) scans /\
  Forall (fun op => is_leaf op = true) ops.
Proof.
  revert scans ops.
  induction node as [term| |l IH r|l IH r|l IH e]; intros scans ops;
    cbn [from_plan].
  - destruct (lookup site _ _) as [err|keyspace]; [done|].
    destruct (Keys term) as [keys|].
    + intros [= <- <-]. by repeat constructor.
    + destruct (IndexByPrimary keyspace) as [err|index]; [done|].
      intros [= <- <-]. by repeat constructor.
  - intros [= <- <-]. by split.
  - destruct (from_plan site l) as [err|[scans0 ops0]]; [done|].
    destruct (lookup site _ _) as [err|keyspace]; [done|].
    intros [= <- <-]. destruct (IH _ _ eq_refl) as [? ?].
    split; [done|]. apply Forall_app. by repeat constructor.
  - destruct (from_plan site l) as [err|[scans0 ops0]]; [done|].
    destruct (lookup site _ _) as [err|keyspace]; [done|].
    intros [= <- <-]. destruct (IH _ _ eq_refl) as [? ?].
    split; [done|]. apply Forall_app. by repeat constructor.
  - destruct (from_plan site l) as [err|[scans0 ops0]]; [done|].
    intros [= <- <-]. destruct (IH _ _ eq_refl) as [? ?].
    split; [done|]. apply Forall_app. by repeat constructor.
Qed.

Lemma source_of_leaves (site : Site) (node : Subselect)
    (scans ops : list Operator) :
  source_of site node = inr (scans, ops) ->
  Forall (fun op => is_leaf op = true) scans /\
  Forall (fun op => is_leaf op = true) ops.
Proof.
  unfold source_of.
  destruct (match From node with Some _ => _ | None => _ end)
    as [err|[scans0 ops0]] eqn:Hfrom; [done|].
  intros [= <- <-].
  assert (Forall (fun op => is_leaf op = true) scans0 /\
          Forall (fun op => is_leaf op = true) ops0) as [? ?].
  { destruct (From node) as [from|].
    - by eapply from_plan_leaves.
    - injection Hfrom as <- <-. by repeat constructor. }
  split; [done|]. rewrite !Forall_app. split; [done|].
  split; [destruct (Let_ node)|destruct (Where node)]; by repeat constructor.
Qed.

Lemma project_of_leaves (node : Subselect) :
  Forall (fun op => is_leaf op = true) (project_of node).
Proof.
  unfold project_of. destruct (Distinct_ (Projection_ node));
    by repeat constructor.
Qed.

Lemma view_later (h h' : Heap) (s : Slice) :
  take (length h) h' = h -> wf h s -> view h' s = view h s.
Proof.
  intros Htake [Harr Hlen]. unfold view.
  rewrite <- (lookup_take_lt h' (length h) (arr s)) by done.
  by rewrite Htake.
Qed.

(** The plan of a subselect, read through the memory after the call or
    through a later memory that has the arrays of that one. *)
Lemma VisitSubselect_plan_later (this : builder) (node : Subselect) :
  match VisitSubselect this node with
  | inl err => subselect_plan (site this) node = inl err
  | inr (op, this') =>
      site this' = site this /\
      projectInitial this' = projectInitial this /\
      take (length (heap this)) (heap this') = heap this /\
      exists plan,
        subselect_plan (site this) node = inr plan /\
        forall h', take (length (heap this')) h' = heap this' ->
          resolve 4 h' op = Some plan
  end.
Proof.
  pose proof (VisitSubselect_Repr this node) as H. unfold subselect_plan.
  destruct (VisitSubselect this node) as [err|[op this']]; [by rewrite H|].
  destruct H as (scans & ops & sl & rest & Hsrc & -> & H). rewrite Hsrc.
  destruct (source_of_leaves _ _ _ _ Hsrc) as [Hscans Hops].
  destruct (group_of node) as [group|].
  - destruct H as (sl0 & H). cbv zeta in H.
    destruct H as (Hσ & Hp & Hc & _ & _ & Hv & _ & _ & _ & Ht & Hheld).
    apply Forall_cons in Hheld as [(Hwsl & Hsl & _) Hheld].
    apply Forall_cons in Hheld as [(Hwsl0 & Hsl0 & _) _].
    simpl in Hsl, Hsl0, Hwsl, Hwsl0.
    split; [done|]. split; [done|]. split; [done|].
    eexists. split; [done|]. intros h' Hh'.
    change (resolve 4 h' (Sequence (children this')))
      with (SequenceOf <$> mapM (resolve 3 h') (view h' (children this'))).
    rewrite (view_later _ _ _ Hh' Hc), Hv.
    erewrite mapM_Some_2; [done|].
    apply Forall2_app; [by apply resolve_leaves|].
    repeat constructor.
    + apply resolve_pipeline; [by rewrite (view_later _ _ _ Hh' Hwsl0)|].
      apply Forall_app. by repeat constructor.
    + apply resolve_pipeline; [by rewrite (view_later _ _ _ Hh' Hwsl)|].
      rewrite !Forall_app.
      split; [destruct (Letting group); by repeat constructor|].
      split; [destruct (Having group); by repeat constructor|].
      apply project_of_leaves.
  - destruct H as (Hσ & Hp & Hc & _ & _ & Hv & _ & _ & _ & Ht & Hheld).
    apply Forall_cons in Hheld as [(Hwsl & Hsl & _) _]. simpl in Hsl, Hwsl.
    split; [done|]. split; [done|]. split; [done|].
    eexists. split; [done|]. intros h' Hh'.
    change (resolve 4 h' (Sequence (children this')))
      with (SequenceOf <$> mapM (resolve 3 h') (view h' (children this'))).
    rewrite (view_later _ _ _ Hh' Hc), Hv.
    erewrite mapM_Some_2; [done|].
    apply Forall2_app; [by apply resolve_leaves|].
    repeat constructor.
    apply resolve_pipeline; [by rewrite (view_later _ _ _ Hh' Hwsl)|].
    apply Forall_app. split; [done|apply project_of_leaves].
Qed.

(** X14.  The plan of a subselect, read through the memory, is the tree
    of [subselect_plan]: the sequence of the scan of the FROM clause (a
    dummy scan without one), for a grouped subselect the pipeline of the
    FROM, LET and WHERE operators up to the initial and the intermediate
    grouping, an intermediate and the final grouping, and then the
    pipeline that ends with the projection; [VisitSubselect] fails with
    the error of the catalog when a keyspace of the FROM clause is not
    found. *)
Theorem VisitSubselect_plan (this : builder) (node : Subselect) :
  match VisitSubselect this node with
  | inl err => subselect_plan (site this) node = inl err
  | inr (op, this') =>
      exists plan,
        subselect_plan (site this) node = inr plan /\
        resolve 4 (heap this') op = Some plan
  end.
Proof.
  pose proof (VisitSubselect_plan_later this node) as H.
  destruct (VisitSubselect this node) as [err|[op this']]; [done|].
  destruct H as (_ & _ & _ & plan & Hplan & Hres).
  exists plan. split; [done|]. apply Hres. by rewrite firstn_all.
Qed.

(** X15.  [VisitSubselect] writes to no array that was in the memory
    before the call: the arrays of the builder before the call are the
    first arrays after it, with the elements they had, so that a plan
    built before, by the same builder for the first operand of a UNION,
    is not changed by the next. *)
Theorem VisitSubselect_keeps_memory (this this' : builder) (node : Subselect)
    (op : Operator) :
  VisitSubselect this node = inr (op, this') ->
  take (length (heap this)) (heap this') = heap this /\
  forall s, wf (heap this) s -> view (heap this') s = view (heap this) s.
Proof.
  intros Hv. pose proof (VisitSubselect_Repr this node) as H.
  rewrite Hv in H. destruct H as (scans & ops & sl & rest & _ & _ & H).
  assert (take (length (heap this)) (heap this') = heap this) as Htake.
  { destruct (group_of node); [destruct H as [sl0 H]|];
      by destruct H as (_ & _ & _ & _ & _ & _ & _ & _ & _ & Ht & _). }
  split; [done|]. intros s [Harr Hlen]. unfold view.
  rewrite <- (lookup_take_lt (heap this') (length (heap this)) (arr s)) by done.
  by rewrite Htake.
Qed.

(** The theorem X15 at a second [SELECT DISTINCT a FROM k] of the same
    builder. *)
Lemma VisitSubselect_keeps_memory_witness :
  exists op1 this1 op2 this2,
    VisitSubselect (newBuilder site_k) select_distinct_a = inr (op1, this1) /\
    VisitSubselect this1 select_distinct_a = inr (op2, this2) /\
    take (length (heap this1)) (heap this2) = heap this1.
Proof.
  destruct (VisitSubselect (newBuilder site_k) select_distinct_a)
    as [err|[op1 this1]] eqn:H1; [vm_compute in H1; discriminate|].
  destruct (VisitSubselect this1 select_distinct_a)
    as [err|[op2 this2]] eqn:H2.
  { vm_compute in H1. injection H1 as <- <-. vm_compute in H2. discriminate. }
  exists op1, this1, op2, this2. split; [done|]. split; [done|].
  exact (proj1 (VisitSubselect_keeps_memory this1 this2 select_distinct_a op2 H2)).
Defined.

(* ===================================================================== *)
(** *** SELECT, UNION and the other statements *)

(** The result of a SELECT: a subselect, or a union of two results. *)
Inductive Subresult :=
| SubselectResult (node : Subselect)
| Union (first second : Subresult)
| UnionAll (first second : Subresult).

Record Select := mkSelect {
  Subresult_ : Subresult;
  Order_ : option (list Expr);
  Offset_ : option Expr;
  Limit_ : option Expr
}.

(** The statements the builder visits. *)
Inductive Node :=
| SelectNode (node : Select)
| InsertNode
| UpsertNode
| DeleteNode
| UpdateNode
| MergeNode
| CreateIndexNode (name : string)
| DropIndexNode (name : string)
| AlterIndexNode (name : string)
| ExplainNode (statement : Node).

(** The operators made around the plans of the subselects.  [Of op] is
    an operator of [VisitSubselect], read through the memory of the
    builder; the sequences made here are over a slice of their own
    ([make([]Operator, 0, 5)] in [VisitSelect], to which at most five
    elements are appended, and the two operands of [NewSequence] in
    [VisitUnion]), given by its elements. *)
Inductive Op :=
| Of (op : Operator)
| OrderOp (terms : list Expr)
| OffsetOp (expr : Expr)
| LimitOp (expr : Expr)
| UnionAllOp (first second : Op)
| SequenceOp (children : list Op)
| CreateIndexOp (name : string)
| DropIndexOp (name : string)
| AlterIndexOp (name : string)
| ExplainOp (op : Op).

(** [this.projectInitial = b]. *)
Definition set_projectInitial (b : bool) (this : builder) : builder :=
  mkBuilder (site this) b (children this) (subChildren this) (heap this).

(** [node.Accept(this)] for a subresult: [VisitSubselect], [VisitUnion]
    and [VisitUnionAll]. *)
Fixpoint VisitSubresult (this : builder) (node : Subresult)
  : error + (Op * builder) :=
  match node with
  | SubselectResult node =>
      match VisitSubselect this node with
      | inl err => inl err
      | inr (op, this') => inr (Of op, this')
      end
  | Union first_ second_ =>
      let this := set_projectInitial false this in
      match VisitSubresult this first_ with
      | inl err => inl err
      | inr (first, this) =>
          match VisitSubresult this second_ with
          | inl err => inl err
          | inr (second, this) =>
              let unionAll := UnionAllOp first second in
              let distinct := Of Distinct in
              inr (SequenceOp [unionAll; distinct], this)
          end
      end
  | UnionAll first_ second_ =>
      let this := set_projectInitial false this in
      match VisitSubresult this first_ with
      | inl err => inl err
      | inr (first, this) =>
          match VisitSubresult this second_ with
          | inl err => inl err
          | inr (second, this) => inr (UnionAllOp first second, this)
          end
      end
  end.

(** [builder.VisitSelect]. *)
Definition VisitSelect (this : builder) (node : Select)
  : error + (Op * builder) :=
  let order := Order_ node in
  let offset := Offset_ node in
  let limit := Limit_ node in
  let this :=
    match order with
    | Some _ => set_projectInitial true this
    | None => this
    end in
  match VisitSubresult this (Subresult_ node) with
  | inl err => inl err
  | inr (sub, this) =>
      match order, offset, limit with
      | None, None, None => inr (sub, this)
      | _, _, _ =>
          let children := [sub] in
          let children :=
            match order with
            | Some order => children ++ [OrderOp order]
            | None => children
            end in
          let children :=
            match offset with
            | Some offset => children ++ [OffsetOp offset]
            | None => children
            end in
          let children :=
            match limit with
            | Some limit => children ++ [LimitOp limit]
            | None => children
            end in
          let children :=
            if projectInitial this
            then children ++ [Of (Parallel FinalProject)]
            else children in
          inr (SequenceOp children, this)
      end
  end.

(** What a visit of a statement gives: the [interface{}] it returns,
    which is nil or an operator, with the builder after the visit; an
    error; or a panic. *)
Inductive Visited :=
| Visit_ok (op : option Op) (this : builder)
| Visit_err (err : error)
| Visit_panic.

(** [node.Accept(this)] for a statement: [VisitSelect], the visitors of
    the DML statements, which return nil, those of the DDL statements,
    and [VisitExplain], whose [op.(Operator)] panics on nil. *)
Fixpoint Accept (this : builder) (node : Node) : Visited :=
  match node with
  | SelectNode node =>
      match VisitSelect this node with
      | inl err => Visit_err err
      | inr (op, this) => Visit_ok (Some op) this
      end
  | InsertNode | UpsertNode | DeleteNode | UpdateNode | MergeNode =>
      Visit_ok None this
  | CreateIndexNode name => Visit_ok (Some (CreateIndexOp name)) this
  | DropIndexNode name => Visit_ok (Some (DropIndexOp name)) this
  | AlterIndexNode name => Visit_ok (Some (AlterIndexOp name)) this
  | ExplainNode statement =>
      match Accept this statement with
      | Visit_ok (Some op) this => Visit_ok (Some (ExplainOp op)) this
      | Visit_ok None _ => Visit_panic
      | Visit_err err => Visit_err err
      | Visit_panic => Visit_panic
      end
  end.

(** The outcome of [Build]: the operator with the memory it is read
    through, an error, or a panic. *)
Inductive Built :=
| Build_ok (op : Op) (h : Heap)
| Build_err (err : error)
| Build_panic.

(** [Build(node, site)]. *)
Definition Build (node : Node) (site : Site) : Built :=
  let builder := newBuilder site in
  match Accept builder node with
  | Visit_err err => Build_err err
  | Visit_panic => Build_panic
  | Visit_ok (Some op) this => Build_ok op (heap this)
  | Visit_ok None _ => Build_panic
  end.

(** The statement under the EXPLAINs. *)
Fixpoint statement_of (node : Node) : Node :=
  match node with
  | ExplainNode statement => statement_of statement
  | _ => node
  end.

Definition is_DML (node : Node) : bool :=
  match node with
  | InsertNode | UpsertNode | DeleteNode | UpdateNode | MergeNode => true
  | _ => false
  end.

(** The plan of a statement as a tree. *)
Inductive Tree :=
| SubselectTree (plan : Plan)
| OrderTree (terms : list Expr)
| OffsetTree (expr : Expr)
| LimitTree (expr : Expr)
| UnionAllTree (first second : Tree)
| SequenceTree (children : list Tree)
| CreateIndexTree (name : string)
| DropIndexTree (name : string)
| AlterIndexTree (name : string)
| ExplainTree (child : Tree).

(** Reading an operator through the memory. *)
Fixpoint read (h : Heap) (op : Op) : option Tree :=
  match op with
  | Of op => SubselectTree <$> resolve 4 h op
  | OrderOp terms => Some (OrderTree terms)
  | OffsetOp expr => Some (OffsetTree expr)
  | LimitOp expr => Some (LimitTree expr)
  | UnionAllOp first second =>
      match read h first, read h second with
      | Some first, Some second => Some (UnionAllTree first second)
      | _, _ => None
      end
  | SequenceOp children =>
      SequenceTree <$>
        (fix all (children : list Op) : option (list Tree) :=
           match children with
           | [] => Some []
           | child :: rest =>
               match read h child, all rest with
               | Some child, Some rest => Some (child :: rest)
               | _, _ => None
               end
           end) children
  | CreateIndexOp name => Some (CreateIndexTree name)
  | DropIndexOp name => Some (DropIndexTree name)
  | AlterIndexOp name => Some (AlterIndexTree name)
  | ExplainOp op => ExplainTree <$> read h op
  end.

(** The plan of a subresult: that of a subselect; for UNION ALL the
    union of the plans of the two operands, and for UNION the same
    followed by a [Distinct]. *)
Fixpoint subresult_plan (site : Site) (node : Subresult) : error + Tree :=
  match node with
  | SubselectResult node =>
      match subselect_plan site node with
      | inl err => inl err
      | inr plan => inr (SubselectTree plan)
      end
  | Union first second =>
      match subresult_plan site first with
      | inl err => inl err
      | inr first =>
          match subresult_plan site second with
          | inl err => inl err
          | inr second =>
              inr (SequenceTree [UnionAllTree first second;
                                 SubselectTree (Leaf Distinct)])
          end
      end
  | UnionAll first second =>
      match subresult_plan site first with
      | inl err => inl err
      | inr first =>
          match subresult_plan site second with
          | inl err => inl err
          | inr second => inr (UnionAllTree first second)
          end
      end
  end.

Definition is_subselect (node : Subresult) : bool :=
  match node with SubselectResult _ => true | _ => false end.

(** The plan of a SELECT by a builder whose flag [projectInitial] is
    [p]: the plan of the subresult, followed, when there is one of them,
    by ORDER BY, OFFSET and LIMIT, and then by the final projection when
    the subresult is a subselect and there is an ORDER BY or the flag was
    set. *)
Definition select_plan (site : Site) (p : bool) (node : Select) : error + Tree :=
  match subresult_plan site (Subresult_ node) with
  | inl err => inl err
  | inr sub =>
      match Order_ node, Offset_ node, Limit_ node with
      | None, None, None => inr sub
      | order, offset, limit =>
          inr (SequenceTree
                 ([sub] ++ option_list (OrderTree <$> order)
                        ++ option_list (OffsetTree <$> offset)
                        ++ option_list (LimitTree <$> limit)
                        ++ (if is_subselect (Subresult_ node) &&
                               (p || bool_decide (is_Some order))
                            then [SubselectTree (ParallelOf (Leaf FinalProject))]
                            else [])))
      end
  end.

(* --------------------------------------------------------------------- *)

Lemma take_take_later (h1 h2 h3 : Heap) :
  take (length h1) h2 = h1 -> take (length h2) h3 = h2 ->
  take (length h1) h3 = h1.
Proof.
  intros H12 H23.
  assert (length h1 <= length h2)%nat as Hle.
  { rewrite <- H12 at 1. rewrite length_take. lia. }
  rewrite <- H23 in H12. rewrite take_take in H12.
  by rewrite Nat.min_l in H12.
Qed.

(** [VisitSubresult] against [subresult_plan]. *)
Lemma VisitSubresult_plan (node : Subresult) :
  forall this,
    match VisitSubresult this node with
    | inl err => subresult_plan (site this) node = inl err
    | inr (op, this') =>
        site this' = site this /\
        projectInitial this' =
          (if is_subselect node then projectInitial this else false) /\
        take (length (heap this)) (heap this') = heap this /\
        exists tree,
          subresult_plan (site this) node = inr tree /\
          forall h', take (length (heap this')) h' = heap this' ->
            read h' op = Some tree
    end.
Proof.
  induction node as [node|first IH1 second IH2|first IH1 second IH2];
    intros this; cbn [VisitSubresult subresult_plan is_subselect].
  - pose proof (VisitSubselect_plan_later this node) as H.
    destruct (VisitSubselect this node) as [err|[op this']]; [by rewrite H|].
    destruct H as (Hσ & Hp & Ht & plan & -> & Hres).
    split; [done|]. split; [done|]. split; [done|].
    eexists. split; [done|]. intros h' Hh'. cbn [read]. by rewrite (Hres h' Hh').
  - specialize (IH1 (set_projectInitial false this)).
    destruct (VisitSubresult (set_projectInitial false this) first)
      as [err|[op1 this1]]; [simpl in IH1; by rewrite IH1|].
    destruct IH1 as (Hσ1 & Hp1 & Ht1 & t1 & Hplan1 & Hres1).
    simpl in Hσ1, Ht1, Hplan1. rewrite Hplan1.
    specialize (IH2 this1).
    destruct (VisitSubresult this1 second) as [err|[op2 this2]];
      [rewrite Hσ1 in IH2; by rewrite IH2|].
    destruct IH2 as (Hσ2 & Hp2 & Ht2 & t2 & Hplan2 & Hres2).
    rewrite Hσ1 in Hplan2. rewrite Hplan2.
    split; [congruence|]. split.
    { rewrite Hp2, Hp1. simpl.
      by destruct (is_subselect second), (is_subselect first). }
    split; [by eapply take_take_later|].
    eexists. split; [done|]. intros h' Hh'. cbn [read].
    rewrite (Hres1 h' (take_take_later _ _ _ Ht2 Hh')), (Hres2 h' Hh').
    done.
  - specialize (IH1 (set_projectInitial false this)).
    destruct (VisitSubresult (set_projectInitial false this) first)
      as [err|[op1 this1]]; [simpl in IH1; by rewrite IH1|].
    destruct IH1 as (Hσ1 & Hp1 & Ht1 & t1 & Hplan1 & Hres1).
    simpl in Hσ1, Ht1, Hplan1. rewrite Hplan1.
    specialize (IH2 this1).
    destruct (VisitSubresult this1 second) as [err|[op2 this2]];
      [rewrite Hσ1 in IH2; by rewrite IH2|].
    destruct IH2 as (Hσ2 & Hp2 & Ht2 & t2 & Hplan2 & Hres2).
    rewrite Hσ1 in Hplan2. rewrite Hplan2.
    split; [congruence|]. split.
    { rewrite Hp2, Hp1. simpl.
      by destruct (is_subselect second), (is_subselect first). }
    split; [by eapply take_take_later|].
    eexists. split; [done|]. intros h' Hh'. cbn [read].
    by rewrite (Hres1 h' (take_take_later _ _ _ Ht2 Hh')), (Hres2 h' Hh').
Qed.

(** X16.  The plan of a SELECT, read through the memory, is the tree of
    [select_plan]: the plan of the subselect or of the union, as it is
    when there is no ORDER BY, OFFSET or LIMIT, and otherwise in a
    sequence with their operators, in that order, and a final projection
    for a subselect with an ORDER BY.  A UNION is the UNION ALL of the
    plans of its two operands, each as it was built, followed by a
    [Distinct]. *)
Theorem VisitSelect_plan (this : builder) (node : Select) :
  match VisitSelect this node with
  | inl err => select_plan (site this) (projectInitial this) node = inl err
  | inr (op, this') =>
      exists tree,
        select_plan (site this) (projectInitial this) node = inr tree /\
        read (heap this') op = Some tree
  end.
Proof.
  unfold VisitSelect, select_plan.
  set (this0 := match Order_ node with
                | Some _ => set_projectInitial true this
                | None => this
                end).
  assert (site this0 = site this /\
          projectInitial this0 =
            projectInitial this || bool_decide (is_Some (Order_ node)))
    as [Hσ0 Hp0].
  { unfold this0. destruct (Order_ node); simpl; [by rewrite orb_true_r|].
    by rewrite orb_false_r. }
  pose proof (VisitSubresult_plan (Subresult_ node) this0) as H.
  destruct (VisitSubresult this0 (Subresult_ node)) as [err|[sub this1]];
    [by rewrite <- Hσ0, H|].
  destruct H as (Hσ1 & Hp1 & _ & t & Hplan & Hres).
  rewrite Hσ0 in Hplan. rewrite Hplan.
  specialize (Hres (heap this1) ltac:(by rewrite firstn_all)).
  rewrite Hp1, Hp0. clearbody this0.
  destruct (Order_ node) as [order|], (Offset_ node) as [offset|],
    (Limit_ node) as [limit|], (is_subselect (Subresult_ node)),
    (projectInitial this); simpl.
  all: eexists; (split; [reflexivity|]).
  all: try exact Hres.
  all: by rewrite Hres.
Qed.

Definition unusable (r : Visited) : Prop :=
  match r with
  | Visit_panic | Visit_ok None _ => True
  | _ => False
  end.

Lemma Accept_unusable (node : Node) (this : builder) :
  unusable (Accept this node) <-> is_DML (statement_of node) = true.
Proof.
  induction node as [node| | | | | | | | |statement IH];
    cbn [Accept statement_of is_DML unusable]; try done.
  - destruct (VisitSelect this node) as [err|[op this']]; simpl; by split.
  - rewrite <- IH. destruct (Accept this statement) as [[op|] this'| |];
      simpl; by split.
Qed.

(** X17.  [Build] panics exactly on the DML statements: the visitors of
    INSERT, UPSERT, DELETE, UPDATE and MERGE return nil, which is no
    operator, also for [VisitExplain] over one of them; a SELECT and the
    DDL statements give an operator or an error. *)
Theorem Build_panics_on_DML (node : Node) (site : Site) :
  Build node site = Build_panic <-> is_DML (statement_of node) = true.
Proof.
  rewrite <- (Accept_unusable node (newBuilder site)). unfold Build.
  destruct (Accept (newBuilder site) node) as [[op|] this'| |]; simpl;
    by split.
Qed.

End plan.


(* ===================================================================== *)
(** ** execution/scan_index2.go: DistinctScan                             *)
(* ===================================================================== *)

Module execution.

(** A Go [interface{}] as the attachments hold them: nil, a string, a
    number, a boolean, or a [map[string]interface{}]. *)
Inductive Any :=
| ANil
| AString (s : string)
| ANumber (n : Z)
| ABool (b : bool)
| AMap (m : gmap string Any).

(** [value.AnnotatedValue]: the value, its attachments, and the bit of
    the operator that sent it. *)
Record AnnotatedValue := mkAnnotatedValue {
  actual : value.Value;
  attachments : gmap string Any;
  bit : nat
}.

(** [item.GetAttachment(key)]: nil when there is none. *)
Definition GetAttachment (item : AnnotatedValue) (key : string) : Any :=
  default ANil (attachments item !! key).

(** [item.SetBit(b)]. *)
Definition SetBit (item : AnnotatedValue) (b : nat) : AnnotatedValue :=
  mkAnnotatedValue (actual item) (attachments item) b.

(** [errors.NewInvalidValueError(fmt.Sprintf(msg, v, v))]: the message
    and the value it prints. *)
Inductive Error :=
| NewInvalidValueError (msg : string) (v : Any).

(** The errors published by [context.Error], in order. *)
Abbreviation Context := (list Error).

(** [type DistinctScan struct]: the key set, the bit of the operator, and
    the items forwarded on its item channel, in order. *)
Record DistinctScan := mkDistinctScan {
  keys : gset string;
  this_bit : nat;
  output : list AnnotatedValue
}.

Section DistinctScan.

(** [this.sendItem(item)] of the operator base: whether the item is
    delivered on the item channel, given what was delivered before; it is
    not when the operator has been stopped. *)
Variable delivers : list AnnotatedValue -> AnnotatedValue -> bool.

(** [base.sendItem]. *)
Definition sendItem (this : DistinctScan) (item : AnnotatedValue)
  : bool * DistinctScan :=
  if delivers (output this) item
  then (true, mkDistinctScan (keys this) (this_bit this) (output this ++ [item]))
  else (false, this).

(** [DistinctScan.processKey]: whether the scan goes on, the operator and
    the context after the call. *)
Definition processKey (this : DistinctScan) (item : AnnotatedValue)
    (context : Context) (limit : Z) : bool * DistinctScan * Context :=
  let m := GetAttachment item "meta" in
  match m with
  | AMap meta =>
      let k := default ANil (meta !! "id") in
      match k with
      | AString key =>
          if decide (key ∈ keys this) then (true, this, context)
          else if (0 <? limit) && (limit <=? Z.of_nat (size (keys this)))
          then (false, this, context)
          else
            let this1 :=
              mkDistinctScan ({[ key ]} ∪ keys this) (this_bit this)
                (output this) in
            let item1 := SetBit item (this_bit this) in
            let '(ok, this2) := sendItem this1 item1 in
            (ok, this2, context)
      | _ =>
          (false, this,
           context ++ [NewInvalidValueError
                         "Missing or invalid primary key %v of type %T." k])
      end
  | _ =>
      (false, this,
       context ++ [NewInvalidValueError
                     "Missing or invalid meta %v of type %T." m])
  end.

(** The loop of [RunOnce] over the items of the inner scan: it goes on
    while [processKey] returns true. *)
Fixpoint run (this : DistinctScan) (context : Context) (limit : Z)
    (items : list AnnotatedValue) : DistinctScan * Context :=
  match items with
  | [] => (this, context)
  | item :: rest =>
      let '(ok, this1, context1) := processKey this item context limit in
      if ok then run this1 context1 limit rest else (this1, context1)
  end.

End DistinctScan.

(** [this.keys = _STRING_BOOL_POOL.Get()]: the operator at the start of
    [RunOnce], with an empty key set from the pool. *)
Definition started (b : nat) : DistinctScan := mkDistinctScan ∅ b [].

(** The primary key of an item: the string under ["id"] of the map under
    ["meta"], when there is one. *)
Definition primary_key (item : AnnotatedValue) : option string :=
  match GetAttachment item "meta" with
  | AMap meta =>
      match default ANil (meta !! "id") with
      | AString key => Some key
      | _ => None
      end
  | _ => None
  end.

(** Every forwarded item has a key of the key set, no two have the same
    key, and there are no more forwarded items than keys. *)
Definition distinct_so_far (this : DistinctScan) : Prop :=
  Forall (fun item => exists key, primary_key item = Some key /\ key ∈ keys this)
         (output this) /\
  NoDup (omap primary_key (output this)) /\
  (length (output this) <= size (keys this))%nat.

(** The error [processKey] publishes for an item without a primary key:
    about the meta attachment when that is no map, about the ["id"] entry
    otherwise. *)
Definition invalid_value_error (item : AnnotatedValue) : Error :=
  match GetAttachment item "meta" with
  | AMap meta =>
      NewInvalidValueError "Missing or invalid primary key %v of type %T."
        (default ANil (meta !! "id"))
  | m => NewInvalidValueError "Missing or invalid meta %v of type %T." m
  end.

(** Example items: with the primary key [key], and without a meta
    attachment. *)
Definition item_with_key (key : string) : AnnotatedValue :=
  mkAnnotatedValue value.NULL_VALUE
    {[ "meta" := AMap {[ "id" := AString key ]} ]} 0.
Definition item_without_meta : AnnotatedValue :=
  mkAnnotatedValue value.NULL_VALUE ∅ 0.

(* --------------------------------------------------------------------- *)

Section DistinctScan_facts.
Variable delivers : list AnnotatedValue -> AnnotatedValue -> bool.

Lemma primary_key_SetBit (item : AnnotatedValue) (b : nat) :
  primary_key (SetBit item b) = primary_key item.
Proof. done. Qed.

(** [processKey] on an item with a primary key. *)
Lemma processKey_key (this : DistinctScan) (item : AnnotatedValue)
    (context : Context) (limit : Z) (key : string) :
  primary_key item = Some key ->
  processKey delivers this item context limit =
    if decide (key ∈ keys this) then (true, this, context)
    else if (0 <? limit) && (limit <=? Z.of_nat (size (keys this)))
    then (false, this, context)
    else
      let '(ok, this2) :=
        sendItem delivers
          (mkDistinctScan ({[ key ]} ∪ keys this) (this_bit this) (output this))
          (SetBit item (this_bit this)) in
      (ok, this2, context).
Proof.
  unfold primary_key, processKey.
  destruct (GetAttachment item "meta"); try done.
  destruct (default ANil (m !! "id")); try done. by intros [= ->].
Qed.

(** [processKey] on an item without a primary key. *)
Lemma processKey_no_key (this : DistinctScan) (item : AnnotatedValue)
    (context : Context) (limit : Z) :
  primary_key item = None ->
  processKey delivers this item context limit =
    (false, this, context ++ [invalid_value_error item]).
Proof.
  unfold primary_key, processKey, invalid_value_error.
  destruct (GetAttachment item "meta"); try done.
  by destruct (default ANil (m !! "id")).
Qed.

Lemma omap_primary_key_elem (key : string) (l : list AnnotatedValue)
    (X : gset string) :
  Forall (fun item => exists k, primary_key item = Some k /\ k ∈ X) l ->
  key ∈ omap primary_key l -> key ∈ X.
Proof.
  intros Hall Hin. apply list_elem_of_omap in Hin as (item & Hitem & Hkey).
  rewrite Forall_forall in Hall.
  destruct (Hall item Hitem) as (k & Hk & HX). congruence.
Qed.

(** [processKey] keeps the forwarded items distinct, and within the
    limit. *)
Lemma processKey_distinct (this : DistinctScan) (item : AnnotatedValue)
    (context : Context) (limit : Z) :
  distinct_so_far this ->
  (0 < limit -> Z.of_nat (length (output this)) <= limit) ->
  distinct_so_far (processKey delivers this item context limit).1.2 /\
  (0 < limit ->
   Z.of_nat (length (output (processKey delivers this item context limit).1.2))
     <= limit).
Proof.
  intros (Hall & Hnd & Hlen) Hlim.
  destruct (primary_key item) as [key|] eqn:Hkey.
  - rewrite (processKey_key _ _ _ _ key Hkey).
    destruct (decide (key ∈ keys this)) as [Hin|Hin]; [done|].
    destruct ((0 <? limit) && (limit <=? Z.of_nat (size (keys this)))) eqn:Hfull;
      [done|].
    assert (size ({[ key ]} ∪ keys this) = S (size (keys this))) as Hsize.
    { rewrite size_union by set_solver. by rewrite size_singleton. }
    unfold sendItem. cbn [output keys this_bit].
    destruct (delivers _ _); unfold distinct_so_far; cbn [fst snd output keys].
    + split; [split; [|split]|].
      * apply Forall_app. split.
        -- eapply Forall_impl; [exact Hall|].
           intros it (k & Hk & HX). exists k. split; [done|set_solver].
        -- apply Forall_singleton. exists key.
           rewrite primary_key_SetBit. split; [done|set_solver].
      * rewrite omap_app. cbn [omap list_omap]. rewrite primary_key_SetBit, Hkey.
        apply NoDup_app. split; [done|]. split; [|apply NoDup_singleton].
        intros k Hk Hk'. apply list_elem_of_singleton in Hk' as ->.
        apply Hin. by eapply omap_primary_key_elem.
      * rewrite length_app, Hsize. simpl. lia.
      * intros Hpos. rewrite length_app. simpl.
        apply andb_false_iff in Hfull as [Hfull|Hfull]; [lia|].
        apply Z.leb_gt in Hfull. lia.
    + split; [split; [|split]|done].
      * eapply Forall_impl; [exact Hall|].
        intros it (k & Hk & HX). exists k. split; [done|set_solver].
      * done.
      * rewrite Hsize. lia.
  - by rewrite (processKey_no_key _ _ _ _ Hkey).
Qed.

Lemma run_distinct (items : list AnnotatedValue) (this : DistinctScan)
    (context : Context) (limit : Z) :
  distinct_so_far this ->
  (0 < limit -> Z.of_nat (length (output this)) <= limit) ->
  distinct_so_far (run delivers this context limit items).1 /\
  (0 < limit ->
   Z.of_nat (length (output (run delivers this context limit items).1)) <= limit).
Proof.
  revert this context.
  induction items as [|item rest IH]; intros this context Hd Hl; [done|].
  cbn [run].
  destruct (processKey_distinct this item context limit Hd Hl) as [Hd1 Hl1].
  destruct (processKey delivers this item context limit) as [[ok this1] context1].
  destruct ok; [by apply IH|done].
Qed.

(** C9.  [DistinctScan] forwards each primary key at most once: whatever
    the items of the inner scan are, the forwarded items all have a
    primary key and no two have the same; an item whose key is already in
    the key set is consumed without being forwarded, and the scan goes
    on; with a positive limit, once the key set has reached the limit an
    item with a new key stops the scan without being forwarded, and never
    more than [limit] items are forwarded. *)
Theorem DistinctScan_at_most_once (b : nat) (limit : Z)
    (items : list AnnotatedValue) :
  let this' := (run delivers (started b) [] limit items).1 in
  NoDup (omap primary_key (output this')) /\
  Forall (fun item => is_Some (primary_key item)) (output this') /\
  (0 < limit -> Z.of_nat (length (output this')) <= limit) /\
  (forall this item context key,
     primary_key item = Some key -> key ∈ keys this ->
     processKey delivers this item context limit = (true, this, context)) /\
  (forall this item context key,
     primary_key item = Some key -> key ∉ keys this ->
     0 < limit -> limit <= Z.of_nat (size (keys this)) ->
     processKey delivers this item context limit = (false, this, context)).
Proof.
  intros this'.
  destruct (run_distinct items (started b) [] limit) as [(Hall & Hnd & _) Hlim].
  { split; [constructor|]. split; [constructor|]. simpl. lia. }
  { simpl. lia. }
  fold this' in Hall, Hnd, Hlim.
  split; [done|]. split.
  { eapply Forall_impl; [exact Hall|]. intros it (k & Hk & _). by exists k. }
  split; [done|]. split.
  - intros this item context key Hkey Hin.
    rewrite (processKey_key _ _ _ _ key Hkey). by rewrite decide_True.
  - intros this item context key Hkey Hin Hpos Hfull.
    rewrite (processKey_key _ _ _ _ key Hkey). rewrite decide_False by done.
    assert ((0 <? limit) && (limit <=? Z.of_nat (size (keys this))) = true)
      as ->; [|done].
    apply andb_true_iff. split; [by apply Z.ltb_lt | by apply Z.leb_le].
Qed.

(** C10.  For an item without a primary key (its "meta" attachment is
    absent or no string-keyed map, or the "id" entry of the map is absent
    or no string) [processKey] publishes an invalid-value error through
    the context and returns false; the operator is as before, so the item
    is not forwarded, and the loop of the scan ends there. *)
Theorem processKey_invalid_item (this : DistinctScan) (item : AnnotatedValue)
    (context : Context) (limit : Z) :
  primary_key item = None ->
  processKey delivers this item context limit =
    (false, this, context ++ [invalid_value_error item]) /\
  (forall rest,
     run delivers this context limit (item :: rest) =
       (this, context ++ [invalid_value_error item])) /\
  (forall meta, GetAttachment item "meta" = AMap meta ->
     invalid_value_error item =
       NewInvalidValueError "Missing or invalid primary key %v of type %T."
         (default ANil (meta !! "id"))) /\
  ((forall meta, GetAttachment item "meta" <> AMap meta) ->
   invalid_value_error item =
     NewInvalidValueError "Missing or invalid meta %v of type %T."
       (GetAttachment item "meta")).
Proof.
  intros Hkey. split; [by apply processKey_no_key|]. split.
  - intros rest. cbn [run]. by rewrite (processKey_no_key _ _ _ _ Hkey).
  - unfold invalid_value_error. split.
    + by intros meta ->.
    + intros Hno. destruct (GetAttachment item "meta") as [| | | |meta]; try done.
      by destruct (Hno meta).
Qed.

End DistinctScan_facts.

(** The theorem of C9 at a second item with the key of the first. *)
Lemma DistinctScan_at_most_once_witness :
  processKey (fun _ _ => true)
    (mkDistinctScan {[ "k1" ]} 0 [item_with_key "k1"])
    (item_with_key "k1") [] 0
  = (true, mkDistinctScan {[ "k1" ]} 0 [item_with_key "k1"], []).
Proof.
  apply (proj1 (proj2 (proj2 (proj2
           (DistinctScan_at_most_once (fun _ _ => true) 0 0 []))))
         _ _ _ "k1").
  - reflexivity.
  - set_solver.
Defined.

(** The theorem of C10 at an item without a meta attachment. *)
Lemma processKey_invalid_item_witness :
  processKey (fun _ _ => true) (started 0) item_without_meta [] 0
  = (false, started 0,
     [NewInvalidValueError "Missing or invalid meta %v of type %T." ANil]).
Proof.
  apply (proj1 (processKey_invalid_item (fun _ _ => true) (started 0)
                  item_without_meta [] 0 eq_refl)).
Defined.

(* --------------------------------------------------------------------- *)

(** *** What [DistinctScan] forwards *)

(** The items that carry a primary key for the first time, [seen] being
    the keys met before; the walk ends at an item without a primary
    key. *)
Fixpoint first_by_key (seen : gset string) (items : list AnnotatedValue)
  : list AnnotatedValue :=
  match items with
  | [] => []
  | item :: rest =>
      match primary_key item with
      | Some key =>
          if decide (key ∈ seen) then first_by_key seen rest
          else item :: first_by_key ({[ key ]} ∪ seen) rest
      | None => []
      end
  end.

(** At most [limit] items, all of them when the limit is not positive. *)
Definition within (limit : Z) (items : list AnnotatedValue)
  : list AnnotatedValue :=
  if 0 <? limit then take (Z.to_nat limit) items else items.

Lemma within_nil (limit : Z) : within limit [] = [].
Proof. unfold within. destruct (0 <? limit); [by rewrite take_nil|done]. Qed.

(** The loop of [RunOnce] with a consumer that takes every item, from an
    operator that has forwarded as many items as it has keys. *)
Lemma run_first_by_key (items : list AnnotatedValue) :
  forall (this : DistinctScan) (context : Context) (limit : Z),
    length (output this) = size (keys this) ->
    output (run (fun _ _ => true) this context limit items).1 =
      output this ++
      ((fun item => SetBit item (this_bit this)) <$>
         (if 0 <? limit
          then take (Z.to_nat (limit - Z.of_nat (size (keys this))))
                 (first_by_key (keys this) items)
          else first_by_key (keys this) items)).
Proof.
  induction items as [|item rest IH]; intros this context limit Hlen.
  { simpl. destruct (0 <? limit); by rewrite ?take_nil, app_nil_r. }
  cbn [run first_by_key].
  destruct (primary_key item) as [key|] eqn:Hkey.
  - rewrite (processKey_key _ _ _ _ _ key Hkey).
    destruct (decide (key ∈ keys this)) as [Hin|Hin]; [by apply IH|].
    destruct (0 <? limit) eqn:Hpos; simpl.
    + destruct (limit <=? Z.of_nat (size (keys this))) eqn:Hfull; simpl.
      * apply Z.leb_le in Hfull.
        replace (Z.to_nat (limit - Z.of_nat (size (keys this)))) with 0%nat
          by lia.
        by rewrite app_nil_r.
      * apply Z.leb_gt in Hfull.
        rewrite IH; cbn [output keys this_bit].
        2:{ rewrite length_app, size_union by set_solver.
            rewrite size_singleton. simpl. lia. }
        rewrite Hpos, <- app_assoc. f_equal.
        rewrite size_union, size_singleton by set_solver.
        replace (Z.to_nat (limit - Z.of_nat (size (keys this))))
          with (S (Z.to_nat (limit - Z.of_nat (1 + size (keys this))))) by lia.
        done.
    + rewrite IH; cbn [output keys this_bit].
      2:{ rewrite length_app, size_union by set_solver.
          rewrite size_singleton. simpl. lia. }
      by rewrite Hpos, <- app_assoc.
  - rewrite (processKey_no_key _ _ _ _ _ Hkey). cbn [fst snd].
    destruct (0 <? limit); by rewrite ?take_nil, app_nil_r.
Qed.

(** X18.  With a consumer that takes every item, [DistinctScan] forwards
    the items of the inner scan that carry their primary key for the
    first time, in the order of the scan, each with the bit of the
    operator set, up to an item without a primary key; with a positive
    limit it forwards the first [limit] of them. *)
Theorem DistinctScan_first_occurrences (b : nat) (limit : Z)
    (items : list AnnotatedValue) :
  output (run (fun _ _ => true) (started b) [] limit items).1 =
    (fun item => SetBit item b) <$> within limit (first_by_key ∅ items).
Proof.
  rewrite run_first_by_key by done. unfold within, started.
  cbn [output keys this_bit app]. rewrite size_empty. by rewrite Z.sub_0_r.
Qed.

(** *** [evalSpan2] *)

Section evalSpan2.

(** The expressions of the spans of the plan and the values of the spans
    of the datastore. *)
Variable Expression : Type.
Variable Value : Type.

(** [plan.Range2] and [plan.Span2]. *)
Record PlanRange2 := mkPlanRange2 {
  plan_Low : Expression;
  plan_High : Expression;
  plan_Inclusion : nat
}.
Record PlanSpan2 := mkPlanSpan2 {
  plan_Seek : list Expression;
  plan_Ranges : list PlanRange2
}.

(** [datastore.Range2] and [datastore.Span2]. *)
Record Range2 := mkRange2 {
  Low : Value;
  High : Value;
  Inclusion : nat
}.
Record Span2 := mkSpan2 {
  Seek : list Value;
  Ranges : list Range2
}.

Definition error := string.

(** [eval(cx, context, nil)] and [evalOne(expr, context, parent)], for the
    context and the parent of the call: the values, whether the span is
    known to be empty, and the error. *)
Variable eval : list Expression -> list Value * bool * option error.
Variable evalOne : Expression -> Value * bool * option error.

(** The loop over the ranges of a span: the [return] on an error, or
    [ds.Ranges] at the end of the loop or at the [break] on an empty
    bound. *)
Fixpoint ranges_loop (psRanges : list PlanRange2) (dsRanges : list Range2)
  : bool * error + list Range2 :=
  match psRanges with
  | [] => inr dsRanges
  | psRange :: rest =>
      let '(low, empty, err) := evalOne (plan_Low psRange) in
      match err with
      | Some err => inl (empty, err)
      | None =>
          if empty then inr dsRanges
          else
            let '(high, empty, err) := evalOne (plan_High psRange) in
            match err with
            | Some err => inl (empty, err)
            | None =>
                if empty then inr dsRanges
                else
                  ranges_loop rest
                    (dsRanges ++ [mkRange2 low high (plan_Inclusion psRange)])
            end
      end
  end.

(** The loop over the spans. *)
Fixpoint spans_loop (pspans : list PlanSpan2) (dspans : list Span2)
  : bool * error + list Span2 :=
  match pspans with
  | [] => inr dspans
  | ps :: rest =>
      let '(seek, empty, err) := eval (plan_Seek ps) in
      match err with
      | Some err => inl (empty, err)
      | None =>
          match ranges_loop (plan_Ranges ps) [] with
          | inl r => inl r
          | inr dsRanges =>
              if (0 <? length dsRanges)%nat
              then spans_loop rest (dspans ++ [mkSpan2 seek dsRanges])
              else spans_loop rest dspans
          end
      end
  end.

(** [evalSpan2]: the spans, nil on an error; whether there is no span;
    and the error. *)
Definition evalSpan2 (pspans : list PlanSpan2)
  : option (list Span2) * bool * option error :=
  match spans_loop pspans [] with
  | inl (empty, err) => (None, empty, Some err)
  | inr dspans => (Some dspans, bool_decide (length dspans = 0%nat), None)
  end.

Lemma spans_loop_spec (pspans : list PlanSpan2) :
  forall dspans dspans',
    spans_loop pspans dspans = inr dspans' ->
    exists new,
      dspans' = dspans ++ new /\
      Forall (fun ds => Ranges ds <> []) new /\
      (length new <= length pspans)%nat.
Proof.
  induction pspans as [|ps rest IH]; intros dspans dspans'; cbn [spans_loop].
  { intros [= <-]. exists []. by rewrite app_nil_r. }
  destruct (eval (plan_Seek ps)) as [[seek empty] [err|]]; [done|].
  destruct (ranges_loop (plan_Ranges ps) []) as [r|dsRanges]; [done|].
  destruct (0 <? length dsRanges)%nat eqn:Hlen.
  - intros Hrest. destruct (IH _ _ Hrest) as (new & -> & Hnew & Hle).
    exists (mkSpan2 seek dsRanges :: new). rewrite <- app_assoc.
    split; [done|]. split; [|simpl; lia].
    constructor; [|done]. simpl. apply Nat.ltb_lt in Hlen.
    destruct dsRanges; [simpl in Hlen; lia|done].
  - intros Hrest. destruct (IH _ _ Hrest) as (new & -> & Hnew & Hle).
    exists new. split; [done|]. split; [done|]. simpl. lia.
Qed.

(** X19.  [evalSpan2] returns an error with no spans, or the spans with
    the nil error: then every span returned has at least one range (a
    span of the plan whose first range has an empty bound is left out,
    and so is a span without ranges), there are no more spans than the
    plan has, and the spans are reported empty exactly when none is
    returned. *)
Theorem evalSpan2_spans (pspans : list PlanSpan2) :
  match evalSpan2 pspans with
  | (Some dspans, empty, None) =>
      Forall (fun ds => Ranges ds <> []) dspans /\
      (length dspans <= length pspans)%nat /\
      (empty = true <-> dspans = [])
  | (None, _, Some _) => True
  | _ => False
  end.
Proof.
  unfold evalSpan2.
  destruct (spans_loop pspans []) as [[empty err]|dspans] eqn:Hloop; [done|].
  destruct (spans_loop_spec pspans [] dspans Hloop) as (new & -> & Hnew & Hle).
  simpl. split; [done|]. split; [done|].
  rewrite bool_decide_eq_true. by destruct new.
Qed.

End evalSpan2.

End execution.


(* ===================================================================== *)
(** ** clustering_cb: the configuration store over a Couchbase cluster    *)
(* ===================================================================== *)

Module clustering_cb.

(** Go's [error] of a library call, by its text. *)
Definition error := string.

(** [strconv.Itoa]. *)
Definition Itoa (n : Z) : string := NilZero.string_of_int (Z.to_int n).

(** [clustering.Mode]; [NoMode] is the empty string. *)
Inductive Mode := NoMode | STANDALONE | CLUSTERED | STARTING.

(** [clustering.Privilege]: the two privileges [Authorize] knows, and the
    others. *)
Inductive Privilege :=
| PRIV_READ
| PRIV_SYS_ADMIN
| PRIV_OTHER (n : nat).

(** An entry of [couchbase.PoolServices.NodesExt]. *)
Record NodeServices := mkNodeServices {
  Services : gmap string Z;
  Hostname : string;
  ThisNode : bool
}.

Record PoolServices := mkPoolServices {
  Rev : Z;
  NodesExt : list NodeServices
}.

(** A node of [couchbase.Pool.Nodes], with the names of its services. *)
Record Node := mkNode {
  node_Services : list string
}.

Record Pool := mkPool {
  Nodes : list Node
}.

(** The errors of the package [errors] made here. *)
Inductive Error :=
| NewAdminAuthError (cause : option error) (msg : string)
| NewAdminGetNodeError (cause : option error) (node : NodeServices)
| NewAdminConnectionError (cause : option error) (id : string)
| NewAdminNoNodeError (name : string)
| NewAdminDecodingError (cause : error)
| NewAdminGetClusterError (cause : error) (name : string).

Definition _HTTP : string := "http".
Definition _HTTPS : string := "https".
Definition n1qlService : string := "n1ql".

(** [n1qlProtocols], as the pairs a [range] over the map yields, in one
    of the orders it can yield them in. *)
Definition n1qlProtocols : list (string * string) :=
  [("n1ql", _HTTP); ("n1qlSSL", _HTTPS)].

(** How a loop body ends: by a [return], or by going on to the next
    element. *)
Inductive Step (A : Type) :=
| Return (r : A)
| Next.
Arguments Return {A} r.
Arguments Next {A}.

Section Authorize.

(** The credentials of [cbauth], [cbauth.Auth(username, password)] and
    [auth.IsAllowed(permission)]. *)
Variable Creds : Type.
Variable Auth : string -> string -> error + Creds.
Variable IsAllowed : Creds -> string -> error + bool.

(** The loop over the requested privileges: every case of the [switch]
    returns. *)
Definition privileges_loop (auth : Creds) (privileges : list Privilege)
  : Step (option Error) :=
  match privileges with
  | [] => Next
  | requested :: _ =>
      match requested with
      | PRIV_SYS_ADMIN =>
          match IsAllowed auth "cluster.settings!write" with
          | inl err => Return (Some (NewAdminAuthError (Some err) ""))
          | inr isAdmin =>
              if isAdmin then Return None
              else Return (Some (NewAdminAuthError None
                             "sys admin requires administrator credentials"))
          end
      | PRIV_READ =>
          match IsAllowed auth "cluster.settings!read" with
          | inl err => Return (Some (NewAdminAuthError (Some err) ""))
          | inr isPermitted =>
              if isPermitted then Return None
              else Return (Some (NewAdminAuthError None "read not authorized"))
          end
      | PRIV_OTHER _ =>
          Return (Some (NewAdminAuthError None "unexpected authorization %v"))
      end
  end.

(** The loop over the credentials, in the order the map yields them. *)
Fixpoint credentials_loop (credentials : list (string * string))
    (privileges : list Privilege) : option Error :=
  match credentials with
  | [] => Some (NewAdminAuthError None "unrecognized authorization request")
  | (username, password) :: rest =>
      match Auth username password with
      | inl err =>
          Some (NewAdminAuthError (Some err)
                  "unable to authenticate with given credential")
      | inr auth =>
          match privileges_loop auth privileges with
          | Return r => r
          | Next => credentials_loop rest privileges
          end
      end
  end.

(** [cbConfigStore.Authorize]; [None] is the nil error. *)
Definition Authorize (credentials : list (string * string))
    (privileges : list Privilege) : option Error :=
  if (length credentials =? 0)%nat
  then Some (NewAdminAuthError None "no credentials provided")
  else credentials_loop credentials privileges.

End Authorize.

Section checkPoolServices.

(** [server.GetIP]. *)
Variable GetIP : bool -> string.

(** [this.ourPorts]. *)
Variable ourPorts : gmap string Z.

(** The loop over [n1qlProtocols], the pairs given in the order the map
    yields them: the number of services found, or the [return] of
    STANDALONE. *)
Fixpoint protocols_loop (protocols : list (string * string))
    (node : NodeServices) (found : Z) : Step unit + Z :=
  match protocols with
  | [] => inr found
  | (serv, proto) :: rest =>
      match Services node !! serv with
      | Some port =>
          match ourPorts !! proto with
          | Some ourPort =>
              if port =? ourPort then protocols_loop rest node (found + 1)
              else inl (Return ())
          | None => inl (Return ())
          end
      | None => protocols_loop rest node found
      end
  end.

(** The two loops over the services of the nodes of the pool: whether a
    node has the service [n1ql]. *)
Definition provisioned (pool : Pool) : bool :=
  existsb (fun node => existsb (String.eqb n1qlService) (node_Services node))
          (Nodes pool).

(** [cbConfigStore.checkPoolServices]. *)
Fixpoint nodes_loop (protocols : list (string * string)) (pool : Pool)
    (nodes : list NodeServices) : string * Mode * option Error :=
  match nodes with
  | [] => ("", NoMode, None)
  | node :: rest =>
      if negb (ThisNode node) then nodes_loop protocols pool rest
      else
        let hostname :=
          if String.eqb (Hostname node) "" then GetIP true else Hostname node in
        let mgmtPort := default 0 (Services node !! "mgmt") in
        if mgmtPort =? 0
        then ("", NoMode, Some (NewAdminGetNodeError None node))
        else
          match protocols_loop protocols node 0 with
          | inl _ => ("", STANDALONE, None)
          | inr found =>
              if (found =? 0) && provisioned pool then ("", STARTING, None)
              else (hostname +:+ ":" +:+ Itoa mgmtPort, CLUSTERED, None)
          end
  end.

Definition checkPoolServices (protocols : list (string * string))
    (pool : Pool) (poolServices : PoolServices) : string * Mode * option Error :=
  nodes_loop protocols pool (NodesExt poolServices).

End checkPoolServices.



(** [type services map[string]int]. *)
Abbreviation services := (gmap string Z).



Section cbCluster.

Variable GetIP : bool -> string.
(** [configStore.cbConn.GetPoolServices(name)]: the answer of the
    cluster. *)
Variable GetPoolServices : string -> error + PoolServices.
(** [server.HostNameandPort], [http.ServicePrefix()] and
    [http.AdminPrefix()]. *)
Variable HostNameandPort : string -> string * string.
Variable ServicePrefix : string.
Variable AdminPrefix : string.
(** The pairs a [range] over [n1qlProtocols] yields, and those a [range]
    over a map of services yields, in the order it yields them. *)
Variable protocols : list (string * string).
Variable services_range : services -> list (string * Z).







End cbCluster.



(** [type cbConfigStore struct]: the fields [doNameState] uses. *)
Record cbConfigStore := mkCbConfigStore {
  ourPorts : gmap string Z;
  noMoreChecks : bool;
  poolName : string;
  poolSrvRev : Z;
  whoAmI : string;
  state : Mode
}.

(** How a call ends: by a panic of the runtime, or by a [return]. *)
Inductive Outcome (A : Type) :=
| Panics
| Returns (r : A).
Arguments Panics {A}.
Arguments Returns {A} r.

#[global] Instance Mode_eq_dec : EqDecision Mode.
Proof. solve_decision. Defined.

Section doNameState.

Variable GetIP : bool -> string.
Variable HostNameandPort : string -> string * string.
(** [this.cbConn.GetPoolServices(name)] and [this.cbConn.GetPool(name)]:
    the answers of the cluster to the call of [getPoolServices] of the
    given number, counted from 0 within one call of [doNameState]. *)
Variable GetPoolServices : nat -> string -> error + PoolServices.
Variable GetPool : nat -> string -> error + Pool.
(** The names of the pools of [this.getPools()]. *)
Variable pools : list string.
Variable protocols : list (string * string).

(** [cbConfigStore.getPoolServices]: the error, with which both pointers
    are nil, or the pool and its services. *)
Definition getPoolServices (call : nat) (name : string)
  : Error + Pool * PoolServices :=
  match GetPoolServices call name with
  | inl err => inl (NewAdminGetClusterError err name)
  | inr nodeServices =>
      match GetPool call name with
      | inl err => inl (NewAdminGetClusterError err name)
      | inr pool => inr (pool, nodeServices)
      end
  end.

(** The assignments to [this.whoAmI], [this.state] and
    [this.noMoreChecks] once the node is found. *)
Definition found (this : cbConfigStore) (whoAmI' : string) (state' : Mode)
  : cbConfigStore :=
  let hostName := (HostNameandPort whoAmI').1 in
  mkCbConfigStore (ourPorts this)
    (bool_decide (state' = STANDALONE)
     || (bool_decide (state' = CLUSTERED)
         && negb (String.eqb hostName (GetIP false))))
    (poolName this) (poolSrvRev this) whoAmI' state'.

Definition cached (this : cbConfigStore)
  : Outcome (string * Mode * option Error * cbConfigStore) :=
  Returns (whoAmI this, state this, None, this).

(** The loop over the pools; at a pool that [getPoolServices] fails on,
    [checkPoolServices] reads the services through the nil pointer. *)
Fixpoint pools_loop (call : nat) (pools : list string) (this : cbConfigStore)
    (err : option Error)
  : Outcome (string * Mode * option Error * cbConfigStore) :=
  match pools with
  | [] => Returns ("", STARTING, err, this)
  | p :: rest =>
      match getPoolServices call p with
      | inl _ => Panics
      | inr (pool, poolServices) =>
          let '(whoAmI', state', newErr) :=
            checkPoolServices GetIP (ourPorts this) protocols pool poolServices in
          match newErr with
          | Some newErr =>
              pools_loop (S call) rest this
                (match err with None => Some newErr | Some _ => err end)
          | None =>
              if bool_decide (state' = NoMode)
              then pools_loop (S call) rest this err
              else
                let this :=
                  mkCbConfigStore (ourPorts this) (noMoreChecks this) p
                    (poolSrvRev this) (whoAmI this) (state this) in
                cached (found this whoAmI' state')
          end
      end
  end.

(** [doNameState] from "nope - start from scratch" on. *)
Definition from_scratch (call : nat) (this : cbConfigStore) (err : option Error)
  : Outcome (string * Mode * option Error * cbConfigStore) :=
  let this :=
    mkCbConfigStore (ourPorts this) false "" (poolSrvRev this) "" NoMode in
  pools_loop call pools this err.

(** [doNameState] from the promotion of the lock on, after [call] calls
    of [getPoolServices]. *)
Definition first_principles (call : nat) (this : cbConfigStore)
  : Outcome (string * Mode * option Error * cbConfigStore) :=
  if noMoreChecks this then cached this
  else if negb (String.eqb (poolName this) "") then
    match getPoolServices call (poolName this) with
    | inl _ => Panics
    | inr (pool, poolServices) =>
        if Rev poolServices =? poolSrvRev this then cached this
        else
          let '(whoAmI', state', newErr) :=
            checkPoolServices GetIP (ourPorts this) protocols pool poolServices in
          match newErr with
          | None =>
              if bool_decide (state' = NoMode)
              then from_scratch (S call) this newErr
              else cached (found this whoAmI' state')
          | Some _ => from_scratch (S call) this newErr
          end
    end
  else from_scratch call this None.

(** [cbConfigStore.doNameState], run by one goroutine: the name, the
    state, the error and the store after the call.  In the first block
    [err] is nil, so that after a failure of [getPoolServices] the code
    reads [poolServices.Rev] through the nil pointer. *)
Definition doNameState (this : cbConfigStore)
  : Outcome (string * Mode * option Error * cbConfigStore) :=
  if noMoreChecks this then cached this
  else if negb (String.eqb (poolName this) "") then
    match getPoolServices 0 (poolName this) with
    | inl _ => Panics
    | inr (pool, poolServices) =>
        if Rev poolServices =? poolSrvRev this then cached this
        else
          let '(whoAmI', state', newErr) :=
            checkPoolServices GetIP (ourPorts this) protocols pool poolServices in
          match newErr with
          | None =>
              if bool_decide (state' = NoMode) then first_principles 1 this
              else if Rev poolServices >? poolSrvRev this
                   then cached (found this whoAmI' state')
                   else cached this
          | Some _ => first_principles 1 this
          end
    end
  else first_principles 0 this.

End doNameState.

(** What the fields of a store have in common whenever [doNameState]
    has set them: a pool comes with a state, a name with the state
    CLUSTERED, and no more checks with the state STANDALONE or
    CLUSTERED. *)
Definition Settled (this : cbConfigStore) : Prop :=
  (poolName this <> "" -> state this <> NoMode) /\
  (whoAmI this <> "" -> state this = CLUSTERED) /\
  (noMoreChecks this = true ->
   state this = STANDALONE \/ state this = CLUSTERED).

(* --------------------------------------------------------------------- *)

(** X20.  [Authorize] grants (returns the nil error) exactly when the
    first credential the map yields authenticates and the first requested
    privilege is PRIV_SYS_ADMIN with [cluster.settings!write] allowed, or
    PRIV_READ with [cluster.settings!read] allowed: no other credential
    and no other requested privilege is looked at. *)
Theorem Authorize_grants (Creds : Type) (Auth : string -> string -> error + Creds)
    (IsAllowed : Creds -> string -> error + bool)
    (credentials : list (string * string)) (privileges : list Privilege) :
  Authorize Creds Auth IsAllowed credentials privileges = None <->
  exists username password others auth requested more,
    credentials = (username, password) :: others /\
    Auth username password = inr auth /\
    privileges = requested :: more /\
    (requested = PRIV_SYS_ADMIN /\
       IsAllowed auth "cluster.settings!write" = inr true \/
     requested = PRIV_READ /\
       IsAllowed auth "cluster.settings!read" = inr true).
Proof.
  unfold Authorize. split.
  - destruct credentials as [|[username password] others]; [done|].
    cbn [length Nat.eqb credentials_loop].
    destruct (Auth username password) as [err|auth] eqn:Hauth; [done|].
    destruct privileges as [|requested more].
    { simpl. intros H. exfalso. clear Hauth.
      induction others as [|[u p] others IH]; [done|].
      simpl in H. destruct (Auth u p); [done|auto]. }
    intros H. exists username, password, others, auth, requested, more.
    repeat (split; [done|]).
    unfold privileges_loop in H. destruct requested as [| |n]; [| |done].
    + right. split; [done|].
      destruct (IsAllowed auth "cluster.settings!read") as [err|[]]; done.
    + left. split; [done|].
      destruct (IsAllowed auth "cluster.settings!write") as [err|[]]; done.
  - intros (username & password & others & auth & requested & more
            & -> & Hauth & -> & H).
    cbn [length Nat.eqb credentials_loop]. rewrite Hauth.
    by destruct H as [[-> H]|[-> H]]; simpl; rewrite H.
Qed.

Lemma protocols_loop_Permutation (ourPorts : gmap string Z)
    (protocols protocols' : list (string * string)) (node : NodeServices) :
  protocols ≡ₚ protocols' ->
  forall found,
    match protocols_loop ourPorts protocols node found,
          protocols_loop ourPorts protocols' node found with
    | inl _, inl _ => True
    | inr n, inr n' => n = n'
    | _, _ => False
    end.
Proof.
  assert (forall ps found n,
            match protocols_loop ourPorts ps node found,
                  protocols_loop ourPorts ps node (found + n) with
            | inl _, inl _ => True
            | inr a, inr b => b = a + n
            | _, _ => False
            end) as Hshift.
  { induction ps as [|[serv proto] ps IH]; intros found n; simpl; [done|].
    destruct (Services node !! serv) as [port|]; [|apply IH].
    destruct (ourPorts !! proto) as [ourPort|]; [|done].
    destruct (port =? ourPort); [|done].
    replace (found + n + 1) with (found + 1 + n) by lia. apply IH. }
  induction 1 as [|[serv proto] l l' _ IH|[s1 p1] [s2 p2] l|l l' l'' _ IH1 _ IH2];
    intros found; simpl.
  - done.
  - destruct (Services node !! serv) as [port|]; [|apply IH].
    destruct (ourPorts !! proto) as [ourPort|]; [|done].
    destruct (port =? ourPort); [apply IH|done].
  - destruct (Services node !! s1) as [port1|],
      (Services node !! s2) as [port2|];
      repeat first
        [ done
        | match goal with
          | |- context [ourPorts !! ?p] => destruct (ourPorts !! p)
          | |- context [?a =? ?b] => destruct (a =? b)
          end ];
      try (specialize (Hshift l found 0); rewrite Z.add_0_r in Hshift;
           destruct (protocols_loop ourPorts l node found); done);
      try (specialize (Hshift l (found + 1) 0); rewrite Z.add_0_r in Hshift;
           destruct (protocols_loop ourPorts l node (found + 1)); done);
      try (specialize (Hshift l (found + 1 + 1) 0); rewrite Z.add_0_r in Hshift;
           destruct (protocols_loop ourPorts l node (found + 1 + 1)); done);
      try by destruct (protocols_loop ourPorts l node _).
  - specialize (IH1 found). specialize (IH2 found).
    destruct (protocols_loop ourPorts l node found),
      (protocols_loop ourPorts l' node found),
      (protocols_loop ourPorts l'' node found); try done. congruence.
Qed.

(** X21.  What [checkPoolServices] finds does not depend on the order in
    which the map [n1qlProtocols] yields its entries. *)
Theorem checkPoolServices_order (GetIP : bool -> string)
    (ourPorts : gmap string Z) (protocols protocols' : list (string * string))
    (pool : Pool) (poolServices : PoolServices) :
  protocols ≡ₚ protocols' ->
  checkPoolServices GetIP ourPorts protocols pool poolServices =
  checkPoolServices GetIP ourPorts protocols' pool poolServices.
Proof.
  intros Hp. unfold checkPoolServices.
  induction (NodesExt poolServices) as [|node rest IH]; simpl; [done|].
  destruct (negb (ThisNode node)); [done|].
  destruct (default 0 (Services node !! "mgmt") =? 0); [done|].
  pose proof (protocols_loop_Permutation ourPorts _ _ node Hp 0) as H.
  destruct (protocols_loop ourPorts protocols node 0),
    (protocols_loop ourPorts protocols' node 0); try done. by subst.
Qed.

Lemma checkPoolServices_order_witness :
  checkPoolServices (fun _ => "127.0.0.1") {[ "http" := 8093 ]}
    [("n1ql", "http"); ("n1qlSSL", "https")] (mkPool [])
    (mkPoolServices 1
       [mkNodeServices {[ "mgmt" := 8091; "n1ql" := 8093 ]} "" true]) =
  checkPoolServices (fun _ => "127.0.0.1") {[ "http" := 8093 ]}
    [("n1qlSSL", "https"); ("n1ql", "http")] (mkPool [])
    (mkPoolServices 1
       [mkNodeServices {[ "mgmt" := 8091; "n1ql" := 8093 ]} "" true]).
Proof.
  apply (checkPoolServices_order (fun _ => "127.0.0.1") {[ "http" := 8093 ]}
           [("n1ql", "http"); ("n1qlSSL", "https")]
           [("n1qlSSL", "https"); ("n1ql", "http")]).
  apply perm_swap.
Defined.

(** X22.  [checkPoolServices] names the node exactly when it finds it
    clustered: the state CLUSTERED comes with the name
    [hostname:mgmtPort] of the first node marked as this node, whose
    management port is not zero, and every other state, and an error,
    with the empty name; an error comes with the empty state. *)
Theorem checkPoolServices_name (GetIP : bool -> string)
    (ourPorts : gmap string Z) (protocols : list (string * string))
    (pool : Pool) (poolServices : PoolServices) :
  let '(whoAmI, state, err) :=
    checkPoolServices GetIP ourPorts protocols pool poolServices in
  (state = CLUSTERED <-> whoAmI <> "") /\
  (err <> None -> state = NoMode) /\
  (state = CLUSTERED ->
   exists node,
     List.find ThisNode (NodesExt poolServices) = Some node /\
     default 0 (Services node !! "mgmt") <> 0 /\
     whoAmI =
       (if String.eqb (Hostname node) "" then GetIP true else Hostname node)
       +:+ ":" +:+ Itoa (default 0 (Services node !! "mgmt"))).
Proof.
  unfold checkPoolServices.
  induction (NodesExt poolServices) as [|node rest IH]; simpl.
  { split; [by split|]. by split. }
  destruct (ThisNode node) eqn:Hthis; simpl; [|done].
  destruct (default 0 (Services node !! "mgmt") =? 0) eqn:Hmgmt.
  { split; [by split|]. by split. }
  destruct (protocols_loop ourPorts protocols node 0) as [?|found].
  { split; [by split|]. by split. }
  destruct ((found =? 0) && provisioned pool).
  { split; [by split|]. by split. }
  split; [|split; [done|]].
  - split; [|done]. intros _.
    destruct (if String.eqb (Hostname node) "" then GetIP true else Hostname node);
      done.
  - intros _. exists node. split; [done|]. split; [|done].
    by apply Z.eqb_neq.
Qed.









(** A cluster of one node that runs the query service on the port 8093,
    and an empty [cbCluster] for it. *)
Definition one_node : PoolServices :=
  mkPoolServices 1
    [mkNodeServices {[ "mgmt" := 8091; "n1ql" := 8093 ]} "node1" true].


Lemma checkPoolServices_shape (GetIP : bool -> string)
    (ourPorts : gmap string Z) (protocols : list (string * string))
    (pool : Pool) (poolServices : PoolServices) :
  let '(whoAmI, state, err) :=
    checkPoolServices GetIP ourPorts protocols pool poolServices in
  (whoAmI <> "" -> state = CLUSTERED) /\
  (forall e, err = Some e -> exists node, e = NewAdminGetNodeError None node).
Proof.
  unfold checkPoolServices.
  induction (NodesExt poolServices) as [|node rest IH]; simpl; [done|].
  destruct (ThisNode node); simpl; [|done].
  destruct (default 0 (Services node !! "mgmt") =? 0).
  { split; [done|]. intros e [= <-]. by eexists. }
  destruct (protocols_loop ourPorts protocols node 0) as [?|found']; [done|].
  by destruct ((found' =? 0) && provisioned pool).
Qed.

Lemma found_Settled (GetIP : bool -> string)
    (HostNameandPort : string -> string * string) (this : cbConfigStore)
    (whoAmI' : string) (state' : Mode) :
  state' <> NoMode -> (whoAmI' <> "" -> state' = CLUSTERED) ->
  Settled (found GetIP HostNameandPort this whoAmI' state').
Proof.
  intros Hstate Hname. unfold Settled, found. simpl.
  split; [done|]. split; [done|]. by destruct state'; auto.
Qed.

(** What [doNameState] returns from a store: the name and the state of
    the store after the call, which are as [Settled] says, with no error;
    or no name, the state STARTING and an error of [checkPoolServices] or
    none, from a store that keeps nothing. *)
Definition result_of (this : cbConfigStore)
    (r : string * Mode * option Error * cbConfigStore) : Prop :=
  let '(name, mode, err, this') := r in
  Settled this' /\
  ourPorts this' = ourPorts this /\ poolSrvRev this' = poolSrvRev this /\
  mode <> NoMode /\
  (name <> "" -> mode = CLUSTERED) /\
  ((err = None /\ name = whoAmI this' /\ mode = state this') \/
   (name = "" /\ mode = STARTING /\
    (forall e, err = Some e -> exists node, e = NewAdminGetNodeError None node) /\
    noMoreChecks this' = false /\ poolName this' = "" /\
    whoAmI this' = "" /\ state this' = NoMode)).

Lemma cached_result (this0 this : cbConfigStore) :
  Settled this -> state this <> NoMode ->
  ourPorts this = ourPorts this0 -> poolSrvRev this = poolSrvRev this0 ->
  forall r, cached this = Returns r -> result_of this0 r.
Proof.
  intros Hs Hstate Hports Hrev r [= <-]. unfold result_of.
  destruct Hs as (Hpool & Hname & Hno). repeat split; auto.
Qed.

Lemma pools_loop_result (GetIP : bool -> string)
    (HostNameandPort : string -> string * string)
    (GetPoolServices : nat -> string -> error + PoolServices)
    (GetPool : nat -> string -> error + Pool)
    (protocols : list (string * string)) (this0 : cbConfigStore)
    (pools : list string) :
  forall call this err r,
    this = mkCbConfigStore (ourPorts this0) false "" (poolSrvRev this0) "" NoMode ->
    (forall e, err = Some e -> exists node, e = NewAdminGetNodeError None node) ->
    pools_loop GetIP HostNameandPort GetPoolServices GetPool protocols call
      pools this err = Returns r ->
    result_of this0 r.
Proof.
  induction pools as [|p rest IH]; intros call this err r -> Herr; simpl.
  { intros [= <-]. unfold result_of, Settled. simpl.
    split; [by repeat split|]. repeat split; try done. right.
    by repeat split. }
  destruct (getPoolServices _ _ _ _) as [?|[pool poolServices]]; [done|].
  pose proof (checkPoolServices_shape GetIP (ourPorts this0) protocols pool
                poolServices) as Hshape.
  destruct (checkPoolServices GetIP (ourPorts this0) protocols pool poolServices)
    as [[whoAmI' state'] newErr].
  destruct Hshape as [Hname Hnode].
  destruct newErr as [newErr|].
  { apply IH; [done|]. destruct err as [e|]; [done|].
    intros e [= <-]. by apply Hnode. }
  destruct (bool_decide (state' = NoMode)) eqn:Hstate.
  { by apply IH. }
  apply bool_decide_eq_false in Hstate.
  apply cached_result; [by apply found_Settled|done..].
Qed.

(** X25.  From a store whose fields are as [doNameState] sets them, as
    the fields of a new store are, a call of [doNameState] that returns
    leaves such a store, with the same ports and the same revision, and
    never returns the empty state: it returns the name and the state of
    the store after the call with no error, a name only with the state
    CLUSTERED; or it returns no name and the state STARTING, with no
    error or with an error of [checkPoolServices], never one of
    [getPoolServices], from a store that keeps no name, no state and no
    pool. *)
Theorem doNameState_result (GetIP : bool -> string)
    (HostNameandPort : string -> string * string)
    (GetPoolServices : nat -> string -> error + PoolServices)
    (GetPool : nat -> string -> error + Pool)
    (pools : list string) (protocols : list (string * string))
    (this : cbConfigStore)
    (r : string * Mode * option Error * cbConfigStore) :
  Settled this ->
  doNameState GetIP HostNameandPort GetPoolServices GetPool pools protocols this
    = Returns r ->
  result_of this r.
Proof.
  intros Hs.
  assert (forall call err r,
            (forall e, err = Some e ->
                       exists node, e = NewAdminGetNodeError None node) ->
            from_scratch GetIP HostNameandPort GetPoolServices GetPool pools
              protocols call this err = Returns r ->
            result_of this r) as Hscratch.
  { intros call err r' Herr. unfold from_scratch.
    by apply pools_loop_result. }
  assert (forall call r,
            first_principles GetIP HostNameandPort GetPoolServices GetPool pools
              protocols call this = Returns r ->
            result_of this r) as Hfirst.
  { intros call r'. unfold first_principles.
    destruct (noMoreChecks this) eqn:Hno.
    { apply cached_result; try done. destruct Hs as (_ & _ & Hs).
      by destruct (Hs Hno) as [-> | ->]. }
    destruct (String.eqb (poolName this) "") eqn:Hpool; simpl.
    { by apply Hscratch. }
    apply String.eqb_neq in Hpool.
    destruct (getPoolServices _ _ _ _) as [?|[pool poolServices]]; [done|].
    destruct (Rev poolServices =? poolSrvRev this).
    { apply cached_result; try done. by apply Hs. }
    pose proof (checkPoolServices_shape GetIP (ourPorts this) protocols pool
                  poolServices) as Hshape.
    destruct (checkPoolServices GetIP (ourPorts this) protocols pool
                poolServices) as [[whoAmI' state'] newErr].
    destruct Hshape as [Hname Hnode].
    destruct newErr as [newErr|]; [by apply Hscratch|].
    destruct (bool_decide (state' = NoMode)) eqn:Hstate; [by apply Hscratch|].
    apply bool_decide_eq_false in Hstate.
    apply cached_result; [by apply found_Settled|done..]. }
  unfold doNameState.
  destruct (noMoreChecks this) eqn:Hno.
  { apply cached_result; try done. destruct Hs as (_ & _ & Hs).
    by destruct (Hs Hno) as [-> | ->]. }
  destruct (String.eqb (poolName this) "") eqn:Hpool; simpl.
  { by apply Hfirst. }
  apply String.eqb_neq in Hpool.
  destruct (getPoolServices _ _ _ _) as [?|[pool poolServices]]; [done|].
  destruct (Rev poolServices =? poolSrvRev this).
  { apply cached_result; try done. by apply Hs. }
  pose proof (checkPoolServices_shape GetIP (ourPorts this) protocols pool
                poolServices) as Hshape.
  destruct (checkPoolServices GetIP (ourPorts this) protocols pool
              poolServices) as [[whoAmI' state'] newErr].
  destruct Hshape as [Hname Hnode].
  destruct newErr as [newErr|]; [by apply Hfirst|].
  destruct (bool_decide (state' = NoMode)) eqn:Hstate; [by apply Hfirst|].
  apply bool_decide_eq_false in Hstate.
  destruct (Rev poolServices >? poolSrvRev this).
  - apply cached_result; [by apply found_Settled|done..].
  - apply cached_result; try done. by apply Hs.
Qed.

(** A new store, as [NewConfigstore] makes it, that listens on the port
    8093, and a cluster of one pool that answers every call. *)
Definition new_store : cbConfigStore :=
  mkCbConfigStore {[ _HTTP := 8093 ]} false "" (-999) "" NoMode.
Definition one_pool : Pool := mkPool [mkNode ["kv"; "n1ql"]].

Lemma doNameState_result_witness :
  result_of new_store
    ("node1:8091", CLUSTERED, None,
     mkCbConfigStore {[ _HTTP := 8093 ]} true "default" (-999) "node1:8091"
       CLUSTERED).
Proof.
  apply (doNameState_result (fun _ => "127.0.0.1") (fun s => (s, ""))
           (fun _ _ => inr one_node) (fun _ _ => inr one_pool) ["default"]
           n1qlProtocols new_store).
  - by repeat split.
  - vm_compute. reflexivity.
Defined.

(** X26.  [doNameState] does not return the error of a cluster that
    does not answer: when the first call of [getPoolServices] it makes
    fails, for the pool of the store or, without one, for the first pool
    of the cluster, it panics. *)
Theorem doNameState_panics (GetIP : bool -> string)
    (HostNameandPort : string -> string * string)
    (GetPoolServices : nat -> string -> error + PoolServices)
    (GetPool : nat -> string -> error + Pool)
    (pools : list string) (protocols : list (string * string))
    (this : cbConfigStore) (name : string) :
  noMoreChecks this = false ->
  (if String.eqb (poolName this) "" then head pools else Some (poolName this))
    = Some name ->
  (exists err, GetPoolServices 0%nat name = inl err) \/
  (exists err, GetPool 0%nat name = inl err) ->
  doNameState GetIP HostNameandPort GetPoolServices GetPool pools protocols this
    = Panics.
Proof.
  intros Hno Hname Hfails.
  assert (exists e, getPoolServices GetPoolServices GetPool 0 name = inl e)
    as [e He].
  { unfold getPoolServices. destruct Hfails as [[err ->]|[err Herr]]; [by eexists|].
    destruct (GetPoolServices 0%nat name); [by eexists|].
    rewrite Herr. by eexists. }
  unfold doNameState. rewrite Hno.
  destruct (String.eqb (poolName this) "") eqn:Hpool; simpl.
  - unfold first_principles. rewrite Hno, Hpool. simpl. unfold from_scratch.
    destruct pools as [|p rest]; [done|]. injection Hname as ->.
    simpl. by rewrite He.
  - injection Hname as ->. by rewrite He.
Qed.

Lemma doNameState_panics_witness :
  doNameState (fun _ => "127.0.0.1") (fun s => (s, ""))
    (fun _ _ => inl "connection refused") (fun _ _ => inr one_pool) ["default"]
    n1qlProtocols new_store = Panics.
Proof.
  apply (doNameState_panics _ _ _ _ _ _ _ "default");
    [reflexivity|reflexivity|left; by eexists].
Defined.

(** X27.  When the cluster answers every call, [doNameState] returns. *)
Theorem doNameState_returns (GetIP : bool -> string)
    (HostNameandPort : string -> string * string)
    (GetPoolServices : nat -> string -> error + PoolServices)
    (GetPool : nat -> string -> error + Pool)
    (pools : list string) (protocols : list (string * string))
    (this : cbConfigStore) :
  (forall call name, exists poolServices pool,
     GetPoolServices call name = inr poolServices /\
     GetPool call name = inr pool) ->
  exists r,
    doNameState GetIP HostNameandPort GetPoolServices GetPool pools protocols
      this = Returns r.
Proof.
  intros Hanswers.
  assert (forall call name, exists pool poolServices,
            getPoolServices GetPoolServices GetPool call name
              = inr (pool, poolServices)) as Hget.
  { intros call name. destruct (Hanswers call name) as (ps & pool & H1 & H2).
    exists pool, ps. unfold getPoolServices. by rewrite H1, H2. }
  assert (forall ps call this' err, exists r,
            pools_loop GetIP HostNameandPort GetPoolServices GetPool protocols
              call ps this' err = Returns r) as Hloop.
  { induction ps as [|p rest IH]; intros call this' err; simpl; [by eexists|].
    destruct (Hget call p) as (pool & poolServices & ->).
    destruct (checkPoolServices _ _ _ _ _) as [[whoAmI' state'] [newErr|]];
      [apply IH|].
    destruct (bool_decide _); [apply IH|by eexists]. }
  assert (forall call, exists r,
            first_principles GetIP HostNameandPort GetPoolServices GetPool pools
              protocols call this = Returns r) as Hfirst.
  { intros call. unfold first_principles, from_scratch.
    destruct (noMoreChecks this); [by eexists|].
    destruct (String.eqb (poolName this) ""); simpl; [apply Hloop|].
    destruct (Hget call (poolName this)) as (pool & poolServices & ->).
    destruct (Rev poolServices =? poolSrvRev this); [by eexists|].
    destruct (checkPoolServices _ _ _ _ _) as [[whoAmI' state'] [newErr|]];
      [apply Hloop|].
    destruct (bool_decide _); [apply Hloop|by eexists]. }
  unfold doNameState.
  destruct (noMoreChecks this); [by eexists|].
  destruct (String.eqb (poolName this) ""); simpl; [apply Hfirst|].
  destruct (Hget 0%nat (poolName this)) as (pool & poolServices & ->).
  destruct (Rev poolServices =? poolSrvRev this); [by eexists|].
  destruct (checkPoolServices _ _ _ _ _) as [[whoAmI' state'] [newErr|]];
    [apply Hfirst|].
  destruct (bool_decide _); [apply Hfirst|].
  destruct (Rev poolServices >? poolSrvRev this); by eexists.
Qed.

Lemma doNameState_returns_witness :
  exists r,
    doNameState (fun _ => "127.0.0.1") (fun s => (s, ""))
      (fun _ _ => inr one_node) (fun _ _ => inr one_pool) ["default"]
      n1qlProtocols new_store = Returns r.
Proof.
  apply doNameState_returns. intros call name. by exists one_node, one_pool.
Defined.

End clustering_cb.


(* ===================================================================== *)
(** ** server/http: the authorization of the admin endpoints              *)
(* ===================================================================== *)

Module http.
Import clustering_cb.

(** [s[n:]] and [s[:n]] of a string or of a slice of bytes. *)
Fixpoint string_drop (n : nat) (s : string) : string :=
  match n, s with
  | O, _ => s
  | S n, String _ rest => string_drop n rest
  | S _, EmptyString => EmptyString
  end.

Fixpoint string_take (n : nat) (s : string) : string :=
  match n, s with
  | O, _ => EmptyString
  | S n, String c rest => String c (string_take n rest)
  | S _, EmptyString => EmptyString
  end.

(** [bytes.IndexByte(s, c)]; [None] is -1. *)
Fixpoint IndexByte (s : string) (c : Ascii.ascii) : option nat :=
  match s with
  | EmptyString => None
  | String c' rest =>
      if Ascii.eqb c' c then Some O else S <$> IndexByte rest c
  end.

(** [strings.HasPrefix(s, prefix)]. *)
Definition HasPrefix (s prefix : string) : bool := String.prefix prefix s.

Section hasAdminAuth.

(** [base64.StdEncoding.DecodeString]. *)
Variable DecodeString : string -> error + string.

(** [this.server.ConfigurationStore()], which may be nil, and the method
    [Authorize] of the store. *)
Variable ConfigurationStore : Type.
Variable configStore : option ConfigurationStore.
Variable Authorize :
  ConfigurationStore -> list (string * string) -> list Privilege -> option Error.

(** [HttpEndpoint.doConfigStore]. *)
Definition doConfigStore : Error + ConfigurationStore :=
  match configStore with
  | None =>
      inl (NewAdminAuthError None "Failed to connect to Configuration Store")
  | Some configStore => inr configStore
  end.

(** [HttpEndpoint.hasAdminAuth]; [authHdr] is
    [req.Header["Authorization"]]. *)
Definition hasAdminAuth (authHdr : list string) : option Error :=
  match authHdr with
  | [] => Some (NewAdminAuthError None "basic authorization required")
  | auth :: _ =>
      let basicPrefix := "Basic " in
      if negb (HasPrefix auth basicPrefix)
      then Some (NewAdminAuthError None "basic authorization required")
      else
        match DecodeString (string_drop (String.length basicPrefix) auth) with
        | inl err => Some (NewAdminDecodingError err)
        | inr decoded =>
            match IndexByte decoded ":"%char with
            | None =>
                Some (NewAdminAuthError None "incorrect authorization header")
            | Some colonIndex =>
                let user := string_take colonIndex decoded in
                let password := string_drop (colonIndex + 1) decoded in
                let creds := [(user, password)] in
                match doConfigStore with
                | inl configErr => Some configErr
                | inr configstore =>
                    let sslPrivs := [PRIV_SYS_ADMIN] in
                    Authorize configstore creds sslPrivs
                end
            end
        end
  end.

End hasAdminAuth.

(* --------------------------------------------------------------------- *)

Lemma prefix_drop (p s : string) :
  String.prefix p s = true <-> s = p +:+ string_drop (String.length p) s.
Proof.
  revert s. induction p as [|c p IH]; intros s; simpl.
  - by destruct s.
  - destruct s as [|c' s]; [done|]. simpl.
    destruct (Ascii.ascii_dec c c') as [->|Hne].
    + split.
      * intros H. apply IH in H.
        change (String c' s = String c' (p +:+ string_drop (String.length p) s)).
        by rewrite <- H.
      * change (String c' s = String c' (p +:+ string_drop (String.length p) s)
                -> String.prefix p s = true).
        intros [= H]. by apply IH.
    + split; [done|].
      change (String c' s = String c (p +:+ string_drop (String.length p) s)
              -> false = true).
      by intros [= ->].
Qed.

Lemma append_String (c : Ascii.ascii) (p s : string) :
  String c p +:+ s = String c (p +:+ s).
Proof. done. Qed.

Lemma string_drop_app (p s : string) : string_drop (String.length p) (p +:+ s) = s.
Proof.
  induction p as [|c p IH]; [by destruct s|]. by rewrite append_String.
Qed.

Lemma string_take_app (p s : string) : string_take (String.length p) (p +:+ s) = p.
Proof.
  induction p as [|c p IH]; [done|]. rewrite append_String. simpl. by rewrite IH.
Qed.

Lemma string_drop_colon (user password : string) :
  string_drop (S (String.length user)) (user +:+ String ":"%char password)
  = password.
Proof.
  induction user as [|c user IH]; [by destruct password|].
  by rewrite append_String.
Qed.

Lemma IndexByte_Some (s : string) (c : Ascii.ascii) (i : nat) :
  IndexByte s c = Some i <->
  exists user password,
    s = user +:+ String c password /\ IndexByte user c = None /\
    i = String.length user.
Proof.
  revert i. induction s as [|c' s IH]; intros i; simpl.
  - split; [done|]. intros (user & password & H & _). by destruct user.
  - destruct (Ascii.eqb c' c) eqn:Hc.
    + apply Ascii.eqb_eq in Hc as ->. split.
      * intros [= <-]. by exists "", s.
      * intros ([|c' user] & password & H & Hnone & ->); [done|].
        simpl in H, Hnone. injection H as <- _.
        by rewrite Ascii.eqb_refl in Hnone.
    + split.
      * destruct (IndexByte s c) as [j|] eqn:Hj; [|done]. intros [= <-].
        destruct (proj1 (IH j) eq_refl) as (user & password & -> & Hnone & ->).
        exists (String c' user), password. simpl. by rewrite Hc, Hnone.
      * intros ([|c'' user] & password & H & Hnone & ->); simpl in H.
        { injection H as -> _. by rewrite Ascii.eqb_refl in Hc. }
        injection H as <- ->. simpl in Hnone. rewrite Hc in Hnone.
        destruct (IndexByte user c) as [?|] eqn:Hu; [done|].
        assert (IndexByte (user +:+ String c password) c
                = Some (String.length user)) as ->; [|done].
        apply IH. by exists user, password.
Qed.

(** X23.  The admin endpoints that ask for administrator rights grant
    them, over the configuration store of a Couchbase cluster, exactly to
    a request whose first Authorization header is [Basic ] followed by a
    text that decodes to [user:password], the user being what stands
    before the first colon, when there is a configuration store, the
    user and the password authenticate with cbauth, and the credentials
    are allowed [cluster.settings!write]. *)
Theorem hasAdminAuth_grants (DecodeString : string -> error + string)
    (ConfigurationStore Creds : Type) (configStore : option ConfigurationStore)
    (Auth : string -> string -> error + Creds)
    (IsAllowed : Creds -> string -> error + bool) (authHdr : list string) :
  hasAdminAuth DecodeString ConfigurationStore configStore
    (fun _ => clustering_cb.Authorize Creds Auth IsAllowed) authHdr = None <->
  exists auth more payload user password creds,
    authHdr = auth :: more /\
    auth = "Basic " +:+ payload /\
    DecodeString payload = inr (user +:+ ":" +:+ password) /\
    IndexByte user ":"%char = None /\
    is_Some configStore /\
    Auth user password = inr creds /\
    IsAllowed creds "cluster.settings!write" = inr true.
Proof.
  unfold hasAdminAuth, doConfigStore, HasPrefix. split.
  - destruct authHdr as [|auth more]; [done|].
    destruct (String.prefix "Basic " auth) eqn:Hprefix; [|done].
    apply prefix_drop in Hprefix. cbn [negb].
    destruct (DecodeString _) as [err|decoded] eqn:Hdecode; [done|].
    destruct (IndexByte decoded ":"%char) as [colonIndex|] eqn:Hcolon; [|done].
    apply IndexByte_Some in Hcolon as (user & password & -> & Hnone & ->).
    destruct configStore as [store|]; [|done].
    rewrite string_take_app, Nat.add_1_r.
    rewrite string_drop_colon.
    unfold clustering_cb.Authorize. cbn [length Nat.eqb credentials_loop].
    destruct (Auth user password) as [err|creds] eqn:Hauth; [done|].
    cbn [privileges_loop].
    destruct (IsAllowed creds "cluster.settings!write") as [err|[]] eqn:Hallowed;
      [done| |done].
    intros _.
    exists auth, more, (string_drop (String.length "Basic ") auth),
      user, password, creds.
    by repeat split.
  - intros (auth & more & payload & user & password & creds
            & -> & -> & Hdecode & Hnone & [store ->] & Hauth & Hallowed).
    assert (String.prefix "Basic " ("Basic " +:+ payload) = true) as ->.
    { apply prefix_drop. by rewrite string_drop_app. }
    cbn [negb]. rewrite string_drop_app, Hdecode.
    assert (IndexByte (user +:+ ":" +:+ password) ":"%char = Some (String.length user))
      as ->.
    { apply IndexByte_Some. by exists user, password. }
    rewrite string_take_app, Nat.add_1_r.
    change (user +:+ ":" +:+ password) with (user +:+ String ":"%char password).
    rewrite string_drop_colon.
    unfold clustering_cb.Authorize. cbn [length Nat.eqb credentials_loop].
    rewrite Hauth. cbn [privileges_loop]. by rewrite Hallowed.
Qed.

End http.
